(** * The colly request queue ([queue/queue.go])

    A shallow embedding of the queue package: the in-memory linked-list
    store ([InMemoryQueueStorage]), the coordinator ([Queue]) with its
    enqueue path, and the dispatch loop of [Queue.Run] together with the
    worker goroutines, followed by the properties of the package.

    Go pointers are locations of an explicit heap; a nil pointer is [None].
    A Go [panic] is the [Panic] outcome, which no caller in this package
    recovers from.  Go's [int] is taken at 64 bits and its wrap-around is
    written out ([int_wrap]). *)

From stdpp Require Import gmap strings list fin_maps.
From Stdlib Require Import ZArith Lia Permutation.
From Stdlib Require Strings.Byte.

Local Open Scope Z_scope.

(** ** Go basics *)

Abbreviation byte := Byte.byte.

Definition int_min : Z := - 2 ^ 63.
Definition int_max : Z := 2 ^ 63 - 1.

(** Two's complement wrap-around of [int] arithmetic. *)
Definition int_wrap (z : Z) : Z := (z + 2 ^ 63) mod 2 ^ 64 - 2 ^ 63.

Inductive panic : Type :=
| NilDereference
| DanglingPointer
| PanicMessage (msg : string).

Inductive outcome (A : Type) : Type :=
| Ok (a : A)
| Panic (p : panic).
Arguments Ok {A} a.
Arguments Panic {A} p.

#[global] Instance outcome_bind : MBind outcome := λ A B k m,
  match m with
  | Ok a => k a
  | Panic p => Panic p
  end.

#[global] Instance outcome_fmap : FMap outcome := λ A B f m,
  match m with
  | Ok a => Ok (f a)
  | Panic p => Panic p
  end.

Definition returns {A : Type} (m : outcome A) : Prop :=
  match m with Ok _ => True | Panic _ => False end.

Abbreviation loc := positive.

(** ** The collaborators of the colly package

    [queue.go] imports the colly package for the request type, its
    (de)serialisation and the queue-full error, and [net/url] and
    [encoding/json] for parsing.  Their declarations are outside this file:
    the types are the fields of [CollyTypes], the functions those of
    [Colly]. *)

Class CollyTypes : Type := {
  (** [error] values other than nil *)
  error : Type;
  (** [url.URL], [http.Header], the [interface{}] values of a context *)
  URL : Type;
  Header : Type;
  CtxValue : Type;
  (** [colly.Collector] *)
  Collector : Type;
}.

(** [colly.Context]: [NewContext] is the empty map, [Put] inserts. *)
Abbreviation Context := (gmap string CtxValue).

(** [colly.Request], with the fields that the composite literals of this
    file set; the others keep their zero values. *)
Record colly_Request `{T : CollyTypes} : Type := {
  Method : string;
  Request_URL : option URL;
  Depth : Z;
  Body : option (list byte);
  Ctx : option Context;
  Headers : option Header;
}.

(** [colly.SerializableRequest], as [InMemoryQueueStorage.AddRequest]
    reads it. *)
Record colly_SerializableRequest `{T : CollyTypes} : Type := {
  sURL : string;
  sMethod : string;
  sDepth : Z;
  sBody : list byte;
  sCtx : Context;
  sHeaders : Header;
}.

(** A [*colly.Request]. *)
Abbreviation reqptr := (option colly_Request).

Class Colly `{T : CollyTypes} : Type := {
  (** [colly.ErrQueueFull] *)
  ErrQueueFull : error;
  (** [url.Parse] *)
  url_Parse : string → URL + error;
  (** [json.Unmarshal] into a [SerializableRequest] *)
  json_Unmarshal : list byte → colly_SerializableRequest + error;
  (** [Request.Marshal], past its reads through the receiver and its URL *)
  Marshal : colly_Request → list byte * option error;
  (** [Collector.UnmarshalRequest] *)
  UnmarshalRequest : Collector → list byte → reqptr * option error;
}.

(** Collaborators to run the definitions on: errors and URLs are strings, a
    request is serialised as its method, and a serialised request is read
    back as a [GET]; the empty method does not serialise.  A request of
    [demo_request] has its URL set; [bare_request] leaves it nil. *)
Definition demo_types : CollyTypes :=
  {| error := string; URL := string; Header := unit; CtxValue := unit;
     Collector := unit |}.

Definition demo_request (m : string) : @colly_Request demo_types :=
  {| Method := m; Request_URL := Some ("http://x/" : @URL demo_types); Depth := 0;
     Body := None; Ctx := None; Headers := None |}.

Definition bare_request (m : string) : @colly_Request demo_types :=
  {| Method := m; Request_URL := None; Depth := 0; Body := None;
     Ctx := None; Headers := None |}.

Definition demo_colly : @Colly demo_types :=
  {| ErrQueueFull := "Queue MaxSize reached" : @error demo_types;
     url_Parse := λ u, inl u;
     json_Unmarshal := λ _, inr ("unexpected end of JSON input" : @error demo_types);
     Marshal := λ r,
       if decide (Method r = "") then ([], Some ("no method" : @error demo_types))
       else ([], None);
     UnmarshalRequest := λ _ _, (Some (demo_request "GET"), None) |}.

(** The same collaborators with a [json.Unmarshal] that reads every
    non-empty input as one request, with the input as its body and one
    context entry, and a [url.Parse] that rejects the empty string. *)
Definition demo_colly_json : @Colly demo_types :=
  {| ErrQueueFull := "Queue MaxSize reached" : @error demo_types;
     url_Parse := λ u,
       if decide (u = "") then inr ("empty url" : @error demo_types) else inl u;
     json_Unmarshal := λ d,
       match d with
       | [] => inr ("unexpected end of JSON input" : @error demo_types)
       | _ => inl (@Build_colly_SerializableRequest demo_types
                     "http://x/1" "GET" 1 d {["k" := tt]} tt)
       end;
     Marshal := λ r, (default [] (Body r), None);
     UnmarshalRequest := λ _ _, (Some (demo_request "GET"), None) |}.

Section Queue.
Context `{T : CollyTypes} `{C : !Colly}.

(** [r.Marshal()] through a pointer.  The method reads the fields of its
    receiver, so a nil receiver is a nil pointer dereference; and it
    serialises the URL as [r.URL.String()], which dereferences [r.URL]: a
    request whose URL is nil panics as well.  The context, the body and the
    headers are tested for nil before they are read. *)
Definition colly_Request_Marshal (r : reqptr) : outcome (list byte * option error) :=
  match r with
  | None => Panic NilDereference
  | Some x =>
      match Request_URL x with
      | None => Panic NilDereference
      | Some _ => Ok (Marshal x)
      end
  end.

(** ** The heap *)

Record inMemoryQueueItem : Type := {
  Request : reqptr;
  Next : option loc;
}.

Inductive cell : Type :=
| CMutex
| CChan
| CItem (i : inMemoryQueueItem).

Abbreviation heap := (gmap loc cell).

Definition alloc (c : cell) (h : heap) : loc * heap :=
  let a := fresh (dom h) in (a, <[a := c]> h).

(** Reading an item through a pointer. *)
Definition load_item (h : heap) (p : option loc) : outcome inMemoryQueueItem :=
  match p with
  | None => Panic NilDereference
  | Some a =>
      match h !! a with
      | Some (CItem i) => Ok i
      | _ => Panic DanglingPointer
      end
  end.

(** ** The in-memory store *)

Record InMemoryQueueStorage : Type := {
  MaxSize : Z;
  lock : option loc;
  size : Z;
  first : option loc;
  last : option loc;
}.

Definition set_lock (m : option loc) (q : InMemoryQueueStorage) :=
  {| MaxSize := MaxSize q; lock := m; size := size q; first := first q; last := last q |}.
Definition set_size (n : Z) (q : InMemoryQueueStorage) :=
  {| MaxSize := MaxSize q; lock := lock q; size := n; first := first q; last := last q |}.
Definition set_first (p : option loc) (q : InMemoryQueueStorage) :=
  {| MaxSize := MaxSize q; lock := lock q; size := size q; first := p; last := last q |}.
Definition set_last (p : option loc) (q : InMemoryQueueStorage) :=
  {| MaxSize := MaxSize q; lock := lock q; size := size q; first := first q; last := p |}.

(** [&InMemoryQueueStorage{MaxSize: m}] *)
Definition new_InMemoryQueueStorage (m : Z) : InMemoryQueueStorage :=
  {| MaxSize := m; lock := None; size := 0; first := None; last := None |}.

(** A method's state is the heap and the receiver's struct. *)
Abbreviation mem := (heap * InMemoryQueueStorage)%type.

(** [q.lock.Lock()] with its deferred [Unlock]: in a sequential run the
    lock is free, and the call only needs the mutex to exist. *)
Definition with_lock {A : Type} (q : InMemoryQueueStorage) (body : outcome A) : outcome A :=
  match lock q with
  | None => Panic NilDereference
  | Some _ => body
  end.

Definition InMemoryQueueStorage_Init (s : mem) : outcome (mem * option error) :=
  let '(h, q) := s in
  let '(m, h') := alloc CMutex h in
  Ok ((h', set_lock (Some m) q), None).

Definition InMemoryQueueStorage_AddRequestPointer (r : reqptr) (s : mem)
  : outcome (mem * option error) :=
  let '(h, q) := s in
  with_lock q (
    if (0 <? MaxSize q) && (MaxSize q <=? size q) then
      Ok (s, Some ErrQueueFull)
    else
      let '(i, h1) := alloc (CItem {| Request := r; Next := None |}) h in
      '(h2, q2) ← match first q with
                  | None => Ok (h1, set_first (Some i) q)
                  | Some _ =>
                      match last q with
                      | None => Panic NilDereference
                      | Some l =>
                          it ← load_item h1 (Some l) ;
                          Ok (<[l := CItem {| Request := Request it; Next := Some i |}]> h1, q)
                      end
                  end ;
      let q3 := set_last (Some i) q2 in
      let q4 := set_size (int_wrap (size q3 + 1)) q3 in
      Ok ((h2, q4), None)).

Definition InMemoryQueueStorage_AddRequest (r : list byte) (s : mem)
  : outcome (mem * option error) :=
  match json_Unmarshal r with
  | inr err => Ok (s, Some err)
  | inl sreq =>
      match url_Parse (sURL sreq) with
      | inr err => Ok (s, Some err)
      | inl u =>
          let ctx : Context := map_fold (λ k v ctx, <[k := v]> ctx) ∅ (sCtx sreq) in
          let req := {| Method := sMethod sreq;
                        Request_URL := Some u;
                        Depth := sDepth sreq;
                        Body := Some (sBody sreq);
                        Ctx := Some ctx;
                        Headers := Some (sHeaders sreq) |} in
          InMemoryQueueStorage_AddRequestPointer (Some req) s
      end
  end.

Definition InMemoryQueueStorage_GetRequestPointer (s : mem)
  : outcome (mem * (reqptr * option error)) :=
  let '(h, q) := s in
  with_lock q (
    if size q =? 0 then
      Ok (s, (None, None))
    else
      it ← load_item h (first q) ;
      let r := Request it in
      let q1 := set_first (Next it) q in
      let q2 := set_size (int_wrap (size q1 - 1)) q1 in
      Ok ((h, q2), (r, None))).

Definition InMemoryQueueStorage_GetRequest (s : mem)
  : outcome (mem * (list byte * option error)) :=
  '(s', (r, err)) ← InMemoryQueueStorage_GetRequestPointer s ;
  match err with
  | Some _ => Ok (s', ([], None))
  | None =>
      res ← colly_Request_Marshal r ;
      Ok (s', res)
  end.

Definition InMemoryQueueStorage_QueueSize (s : mem) : outcome (mem * (Z * option error)) :=
  let '(h, q) := s in
  with_lock q (Ok (s, (size q, None))).

(** *** Operation sequences on the store *)

Inductive op : Type :=
| OpInit
| OpAddRequest (d : list byte)
| OpAddRequestPointer (r : reqptr)
| OpGetRequest
| OpGetRequestPointer
| OpQueueSize.

Definition exec_op (o : op) (s : mem) : outcome mem :=
  match o with
  | OpInit => fst <$> InMemoryQueueStorage_Init s
  | OpAddRequest d => fst <$> InMemoryQueueStorage_AddRequest d s
  | OpAddRequestPointer r => fst <$> InMemoryQueueStorage_AddRequestPointer r s
  | OpGetRequest => fst <$> InMemoryQueueStorage_GetRequest s
  | OpGetRequestPointer => fst <$> InMemoryQueueStorage_GetRequestPointer s
  | OpQueueSize => fst <$> InMemoryQueueStorage_QueueSize s
  end.

Fixpoint exec_ops (os : list op) (s : mem) : outcome mem :=
  match os with
  | [] => Ok s
  | o :: os' => s' ← exec_op o s; exec_ops os' s'
  end.

(** *** The shape of the linked chain *)

(** [lseg h p l e]: following [Next] from [p] passes through one node per
    request of [l], in order, and arrives at [e]. *)
Fixpoint lseg (h : heap) (p : option loc) (l : list reqptr) (e : option loc) : Prop :=
  match l with
  | [] => p = e
  | r :: l' =>
      ∃ a nx, p = Some a ∧ h !! a = Some (CItem {| Request := r; Next := nx |})
              ∧ lseg h nx l' e
  end.

(** The chain from [first] holds the requests [l]; when it is not empty,
    [last] is its final node. *)
Inductive chain (h : heap) (q : InMemoryQueueStorage) : list reqptr → Prop :=
| chain_nil :
    first q = None → chain h q []
| chain_snoc l0 r a :
    lseg h (first q) l0 (Some a) →
    h !! a = Some (CItem {| Request := r; Next := None |}) →
    last q = Some a →
    chain h q (l0 ++ [r]).

(** An initialised store whose backlog is [l]. *)
Definition repr (s : mem) (l : list reqptr) : Prop :=
  lock s.2 ≠ None
  ∧ size s.2 = Z.of_nat (length l)
  ∧ Z.of_nat (length l) ≤ int_max
  ∧ chain s.1 s.2 l.

(** The invariant as the data model words it. *)
Definition spec_invariant (q : InMemoryQueueStorage) : Prop :=
  size q = 0 ↔ (first q = None ∧ last q = None).

(** The invariant that the operations keep: [last] is only read while
    [first] is set, and is then the final node of the chain from [first],
    the node that following [Next] from [first] arrives at and whose own
    [Next] is nil; [size] is the number of nodes of the chain. *)
Definition store_invariant (s : mem) : Prop :=
  (size s.2 = 0 ↔ first s.2 = None)
  ∧ (first s.2 ≠ None →
     ∃ l0 r a,
       lseg s.1 (first s.2) l0 (Some a)
       ∧ last s.2 = Some a
       ∧ s.1 !! a = Some (CItem {| Request := r; Next := None |})
       ∧ size s.2 = Z.of_nat (length (l0 ++ [r]))).

(** An operation that links a node: an append that returns nil. *)
Definition links (o : op) (s : mem) : bool :=
  match o with
  | OpAddRequest d =>
      match InMemoryQueueStorage_AddRequest d s with
      | Ok (_, None) => true
      | _ => false
      end
  | OpAddRequestPointer r =>
      match InMemoryQueueStorage_AddRequestPointer r s with
      | Ok (_, None) => true
      | _ => false
      end
  | _ => false
  end.

(** Some operation of the run linked a node. *)
Fixpoint linked (os : list op) (s : mem) : bool :=
  match os with
  | [] => false
  | o :: os' =>
      links o s
      || match exec_op o s with
         | Ok s' => linked os' s'
         | Panic _ => false
         end
  end.

(** The store is full for an append. *)
Definition full (q : InMemoryQueueStorage) : Prop :=
  0 < MaxSize q ∧ MaxSize q ≤ size q.

(** Appends one after the other, and pops one after the other, with what
    each call returned. *)
Fixpoint add_all (rs : list reqptr) (s : mem) : outcome (mem * list (option error)) :=
  match rs with
  | [] => Ok (s, [])
  | r :: rs' =>
      '(s1, e) ← InMemoryQueueStorage_AddRequestPointer r s;
      '(s2, es) ← add_all rs' s1;
      Ok (s2, e :: es)
  end.

Fixpoint pop_n (n : nat) (s : mem) : outcome (mem * list (reqptr * option error)) :=
  match n with
  | O => Ok (s, [])
  | S n' =>
      '(s1, x) ← InMemoryQueueStorage_GetRequestPointer s;
      '(s2, xs) ← pop_n n' s1;
      Ok (s2, x :: xs)
  end.

(** ** The storage interface *)

(** An implementation of [Storage] other than the in-memory store: its
    four methods over a state of its own. *)
Record StorageImpl : Type := {
  impl_state : Type;
  impl_Init : impl_state → outcome (impl_state * option error);
  impl_AddRequest : list byte → impl_state → outcome (impl_state * option error);
  impl_GetRequest : impl_state → outcome (impl_state * (list byte * option error));
  impl_QueueSize : impl_state → outcome (impl_state * (Z * option error));
}.

(** A non-nil [Storage] value: the dynamic type and the object. *)
Inductive Storage : Type :=
| StInMemory (q : InMemoryQueueStorage)
| StOther (impl : StorageImpl) (st : impl_state impl).

Definition Storage_Init (h : heap) (s : Storage) : outcome (heap * Storage * option error) :=
  match s with
  | StInMemory q =>
      '((h', q'), e) ← InMemoryQueueStorage_Init (h, q); Ok (h', StInMemory q', e)
  | StOther impl st =>
      '(st', e) ← impl_Init impl st; Ok (h, StOther impl st', e)
  end.

Definition Storage_AddRequest (d : list byte) (h : heap) (s : Storage)
  : outcome (heap * Storage * option error) :=
  match s with
  | StInMemory q =>
      '((h', q'), e) ← InMemoryQueueStorage_AddRequest d (h, q); Ok (h', StInMemory q', e)
  | StOther impl st =>
      '(st', e) ← impl_AddRequest impl d st; Ok (h, StOther impl st', e)
  end.

Definition Storage_GetRequest (h : heap) (s : Storage)
  : outcome (heap * Storage * (list byte * option error)) :=
  match s with
  | StInMemory q =>
      '((h', q'), x) ← InMemoryQueueStorage_GetRequest (h, q); Ok (h', StInMemory q', x)
  | StOther impl st =>
      '(st', x) ← impl_GetRequest impl st; Ok (h, StOther impl st', x)
  end.

Definition Storage_QueueSize (h : heap) (s : Storage)
  : outcome (heap * Storage * (Z * option error)) :=
  match s with
  | StInMemory q =>
      '((h', q'), x) ← InMemoryQueueStorage_QueueSize (h, q); Ok (h', StInMemory q', x)
  | StOther impl st =>
      '(st', x) ← impl_QueueSize impl st; Ok (h, StOther impl st', x)
  end.

(** ** The coordinator *)

(** [mut], the mutex that guards [wake], is a struct value: it always
    exists, and is free whenever one of the steps below starts. *)
Record Queue : Type := {
  Threads : Z;
  storage : Storage;
  wake : option loc;
}.

Definition set_storage (s : Storage) (q : Queue) : Queue :=
  {| Threads := Threads q; storage := s; wake := wake q |}.
Definition set_wake (w : option loc) (q : Queue) : Queue :=
  {| Threads := Threads q; storage := storage q; wake := w |}.

Abbreviation world := (heap * Queue)%type.

Definition New (threads : Z) (s : option Storage) (h : heap)
  : outcome (heap * (option Queue * option error)) :=
  let s := match s with
           | None => StInMemory (new_InMemoryQueueStorage 100000)
           | Some s => s
           end in
  '(h', s', err) ← Storage_Init h s;
  match err with
  | Some e => Ok (h', (None, Some e))
  | None => Ok (h', (Some {| Threads := threads; storage := s'; wake := None |}, None))
  end.

Definition Queue_Size (w : world) : outcome (world * (Z * option error)) :=
  let '(h, q) := w in
  '(h', s', x) ← Storage_QueueSize h (storage q);
  Ok ((h', set_storage s' q), x).

Definition Queue_IsEmpty (w : world) : outcome (world * bool) :=
  '(w', (s, _)) ← Queue_Size w;
  Ok (w', s =? 0).

(** The type switch shared by [AddURL] and [storeRequest]. *)
Definition Queue_storeRequest (r : reqptr) (w : world) : outcome (world * option error) :=
  let '(h, q) := w in
  match storage q with
  | StInMemory st =>
      '((h', st'), e) ← InMemoryQueueStorage_AddRequestPointer r (h, st);
      Ok ((h', set_storage (StInMemory st') q), e)
  | StOther _ _ =>
      '(d, err) ← colly_Request_Marshal r;
      match err with
      | Some e => Ok (w, Some e)
      | None =>
          '(h', s', e) ← Storage_AddRequest d h (storage q);
          Ok ((h', set_storage s' q), e)
      end
  end.

Definition Queue_AddURL (u : string) (w : world) : outcome (world * option error) :=
  match url_Parse u with
  | inr err => Ok (w, Some err)
  | inl u =>
      let r := {| Method := "GET"; Request_URL := Some u; Depth := 0;
                  Body := None; Ctx := None; Headers := None |} in
      Queue_storeRequest (Some r) w
  end.

(** A call that may stop at a send on an unbuffered channel: [Blocked ch w k]
    is the call waiting in [ch <- struct{}{}] with the world as [w]; it goes
    on as [k] once a receiver takes the value. *)
Inductive call (A : Type) : Type :=
| Returned (w : world) (a : A)
| Blocked (ch : loc) (w : world) (k : call A).
Arguments Returned {A} w a.
Arguments Blocked {A} ch w k.

Definition Queue_AddRequest (r : reqptr) (w : world) : outcome (call (option error)) :=
  match wake w.2 with
  | None =>
      '(w', err) ← Queue_storeRequest r w; Ok (Returned w' err)
  | Some ch =>
      '(w', err) ← Queue_storeRequest r w;
      match err with
      | Some e => Ok (Returned w' (Some e))
      | None => Ok (Blocked ch w' (Returned w' None))
      end
  end.


Fixpoint result {A : Type} (c : call A) : world * A :=
  match c with
  | Returned w a => (w, a)
  | Blocked _ _ k => result k
  end.

Definition Queue_loadRequest (c : Collector) (w : world) : outcome (world * (reqptr * option error)) :=
  let '(h, q) := w in
  '(h', s', (buf, err)) ← Storage_GetRequest h (storage q);
  let w' := (h', set_storage s' q) in
  match err with
  | Some e => Ok (w', (None, Some e))
  | None =>
      let copied := buf in
      Ok (w', UnmarshalRequest c copied)
  end.

(** The first lines of [Run]: the duplicate check and the wake channel. *)
Definition Queue_Run_enter (w : world) : outcome world :=
  let '(h, q) := w in
  match wake q with
  | Some _ => Panic (PanicMessage "cannot call duplicate Queue.Run")
  | None =>
      let '(ch, h') := alloc CChan h in
      Ok (h', set_wake (Some ch) q)
  end.

(** ** [Run]: the dispatch loop, the workers and the producers

    [Run] starts [Threads] worker goroutines and the loop goroutine, and
    waits on [errc]; producers store requests from goroutines of their own.
    The goroutines are the components of a [system], and each [event] is
    one step of one goroutine, or one rendezvous on an unbuffered channel;
    a schedule is a list of events.  A step consists of one operation on a
    shared object (the backend under its lock, a channel) and of the local
    computation that follows it.

    A producer is seen through its store alone ([EvStore]): of
    [Queue.AddRequest] that is the call of [storeRequest], whatever the
    value of [wake] that it read before.  The senders on [q.wake] are the
    producers whose store returned nil while [Run] was active; they are not
    counted, and a wake may arrive at any select ([EvWake]), which leaves
    every schedule of the program among the schedules here. *)

(** The collector that [Run] is called with, through a pointer that is not
    nil. *)
Variable collector : Collector.

(** Where the loop goroutine stands. *)
Inductive loop_pc : Type :=
| LNotStarted
| LTop                                 (* at [q.storage.QueueSize()] *)
| LLoad                                (* [size > 0]: at [q.loadRequest(c)] *)
| LSelect (sent : bool) (req : reqptr) (* in the select; [sent = false]: [sent == nil] *)
| LBroken.                             (* after [break] *)

(** Where a worker ([independentRunner]) stands. *)
Inductive worker : Type :=
| WIdle                    (* receiving from [requestc] *)
| WRunning (req : reqptr)  (* at [req.Do()] *)
| WCompleting              (* at [complete <- struct{}{}] *)
| WExited.                 (* [requestc] was closed *)

(** Where the caller of [Run] stands. *)
Inductive run_state : Type :=
| RunNotCalled
| RunWaiting                       (* at [<-errc] *)
| RunReturned (err : option error).

Record system : Type := {
  sys_world : world;
  sys_run : run_state;
  sys_pc : loop_pc;
  sys_active : Z;
  sys_workers : list worker;
  (** the buffer of [errc], of capacity 1 *)
  sys_errc : option (option error);
  (** [requestc] was closed *)
  sys_closed : bool;
}.

Definition with_world (w : world) (s : system) : system :=
  {| sys_world := w; sys_run := sys_run s;  sys_pc := sys_pc s; sys_active := sys_active s; sys_workers := sys_workers s;
     sys_errc := sys_errc s; sys_closed := sys_closed s |}.
Definition with_pc (pc : loop_pc) (s : system) : system :=
  {| sys_world := sys_world s; sys_run := sys_run s;  sys_pc := pc; sys_active := sys_active s; sys_workers := sys_workers s;
     sys_errc := sys_errc s; sys_closed := sys_closed s |}.
Definition with_active (a : Z) (s : system) : system :=
  {| sys_world := sys_world s; sys_run := sys_run s;  sys_pc := sys_pc s; sys_active := a; sys_workers := sys_workers s;
     sys_errc := sys_errc s; sys_closed := sys_closed s |}.
Definition with_workers (ws : list worker) (s : system) : system :=
  {| sys_world := sys_world s; sys_run := sys_run s;  sys_pc := sys_pc s; sys_active := sys_active s; sys_workers := ws;
     sys_errc := sys_errc s; sys_closed := sys_closed s |}.
Definition with_errc (e : option (option error)) (s : system) : system :=
  {| sys_world := sys_world s; sys_run := sys_run s;  sys_pc := sys_pc s; sys_active := sys_active s; sys_workers := sys_workers s;
     sys_errc := e; sys_closed := sys_closed s |}.

(** A coordinator on which [Run] has not been called. *)
Definition system_of (w : world) : system :=
  {| sys_world := w; sys_run := RunNotCalled;
     sys_pc := LNotStarted; sys_active := 0; sys_workers := [];
     sys_errc := None; sys_closed := false |}.

Inductive event : Type :=
| EvStore (r : reqptr)   (* a producer runs [q.storeRequest(r)], as [AddRequest] does *)
| EvRun                  (* [q.Run(c)] is called and reaches [<-errc] *)
| EvTop                  (* loop: the size query and the checks on it *)
| EvLoad                 (* loop: [loadRequest] and the check on its error *)
| EvOffer (i : nat)      (* select: worker [i] receives [req] from [requestc] *)
| EvWake                 (* select: a value arrives on [q.wake] *)
| EvComplete (i : nat)   (* select: worker [i]'s completion arrives *)
| EvDo (i : nat)         (* worker [i]: [req.Do()] *)
| EvExit (i : nat)       (* worker [i] leaves its [range] over the closed [requestc] *)
| EvReturn.              (* [Run] receives from [errc], closes [requestc], returns *)

Inductive step_result (A : Type) : Type :=
| Stepped (a : A)
| Disabled
| Crashed (p : panic).
Arguments Stepped {A} a.
Arguments Disabled {A}.
Arguments Crashed {A} p.

(** [Run] up to its receive from [errc]. *)
Definition step_Run (s : system) : step_result system :=
  match Queue_Run_enter (sys_world s) with
  | Panic p => Crashed p
  | Ok w =>
      match sys_run s with
      | RunNotCalled =>
          (* [requestc], [complete], [errc] *)
          let h1 := (alloc CChan w.1).2 in
          let h2 := (alloc CChan h1).2 in
          let h3 := (alloc CChan h2).2 in
          Stepped {| sys_world := (h3, w.2); sys_run := RunWaiting;
                     sys_pc := LTop; sys_active := 0;
                     sys_workers := replicate (Z.to_nat (Threads w.2)) WIdle;
                     sys_errc := None; sys_closed := false |}
      | _ => Disabled (* [wake] is set from the first call on *)
      end
  end.

(** One pass of the outer [for] up to the select, in its two steps. *)
Definition step_Top (s : system) : step_result system :=
  match sys_pc s with
  | LTop =>
      match Storage_QueueSize (sys_world s).1 (storage (sys_world s).2) with
      | Panic p => Crashed p
      | Ok (h', st', (size, err)) =>
          let s1 := with_world (h', set_storage st' (sys_world s).2) s in
          match err with
          | Some e => Stepped (with_pc LBroken (with_errc (Some (Some e)) s1))
          | None =>
              if (size =? 0) && (sys_active s =? 0) then
                Stepped (with_pc LBroken (with_errc (Some None) s1))
              else if 0 <? size then
                Stepped (with_pc LLoad s1)
              else
                Stepped (with_pc (LSelect false None) s1)
          end
      end
  | _ => Disabled
  end.

Definition step_Load (s : system) : step_result system :=
  match sys_pc s with
  | LLoad =>
      match Queue_loadRequest collector (sys_world s) with
      | Panic p => Crashed p
      | Ok (w', (req, err)) =>
          match err with
          | Some _ => Stepped (with_pc LTop (with_world w' s))
          | None => Stepped (with_pc (LSelect true req) (with_world w' s))
          end
      end
  | _ => Disabled
  end.

(** The three cases of the select. *)
Definition step_Offer (i : nat) (s : system) : step_result system :=
  match sys_pc s, sys_workers s !! i with
  | LSelect true req, Some WIdle =>
      if sys_closed s then Disabled
      else
        Stepped (with_pc LTop
                (with_active (int_wrap (sys_active s + 1))
                (with_workers (<[i := WRunning req]> (sys_workers s)) s)))
  | _, _ => Disabled
  end.

Definition step_Wake (s : system) : step_result system :=
  match sys_pc s with
  | LSelect sent req =>
      if sent then Stepped s else Stepped (with_pc LTop s)
  | _ => Disabled
  end.

Definition step_Complete (i : nat) (s : system) : step_result system :=
  match sys_pc s, sys_workers s !! i with
  | LSelect sent req, Some WCompleting =>
      let active := int_wrap (sys_active s - 1) in
      let s1 := with_active active (with_workers (<[i := WIdle]> (sys_workers s)) s) in
      if negb sent && (active =? 0) then Stepped (with_pc LTop s1) else Stepped s1
  | _, _ => Disabled
  end.

(** The body of [independentRunner]: [Do] reads its receiver, and is taken
    to return (the executor does not block). *)
Definition step_Do (i : nat) (s : system) : step_result system :=
  match sys_workers s !! i with
  | Some (WRunning req) =>
      match req with
      | None => Crashed NilDereference
      | Some _ => Stepped (with_workers (<[i := WCompleting]> (sys_workers s)) s)
      end
  | _ => Disabled
  end.

Definition step_Exit (i : nat) (s : system) : step_result system :=
  match sys_workers s !! i with
  | Some WIdle =>
      if sys_closed s then Stepped (with_workers (<[i := WExited]> (sys_workers s)) s)
      else Disabled
  | _ => Disabled
  end.

Definition step_Return (s : system) : step_result system :=
  match sys_run s, sys_errc s with
  | RunWaiting, Some err =>
      Stepped {| sys_world := sys_world s; sys_run := RunReturned err;
                 sys_pc := sys_pc s;
                 sys_active := sys_active s; sys_workers := sys_workers s;
                 sys_errc := None; sys_closed := true |}
  | _, _ => Disabled
  end.

Definition step_Store (r : reqptr) (s : system) : step_result system :=
  match Queue_storeRequest r (sys_world s) with
  | Panic p => Crashed p
  | Ok (w', _) => Stepped (with_world w' s)
  end.

Definition step (ev : event) (s : system) : step_result system :=
  match ev with
  | EvStore r => step_Store r s
  | EvRun => step_Run s
  | EvTop => step_Top s
  | EvLoad => step_Load s
  | EvOffer i => step_Offer i s
  | EvWake => step_Wake s
  | EvComplete i => step_Complete i s
  | EvDo i => step_Do i s
  | EvExit i => step_Exit i s
  | EvReturn => step_Return s
  end.

(** What a step shows to an observer: the request that a worker executes,
    the request that a producer's store accepted. *)
Definition executes (ev : event) (s : system) : list colly_Request :=
  match ev with
  | EvDo i =>
      match sys_workers s !! i with
      | Some (WRunning (Some x)) => [x]
      | _ => []
      end
  | _ => []
  end.

Definition stores (ev : event) (s : system) : list reqptr :=
  match ev with
  | EvStore r =>
      match Queue_storeRequest r (sys_world s) with
      | Ok (_, None) => [r]
      | _ => []
      end
  | _ => []
  end.

(** A system with the history of its run. *)
Record trace : Type := {
  final : system;
  executed : list colly_Request;
  stored : list reqptr;
}.

Definition start (w : world) : trace :=
  {| final := system_of w; executed := []; stored := [] |}.

Fixpoint run (evs : list event) (t : trace) : step_result trace :=
  match evs with
  | [] => Stepped t
  | ev :: evs' =>
      match step ev (final t) with
      | Stepped s' =>
          run evs' {| final := s';
                      executed := executed t ++ executes ev (final t);
                      stored := stored t ++ stores ev (final t) |}
      | Disabled => Disabled
      | Crashed p => Crashed p
      end
  end.

(** What the loop makes of a stored request when it loads it: the request
    that it offers to the workers, or nothing when [Marshal] or
    [UnmarshalRequest] returns an error.  The load of a nil request, and of
    a request without a URL, panics in [Marshal]: a run that goes on has
    loaded neither, and [loaded] is read on the requests of such runs. *)
Definition loaded (r : reqptr) : option reqptr :=
  match r with
  | None => None
  | Some x =>
      match Marshal x with
      | (_, Some _) => None
      | (d, None) =>
          match UnmarshalRequest collector d with
          | (_, Some _) => None
          | (r', None) => Some r'
          end
      end
  end.

(** A backend that records the calls made to it, around any
    implementation. *)
Inductive method : Type := MInit | MAddRequest | MGetRequest | MQueueSize.

Definition logged (impl : StorageImpl) : StorageImpl :=
  {| impl_state := impl_state impl * list method;
     impl_Init := λ '(st, log),
       '(st', e) ← impl_Init impl st; Ok ((st', log ++ [MInit]), e);
     impl_AddRequest := λ d '(st, log),
       '(st', e) ← impl_AddRequest impl d st; Ok ((st', log ++ [MAddRequest]), e);
     impl_GetRequest := λ '(st, log),
       '(st', x) ← impl_GetRequest impl st; Ok ((st', log ++ [MGetRequest]), x);
     impl_QueueSize := λ '(st, log),
       '(st', x) ← impl_QueueSize impl st; Ok ((st', log ++ [MQueueSize]), x) |}.

(** The loop has reported success: nil is in [errc], or [Run] has
    returned it. *)
Definition exit_reported (s : system) : Prop :=
  sys_errc s = Some None ∨ sys_run s = RunReturned None.

(** A worker that holds a request: it counts in [active]. *)
Definition busy (wk : worker) : bool :=
  match wk with
  | WRunning _ | WCompleting => true
  | _ => false
  end.

Definition running_req (wk : worker) : option reqptr :=
  match wk with
  | WRunning r => Some r
  | _ => None
  end.

(** The requests that workers have received and not yet executed, and the
    request that the loop holds in its select. *)
Definition running (ws : list worker) : list reqptr := omap running_req ws.

Definition pending (pc : loop_pc) : list reqptr :=
  match pc with
  | LSelect true r => [r]
  | _ => []
  end.

(** The loop has ended and no worker holds a request. *)
Definition quiescent (s : system) : Prop :=
  sys_pc s = LBroken ∧ sys_run s ≠ RunNotCalled
  ∧ Forall (λ wk, busy wk = false) (sys_workers s).

(** The invariant of a run on the in-memory backend that started with the
    backlog [l0] and has at most [n] events to go. *)
Record run_invariant (l0 : list reqptr) (n : nat) (t : trace) : Prop := {
  inv_backlog :
    ∃ st l,
      storage (sys_world (final t)).2 = StInMemory st
      ∧ repr ((sys_world (final t)).1, st) l
      ∧ Z.of_nat (length l) + Z.of_nat n ≤ int_max
      ∧ Permutation (omap loaded (l0 ++ stored t))
          ((Some <$> executed t) ++ running (sys_workers (final t))
             ++ pending (sys_pc (final t)) ++ omap loaded l);
  inv_active :
    sys_active (final t) = Z.of_nat (length (List.filter busy (sys_workers (final t))));
  inv_workers :
    Z.of_nat (length (sys_workers (final t))) ≤ int_max;
  inv_threads :
    Threads (sys_world (final t)).2 ≤ int_max;
  inv_not_called :
    sys_run (final t) = RunNotCalled →
    sys_workers (final t) = [] ∧ sys_pc (final t) = LNotStarted;
}.

(** The loop goroutine exists only once [Run] was called. *)
Definition loop_started (s : system) : Prop :=
  sys_run s = RunNotCalled → sys_pc s = LNotStarted.

(** The loop goroutine has ended. *)
Definition loop_over (s : system) : Prop :=
  sys_pc s = LBroken ∧ sys_run s ≠ RunNotCalled.

Definition is_store (ev : event) : bool :=
  match ev with
  | EvStore _ => true
  | _ => false
  end.

(** ** The store as a bounded FIFO list

    The pointer-based operations with what they return, and the same
    operations on the list of pending requests. *)

Inductive qop : Type :=
| QAdd (r : reqptr)
| QPop
| QSize.

Inductive qres : Type :=
| RAdd (err : option error)
| RPop (r : reqptr) (err : option error)
| RSize (n : Z) (err : option error).

Definition store_op (o : qop) (s : mem) : outcome (mem * qres) :=
  match o with
  | QAdd r =>
      '(s', e) ← InMemoryQueueStorage_AddRequestPointer r s; Ok (s', RAdd e)
  | QPop =>
      '(s', (r, e)) ← InMemoryQueueStorage_GetRequestPointer s; Ok (s', RPop r e)
  | QSize =>
      '(s', (n, e)) ← InMemoryQueueStorage_QueueSize s; Ok (s', RSize n e)
  end.

Fixpoint store_ops (os : list qop) (s : mem) : outcome (mem * list qres) :=
  match os with
  | [] => Ok (s, [])
  | o :: os' =>
      '(s1, x) ← store_op o s;
      '(s2, xs) ← store_ops os' s1;
      Ok (s2, x :: xs)
  end.

(** The list reading of the three operations for a store of capacity [m]. *)
Definition fifo_list_op (m : Z) (o : qop) (l : list reqptr) : list reqptr * qres :=
  match o with
  | QAdd r =>
      if (0 <? m) && (m <=? Z.of_nat (length l)) then (l, RAdd (Some ErrQueueFull))
      else (l ++ [r], RAdd None)
  | QPop =>
      match l with
      | [] => ([], RPop None None)
      | r :: l' => (l', RPop r None)
      end
  | QSize => (l, RSize (Z.of_nat (length l)) None)
  end.

Fixpoint fifo_list_ops (m : Z) (os : list qop) (l : list reqptr)
  : list reqptr * list qres :=
  match os with
  | [] => (l, [])
  | o :: os' =>
      let '(l1, x) := fifo_list_op m o l in
      let '(l2, xs) := fifo_list_ops m os' l1 in
      (l2, x :: xs)
  end.

(** The request that [InMemoryQueueStorage.AddRequest] builds from a
    serialised one and its parsed URL. *)
Definition request_of (sreq : colly_SerializableRequest) (u : URL) : colly_Request :=
  {| Method := sMethod sreq; Request_URL := Some u; Depth := sDepth sreq;
     Body := Some (sBody sreq); Ctx := Some (sCtx sreq);
     Headers := Some (sHeaders sreq) |}.

(** The request that a step hands to a worker, and the requests handed to
    workers along a schedule, in order. *)
Definition offers (ev : event) (s : system) : list reqptr :=
  match ev with
  | EvOffer _ => pending (sys_pc s)
  | _ => []
  end.

Fixpoint dispatched (evs : list event) (s : system) : list reqptr :=
  match evs with
  | [] => []
  | ev :: evs' =>
      match step ev s with
      | Stepped s' => offers ev s ++ dispatched evs' s'
      | _ => []
      end
  end.

(** The loop has reported a failure, or [Run] has returned one. *)
Definition failure_reported (e : error) (s : system) : Prop :=
  sys_errc s = Some (Some e) ∨ sys_run s = RunReturned (Some e).

Definition is_InMemory (s : Storage) : Prop :=
  match s with
  | StInMemory _ => True
  | StOther _ _ => False
  end.

(** [active] counts the workers that hold a request, and [Run] starts at
    most [Threads] workers. *)
Definition workers_invariant (s : system) : Prop :=
  sys_active s = Z.of_nat (length (List.filter busy (sys_workers s)))
  ∧ (length (sys_workers s) ≤ Z.to_nat (Threads (sys_world s).2))%nat.

(** The invariant of the order of dispatch on the in-memory backend, for a
    run that started with the backlog [l0], has handed [d] to workers and
    has at most [n] events to go. *)
Record order_invariant (l0 : list reqptr) (n : nat) (d : list reqptr) (t : trace) : Prop := {
  ord_backlog :
    ∃ st l,
      storage (sys_world (final t)).2 = StInMemory st
      ∧ repr ((sys_world (final t)).1, st) l
      ∧ Z.of_nat (length l) + Z.of_nat n ≤ int_max
      ∧ omap loaded (l0 ++ stored t) = d ++ pending (sys_pc (final t)) ++ omap loaded l;
  ord_single :
    (length (sys_workers (final t)) ≤ 1)%nat →
    (Some <$> executed t) ++ running (sys_workers (final t)) = d;
  ord_not_called :
    sys_run (final t) = RunNotCalled →
    sys_workers (final t) = [] ∧ sys_pc (final t) = LNotStarted;
}.

(** A schedule that drains the backlog [l] with worker 0 alone, from the
    head of the loop; [o] tells whether worker 0 holds a request.  The loop
    loads a request, the worker finishes the one it holds and receives the
    new one; at the end the worker finishes and the loop reports. *)
Fixpoint drain_schedule (o : bool) (l : list reqptr) : list event :=
  match l with
  | [] =>
      if o then [EvTop; EvDo 0; EvComplete 0; EvTop; EvReturn]
      else [EvTop; EvReturn]
  | r :: l' =>
      EvTop :: EvLoad ::
        match loaded r with
        | Some _ =>
            (if o then [EvDo 0; EvComplete 0] else []) ++ EvOffer 0 :: drain_schedule true l'
        | None => drain_schedule o l'
        end
  end.

Definition holds_request (o : option colly_Request) : bool :=
  match o with
  | Some _ => true
  | None => false
  end.

(** The request that the loop offers for a stored one, when it is one. *)
Definition loaded_request (r : reqptr) : option colly_Request :=
  match loaded r with
  | Some (Some x) => Some x
  | _ => None
  end.

(** A stored request that the loop and the workers can handle: it is not
    nil and has a URL, so that [Marshal] returns, and it does not load to a
    nil request, so that [Do] has a receiver. *)
Definition loadable (r : reqptr) : Prop :=
  (∃ x, r = Some x ∧ Request_URL x ≠ None) ∧ loaded r ≠ Some None.

(** The state at the head of the loop, with worker 0 idle or holding [o]. *)
Definition at_top (h : heap) (q : Queue) (o : option colly_Request) (ws : list worker)
  : system :=
  {| sys_world := (h, q); sys_run := RunWaiting; sys_pc := LTop;
     sys_active := match o with Some _ => 1 | None => 0 end;
     sys_workers := match o with Some x => WRunning (Some x) | None => WIdle end :: ws;
     sys_errc := None; sys_closed := false |}.

(** ** Progress of [Run]

    The steps of the producers are the stores and the arrivals on
    [q.wake], which only [Queue.AddRequest] sends to, after a store. *)
Definition is_producer (ev : event) : bool :=
  match ev with
  | EvStore _ | EvWake => true
  | _ => false
  end.

(** What a step may add to the backlog. *)
Definition cost (ev : event) : nat := if is_store ev then 1%nat else 0%nat.

(** The steps that the loop, the workers and [Run] still have before them,
    counted from above: each request of the backlog is queried, loaded,
    received, executed and completed; a worker that holds a request
    executes it and reports; [Run] starts [Threads] workers. *)
Definition worker_weight (wk : worker) : nat :=
  match wk with
  | WRunning _ => 4
  | WCompleting => 3
  | WIdle => 1
  | WExited => 0
  end.

Definition pc_weight (pc : loop_pc) : nat :=
  match pc with
  | LNotStarted => 3
  | LTop => 2
  | LLoad => 0
  | LSelect true _ => 6
  | LSelect false _ => 1
  | LBroken => 0
  end.

Definition run_weight (s : system) : nat :=
  match sys_run s with
  | RunNotCalled => 2 + Z.to_nat (Threads (sys_world s).2)
  | RunWaiting => 1
  | RunReturned _ => 0
  end.

Definition backlog_size (s : Storage) : nat :=
  match s with
  | StInMemory st => Z.to_nat (size st)
  | StOther _ _ => 0
  end.

Definition weight (s : system) : nat :=
  run_weight s + pc_weight (sys_pc s)
  + 7 * backlog_size (storage (sys_world s).2)
  + sum_list_with worker_weight (sys_workers s).

(** What [errc] holds while [Run] waits on it. *)
Definition reported (pc : loop_pc) : option (option error) :=
  match pc with
  | LBroken => Some None
  | _ => None
  end.

(** The invariant of a run on the in-memory backend with at least one
    thread, in which every stored request is [loadable]; at most [n]
    requests are still stored. *)
Record live_invariant (n : nat) (s : system) : Prop := {
  live_backlog :
    ∃ st l,
      storage (sys_world s).2 = StInMemory st
      ∧ repr ((sys_world s).1, st) l
      ∧ Z.of_nat (length l) + Z.of_nat n ≤ int_max
      ∧ Forall loadable l
      ∧ (sys_pc s = LLoad → l ≠ []);
  live_active :
    sys_active s = Z.of_nat (length (List.filter busy (sys_workers s)));
  live_threads :
    1 ≤ Threads (sys_world s).2 ≤ int_max;
  live_not_called :
    sys_run s = RunNotCalled →
    sys_workers s = [] ∧ sys_pc s = LNotStarted ∧ wake (sys_world s).2 = None;
  live_called :
    sys_run s ≠ RunNotCalled →
    length (sys_workers s) = Z.to_nat (Threads (sys_world s).2)
    ∧ sys_pc s ≠ LNotStarted;
  live_requests :
    Forall (λ wk, wk ≠ WRunning None) (sys_workers s)
    ∧ sys_pc s ≠ LSelect true None;
  live_select :
    ∀ req, sys_pc s = LSelect false req → 0 < sys_active s;
  live_waiting :
    sys_run s = RunWaiting →
    sys_closed s = false
    ∧ Forall (λ wk, wk ≠ WExited) (sys_workers s)
    ∧ sys_errc s = reported (sys_pc s);
  live_broken :
    sys_pc s = LBroken → Forall (λ wk, busy wk = false) (sys_workers s);
  live_returned :
    ∀ e, sys_run s = RunReturned e → e = None ∧ sys_pc s = LBroken;
}.


(* ================================================================= *)
(** * Properties *)

(** ** The in-memory store *)

Lemma int_wrap_id (z : Z) : int_min ≤ z ≤ int_max → int_wrap z = z.
Proof.
  unfold int_wrap, int_min, int_max. intros Hz.
  rewrite Z.mod_small by lia. lia.
Qed.

Lemma alloc_fresh (c : cell) (h : heap) : h !! (alloc c h).1 = None.
Proof. apply not_elem_of_dom, is_fresh. Qed.

Lemma lseg_alloc h p l e i c :
  h !! i = None → lseg h p l e → lseg (<[i := c]> h) p l e.
Proof.
  intros Hi. revert p. induction l as [|r l IH]; simpl; [done|].
  intros p (a & nx & -> & Ha & Hl). exists a, nx.
  split; [done|]. split; [|by apply IH].
  rewrite lookup_insert_ne; [done|]. intros ->. congruence.
Qed.

(** The nodes before the final node all have a successor, so none of them
    is the final node. *)
Lemma lseg_tail_update h p l a r c :
  h !! a = Some (CItem {| Request := r; Next := None |}) →
  lseg h p l (Some a) → lseg (<[a := c]> h) p l (Some a).
Proof.
  intros Ha. revert p. induction l as [|r' l IH]; simpl; [done|].
  intros p (a' & nx & -> & Ha' & Hl). exists a', nx.
  split; [done|]. split; [|by apply IH].
  rewrite lookup_insert_ne; [done|]. intros ->.
  rewrite Ha in Ha'. injection Ha' as _ <-.
  destruct l; simpl in Hl; [congruence|].
  destruct Hl as (? & ? & ? & _). congruence.
Qed.

Lemma lseg_snoc h p l a r nx :
  lseg h p l (Some a) →
  h !! a = Some (CItem {| Request := r; Next := nx |}) →
  lseg h p (l ++ [r]) nx.
Proof.
  revert p. induction l as [|r' l IH]; simpl.
  - intros p -> Ha. by exists a, nx.
  - intros p (a' & nx' & -> & Ha' & Hl) Ha. exists a', nx'. eauto.
Qed.

Lemma lseg_first_Some h p l a : lseg h p l (Some a) → is_Some p.
Proof. destruct l; simpl; [intros ->; eauto|]. intros (? & ? & -> & _). eauto. Qed.

Lemma chain_first h q l : chain h q l → (first q = None ↔ l = []).
Proof.
  intros [Hf|l0 r a Hl _ _].
  - done.
  - apply lseg_first_Some in Hl as [x Hx]. rewrite Hx. split; [done|].
    by destruct l0.
Qed.

Lemma repr_empty h q :
  lock q ≠ None → size q = 0 → first q = None → repr (h, q) [].
Proof.
  intros Hl Hs Hf. repeat split; simpl; try done.
  by constructor.
Qed.

Lemma repr_invariant s l : repr s l → store_invariant s.
Proof.
  destruct s as [h q]. intros (_ & Hs & _ & Hc). split; simpl in *.
  - rewrite (chain_first _ _ _ Hc), Hs. destruct l; simpl; split; (done || lia).
  - intros Hf. destruct Hc as [?|l0 r a Hseg Ha Hla]; [done|]. exists l0, r, a. done.
Qed.

(** A rejected append: the queue-full error, and nothing changes. *)
Lemma AddRequestPointer_full r h q :
  lock q ≠ None → full q →
  InMemoryQueueStorage_AddRequestPointer r (h, q) = Ok ((h, q), Some ErrQueueFull).
Proof.
  intros Hl [Hm Hs]. unfold InMemoryQueueStorage_AddRequestPointer, with_lock.
  destruct (lock q); [|done].
  replace (0 <? MaxSize q) with true by (symmetry; apply Z.ltb_lt; lia).
  replace (MaxSize q <=? size q) with true by (symmetry; apply Z.leb_le; lia).
  done.
Qed.

(** An accepted append links a new final node. *)
Lemma AddRequestPointer_repr r h q l :
  repr (h, q) l → Z.of_nat (length l) < int_max → ¬ full q →
  ∃ h' q',
    InMemoryQueueStorage_AddRequestPointer r (h, q) = Ok ((h', q'), None)
    ∧ repr (h', q') (l ++ [r])
    ∧ MaxSize q' = MaxSize q ∧ lock q' = lock q.
Proof.
  intros (Hl & Hs & Hb & Hc) Hlt Hnf. simpl in *.
  unfold InMemoryQueueStorage_AddRequestPointer, with_lock.
  destruct (lock q) as [m|] eqn:Hm; [|done].
  destruct ((0 <? MaxSize q) && (MaxSize q <=? size q)) eqn:Hfull.
  { exfalso. apply Hnf. apply andb_true_iff in Hfull as [H1 H2].
    split; [by apply Z.ltb_lt | by apply Z.leb_le]. }
  unfold alloc.
  set (i := fresh (dom h)).
  assert (Hi : h !! i = None) by apply (alloc_fresh CMutex).
  assert (Hsz : int_wrap (size q + 1) = Z.of_nat (length (l ++ [r]))).
  { rewrite length_app, Nat2Z.inj_add, <- Hs. simpl.
    apply int_wrap_id. unfold int_min, int_max in *. lia. }
  assert (Hle : Z.of_nat (length (l ++ [r])) ≤ int_max).
  { rewrite length_app, Nat2Z.inj_add. simpl. lia. }
  destruct Hc as [Hf|l0 r0 a Hseg Ha Hla].
  - rewrite Hf. simpl. eexists _, _. split; [reflexivity|].
    split; [|by simpl]. repeat split; simpl; try done.
    + by rewrite Hm.
    + apply (chain_snoc _ _ [] r i); simpl; [done| |done].
      by rewrite lookup_insert_eq.
  - destruct (lseg_first_Some _ _ _ _ Hseg) as [f Hf]. rewrite Hf, Hla.
    assert (Hai : a ≠ i) by (intros ->; congruence).
    unfold load_item. rewrite lookup_insert_ne by done. rewrite Ha. simpl.
    eexists _, _. split; [reflexivity|].
    split; [|by simpl]. repeat split; simpl; try done.
    + by rewrite Hm.
    + apply (chain_snoc _ _ (l0 ++ [r0]) r i); simpl; [| |done].
      * rewrite Hf. eapply lseg_snoc; [|by rewrite lookup_insert_eq].
        rewrite <- Hf. eapply lseg_tail_update.
        -- rewrite lookup_insert_ne by done. exact Ha.
        -- by apply lseg_alloc.
      * rewrite lookup_insert_ne by done. by rewrite lookup_insert_eq.
Qed.

(** A pop on an empty store: the nil request, the nil error, no change. *)
Lemma GetRequestPointer_empty s :
  lock s.2 ≠ None → size s.2 = 0 →
  InMemoryQueueStorage_GetRequestPointer s = Ok (s, (None, None)).
Proof.
  destruct s as [h q]. simpl. intros Hl Hs.
  unfold InMemoryQueueStorage_GetRequestPointer, with_lock.
  destruct (lock q); [|done]. by rewrite Hs.
Qed.

(** A pop on a backlog [r :: l] detaches the head node and returns [r]. *)
Lemma GetRequestPointer_repr r l h q :
  repr (h, q) (r :: l) →
  ∃ q',
    InMemoryQueueStorage_GetRequestPointer (h, q) = Ok ((h, q'), (r, None))
    ∧ repr (h, q') l
    ∧ MaxSize q' = MaxSize q ∧ lock q' = lock q.
Proof.
  intros (Hl & Hs & Hb & Hc). simpl in *.
  unfold InMemoryQueueStorage_GetRequestPointer, with_lock.
  destruct (lock q) as [m|] eqn:Hm; [|done].
  assert (Hnz : (size q =? 0) = false) by (apply Z.eqb_neq; lia).
  rewrite Hnz.
  assert (Hsz : int_wrap (size q - 1) = Z.of_nat (length l)).
  { rewrite Hs. replace (Z.of_nat (S (length l)) - 1) with (Z.of_nat (length l)) by lia.
    apply int_wrap_id. unfold int_min, int_max in *. lia. }
  inversion Hc as [|l0 r0 a Hseg Ha Hla Heq].
  destruct l0 as [|r1 l0]; simpl in *.
  - injection Heq as -> <-. rewrite Hseg. simpl. rewrite Ha. simpl.
    eexists. split; [reflexivity|]. split; [|by simpl].
    unfold repr; simpl. split; [by rewrite Hm|]. split; [exact Hsz|].
    split; [lia|]. by constructor.
  - injection Heq as -> <-.
    destruct Hseg as (a1 & nx & Hf & Ha1 & Hseg). rewrite Hf. simpl.
    rewrite Ha1. simpl.
    eexists. split; [reflexivity|]. split; [|by simpl].
    unfold repr; simpl. split; [by rewrite Hm|]. split; [exact Hsz|].
    split; [lia|]. by apply (chain_snoc _ _ l0 r0 a).
Qed.

Lemma full_dec (q : InMemoryQueueStorage) : {full q} + {¬ full q}.
Proof.
  unfold full. destruct (Z_lt_dec 0 (MaxSize q)), (Z_le_dec (MaxSize q) (size q));
    (by left) || (right; lia).
Qed.

(** Every append returns: it is rejected without a change, or accepted. *)
Lemma AddRequestPointer_total r s l :
  repr s l → Z.of_nat (length l) < int_max →
  ∃ s' e l',
    InMemoryQueueStorage_AddRequestPointer r s = Ok (s', e)
    ∧ repr s' l' ∧ (length l' ≤ S (length l))%nat.
Proof.
  destruct s as [h q]. intros Hr Hlt. destruct (full_dec q) as [Hf|Hf].
  - exists (h, q), (Some ErrQueueFull), l. split; [|split; [done|lia]].
    apply AddRequestPointer_full; [apply Hr | done].
  - destruct (AddRequestPointer_repr r h q l Hr Hlt Hf) as (h' & q' & He & Hr' & _).
    exists (h', q'), None, (l ++ [r]). split; [done|]. split; [done|].
    rewrite length_app. simpl. lia.
Qed.

Lemma chain_ext h q q' l :
  first q' = first q → last q' = last q → chain h q l → chain h q' l.
Proof.
  intros Hf Hl [H|l0 r a Hseg Ha Hla].
  - constructor. congruence.
  - apply (chain_snoc _ _ l0 r a); congruence.
Qed.

Lemma chain_alloc h q l i c : h !! i = None → chain h q l → chain (<[i := c]> h) q l.
Proof.
  intros Hi [Hf|l0 r a Hseg Ha Hla]; [by constructor|].
  apply (chain_snoc _ _ l0 r a); [by apply lseg_alloc | | done].
  rewrite lookup_insert_ne; [done|]. intros ->. congruence.
Qed.

(** [Init] installs a new mutex and touches nothing else. *)
Lemma Init_repr h q l :
  size q = Z.of_nat (length l) → Z.of_nat (length l) ≤ int_max → chain h q l →
  ∃ h' m,
    InMemoryQueueStorage_Init (h, q) = Ok ((h', set_lock (Some m) q), None)
    ∧ repr (h', set_lock (Some m) q) l.
Proof.
  intros Hs Hb Hc. unfold InMemoryQueueStorage_Init, alloc.
  eexists _, _. split; [reflexivity|].
  unfold repr; simpl. repeat split; try done.
  apply chain_alloc; [apply (alloc_fresh CMutex) |].
  by apply (chain_ext _ q).
Qed.

Lemma QueueSize_repr s l :
  repr s l → InMemoryQueueStorage_QueueSize s = Ok (s, (Z.of_nat (length l), None)).
Proof.
  destruct s as [h q]. intros (Hl & Hs & _). simpl in *.
  unfold InMemoryQueueStorage_QueueSize, with_lock.
  destruct (lock q); [|done]. by rewrite Hs.
Qed.

Lemma Marshal_request x :
  Request_URL x ≠ None → colly_Request_Marshal (Some x) = Ok (Marshal x).
Proof. simpl. by destruct (Request_URL x). Qed.

Lemma Marshal_returns r res :
  colly_Request_Marshal r = Ok res →
  ∃ x, r = Some x ∧ Request_URL x ≠ None ∧ res = Marshal x.
Proof.
  destruct r as [x|]; simpl; [|done].
  destruct (Request_URL x) eqn:Hu; [|done]. intros [= <-]. exists x. by rewrite Hu.
Qed.

(** The bytes-returning pop on a backlog: the head is detached, and handed
    to [Marshal]. *)
Lemma GetRequest_head r l h q :
  repr (h, q) (r :: l) →
  ∃ q', InMemoryQueueStorage_GetRequest (h, q)
        = (res ← colly_Request_Marshal r; Ok ((h, q'), res))
        ∧ repr (h, q') l
        ∧ MaxSize q' = MaxSize q ∧ lock q' = lock q.
Proof.
  intros Hr. destruct (GetRequestPointer_repr _ _ _ _ Hr) as (q' & He & Hr' & Hq).
  exists q'. split; [|done].
  unfold InMemoryQueueStorage_GetRequest. by rewrite He.
Qed.

(** The bytes-returning pop on a backlog whose head is a request with its
    URL set. *)
Lemma GetRequest_repr x l h q :
  Request_URL x ≠ None →
  repr (h, q) (Some x :: l) →
  ∃ q', InMemoryQueueStorage_GetRequest (h, q) = Ok ((h, q'), Marshal x)
        ∧ repr (h, q') l
        ∧ MaxSize q' = MaxSize q ∧ lock q' = lock q.
Proof.
  intros Hu Hr. destruct (GetRequest_head _ _ _ _ Hr) as (q' & He & Hr' & Hq).
  exists q'. split; [|done]. by rewrite He, Marshal_request.
Qed.

(** On an empty store the bytes-returning pop reaches [Marshal] with the
    nil request. *)
Lemma GetRequest_empty s :
  lock s.2 ≠ None → size s.2 = 0 →
  InMemoryQueueStorage_GetRequest s = Panic NilDereference.
Proof.
  intros Hl Hs. unfold InMemoryQueueStorage_GetRequest.
  by rewrite GetRequestPointer_empty.
Qed.

(** The bytes-returning pop hands the popped pointer to [Marshal] whatever
    it is: its error branch is never taken. *)
Lemma GetRequest_unfold s :
  InMemoryQueueStorage_GetRequest s =
    '(s', (r, _)) ← InMemoryQueueStorage_GetRequestPointer s;
    res ← colly_Request_Marshal r;
    Ok (s', res).
Proof.
  destruct s as [h q].
  unfold InMemoryQueueStorage_GetRequest, InMemoryQueueStorage_GetRequestPointer, with_lock.
  destruct (lock q); [|done].
  destruct (size q =? 0); [done|].
  destruct (load_item h (first q)); done.
Qed.

Lemma exec_op_repr o s l :
  repr s l → Z.of_nat (length l) < int_max →
  match exec_op o s with
  | Ok s' => ∃ l', repr s' l' ∧ (length l' ≤ S (length l))%nat
  | Panic _ => o = OpGetRequest
  end.
Proof.
  intros Hr Hlt. destruct o as [|d|r| | |]; simpl.
  - destruct s as [h q]. destruct Hr as (_ & Hs & Hb & Hc).
    destruct (Init_repr h q l Hs Hb Hc) as (h' & m & -> & Hr'). simpl.
    exists l. split; [done|lia].
  - unfold InMemoryQueueStorage_AddRequest.
    destruct (json_Unmarshal d) as [sreq|err]; simpl; [|exists l; split; [done|lia]].
    destruct (url_Parse (sURL sreq)) as [u|err]; simpl; [|exists l; split; [done|lia]].
    match goal with |- context [InMemoryQueueStorage_AddRequestPointer ?r s] =>
      destruct (AddRequestPointer_total r s l Hr Hlt) as (s' & e & l' & -> & Hr' & Hlen) end.
    simpl. eauto.
  - destruct (AddRequestPointer_total r s l Hr Hlt) as (s' & e & l' & -> & Hr' & Hlen).
    simpl. eauto.
  - destruct s as [h q]. destruct l as [|r l].
    + rewrite GetRequest_unfold, GetRequestPointer_empty by apply Hr. done.
    + destruct (GetRequest_head r l h q Hr) as (q' & -> & Hr' & _).
      destruct (colly_Request_Marshal r); simpl; [|done].
      exists l. split; [done|simpl; lia].
  - destruct s as [h q]. destruct l as [|r l].
    + rewrite GetRequestPointer_empty by apply Hr. simpl. exists []. split; [done|simpl; lia].
    + destruct (GetRequestPointer_repr _ _ _ _ Hr) as (q' & -> & Hr' & _). simpl.
      exists l. split; [done|simpl; lia].
  - rewrite (QueueSize_repr s l Hr). simpl. exists l. split; [done|lia].
Qed.

(** A run of operations on an initialised store keeps the representation;
    only the bytes-returning pop can panic. *)
Lemma exec_ops_repr os s l :
  repr s l → Z.of_nat (length l) + Z.of_nat (length os) ≤ int_max →
  match exec_ops os s with
  | Ok s' => ∃ l', repr s' l'
  | Panic _ => OpGetRequest ∈ os
  end.
Proof.
  revert s l. induction os as [|o os IH]; intros s l Hr Hb; simpl.
  - eauto.
  - simpl length in Hb.
    pose proof (exec_op_repr o s l Hr ltac:(lia)) as Ho.
    destruct (exec_op o s) as [s'|p]; simpl.
    + destruct Ho as (l' & Hr' & Hlen).
      specialize (IH s' l' Hr' ltac:(lia)).
      destruct (exec_ops os s'); [done|]. apply elem_of_cons. by right.
    + subst o. apply elem_of_cons. by left.
Qed.

(** Appends that all return nil extend the backlog in call order. *)
Lemma add_all_repr rs s l s1 es :
  repr s l → Z.of_nat (length l) + Z.of_nat (length rs) ≤ int_max →
  add_all rs s = Ok (s1, es) → Forall (λ e, e = None) es →
  repr s1 (l ++ rs).
Proof.
  revert s l s1 es. induction rs as [|r rs IH]; intros s l s1 es Hr Hb; simpl.
  - intros [= <- <-] _. by rewrite app_nil_r.
  - simpl length in Hb. destruct s as [h q]. destruct (full_dec q) as [Hf|Hf].
    + rewrite AddRequestPointer_full by (apply Hr || done). simpl.
      destruct (add_all rs (h, q)) as [[s2 es']|]; simpl; [|done].
      intros [= <- <-] HF. by inversion HF.
    + destruct (AddRequestPointer_repr r h q l Hr ltac:(lia) Hf)
        as (h' & q' & -> & Hr' & _). simpl.
      destruct (add_all rs (h', q')) as [[s2 es']|] eqn:Hadd; simpl; [|done].
      intros [= <- <-] HF. inversion HF; subst.
      replace (l ++ r :: rs) with ((l ++ [r]) ++ rs) by (by rewrite <- app_assoc).
      eapply IH; [exact Hr' | | exact Hadd | done].
      rewrite length_app. simpl. lia.
Qed.

(** Pops return the backlog front to back. *)
Lemma pop_n_repr l1 l2 s :
  repr s (l1 ++ l2) →
  ∃ s', pop_n (length l1) s = Ok (s', (λ r, (r, None)) <$> l1) ∧ repr s' l2.
Proof.
  revert s. induction l1 as [|r l1 IH]; intros [h q] Hr.
  - simpl. eauto.
  - cbn [length pop_n]. rewrite <- app_comm_cons in Hr.
    destruct (GetRequestPointer_repr r (l1 ++ l2) h q Hr) as (q' & -> & Hr' & _).
    destruct (IH _ Hr') as (s' & Hp & Hr''). exists s'. split; [|done].
    cbn [mbind outcome_bind]. rewrite Hp. reflexivity.
Qed.

(** [last] is written by the appends that return nil, which set it, and by
    nothing else. *)
Lemma AddRequestPointer_last r s s' e :
  InMemoryQueueStorage_AddRequestPointer r s = Ok (s', e) →
  match e with
  | None => last s'.2 ≠ None
  | Some _ => s' = s
  end.
Proof.
  destruct s as [h q]. unfold InMemoryQueueStorage_AddRequestPointer, with_lock, alloc.
  destruct (lock q); [|done].
  destruct ((0 <? MaxSize q) && (MaxSize q <=? size q)); [by intros [= <- <-]|].
  destruct (first q).
  - destruct (last q) as [a|]; [|done]. destruct (load_item _ (Some a)); [|done].
    simpl. by intros [= <- <-].
  - simpl. by intros [= <- <-].
Qed.

Lemma exec_op_last o s s' :
  exec_op o s = Ok s' →
  if links o s then last s'.2 ≠ None else last s'.2 = last s.2.
Proof.
  destruct o as [|d|r| | |]; cbn [exec_op links].
  - destruct s as [h q]. simpl. by intros [= <-].
  - destruct (InMemoryQueueStorage_AddRequest d s) as [[s1 e]|] eqn:He; [|done].
    simpl. intros [= <-]. revert He. unfold InMemoryQueueStorage_AddRequest.
    destruct (json_Unmarshal d) as [sreq|err]; [|by intros [= <- <-]].
    destruct (url_Parse (sURL sreq)) as [u|err]; [|by intros [= <- <-]].
    intros He. apply AddRequestPointer_last in He. destruct e; [by subst|done].
  - destruct (InMemoryQueueStorage_AddRequestPointer r s) as [[s1 e]|] eqn:He; [|done].
    simpl. intros [= <-]. apply AddRequestPointer_last in He. destruct e; [by subst|done].
  - rewrite GetRequest_unfold. destruct s as [h q].
    unfold InMemoryQueueStorage_GetRequestPointer, with_lock.
    destruct (lock q); [|done]. destruct (size q =? 0).
    + simpl. destruct (colly_Request_Marshal None); simpl; [by intros [= <-]|done].
    + destruct (load_item h (first q)) as [it|]; [|done]. simpl.
      destruct (colly_Request_Marshal (Request it)); simpl; [by intros [= <-]|done].
  - destruct s as [h q]. unfold InMemoryQueueStorage_GetRequestPointer, with_lock.
    destruct (lock q); [|done]. destruct (size q =? 0); [by intros [= <-]|].
    destruct (load_item h (first q)) as [it|]; [|done]. simpl. by intros [= <-].
  - destruct s as [h q]. unfold InMemoryQueueStorage_QueueSize, with_lock.
    destruct (lock q); [|done]. simpl. by intros [= <-].
Qed.

Lemma exec_ops_last os s s' :
  exec_ops os s = Ok s' →
  (last s'.2 = None ↔ last s.2 = None ∧ linked os s = false).
Proof.
  revert s. induction os as [|o os IH]; intros s; cbn [exec_ops linked].
  - intros [= <-]. by split; [|intros [? _]].
  - destruct (exec_op o s) as [s1|] eqn:Ho; [|done]. cbn [mbind outcome_bind].
    intros Hos. rewrite (IH _ Hos). apply exec_op_last in Ho.
    destruct (links o s); simpl.
    + split; [by intros [? _]|by intros [_ ?]].
    + by rewrite Ho.
Qed.

(** ** The claims about the in-memory store *)

(** C3 (as amended): on a store made by [Init] from a zero-valued struct,
    every run of at most [int_max] operations that returns leaves
    [size == 0 ⇔ first == nil], with [size] the number of nodes of the
    chain from [first] and [last] the final node of that chain whenever
    [first] is set; [last] is nil exactly when no append of the run has
    returned nil, and so is not reset when the store becomes empty again;
    and only the bytes-returning pop can panic. *)
Theorem store_invariant_preserved (m : Z) (h : heap) (os : list op) :
  Z.of_nat (length os) ≤ int_max →
  match exec_ops (OpInit :: os) (h, new_InMemoryQueueStorage m) with
  | Ok s' =>
      store_invariant s'
      ∧ (last s'.2 = None ↔ linked (OpInit :: os) (h, new_InMemoryQueueStorage m) = false)
  | Panic _ => OpGetRequest ∈ os
  end.
Proof.
  intros Hb.
  destruct (exec_ops (OpInit :: os) (h, new_InMemoryQueueStorage m)) as [s'|p] eqn:He.
  - split.
    + revert He. cbn [exec_ops exec_op].
      destruct (Init_repr h (new_InMemoryQueueStorage m) [])
        as (h' & mu & -> & Hr); [done | unfold int_max; simpl; lia | by constructor |].
      simpl.
      pose proof (exec_ops_repr os _ [] Hr ltac:(simpl; lia)) as H.
      destruct (exec_ops os _); [|done].
      intros [= <-]. destruct H as (l' & Hr'). by eapply repr_invariant.
    + rewrite (exec_ops_last _ _ _ He). simpl. by split; [intros [_ ?]|].
  - revert He. cbn [exec_ops exec_op].
    destruct (Init_repr h (new_InMemoryQueueStorage m) [])
      as (h' & mu & -> & Hr); [done | unfold int_max; simpl; lia | by constructor |].
    simpl.
    pose proof (exec_ops_repr os _ [] Hr ltac:(simpl; lia)) as H.
    by destruct (exec_ops os _).
Qed.

(** C4: on an initialised empty store the bytes-returning pop does not
    take its swallowing branch: the pointer-based pop reports no error, and
    the nil request reaches [Marshal]. *)
Theorem GetRequest_empty_panics (s : mem) :
  lock s.2 ≠ None → size s.2 = 0 →
  InMemoryQueueStorage_GetRequest s = Panic NilDereference.
Proof.
  apply GetRequest_empty.
Qed.

(** C5: with [MaxSize > 0] and [size >= MaxSize] an append returns
    [ErrQueueFull] and the heap and the struct are unchanged; with
    [MaxSize = 1], after an accepted append and a rejected one,
    [QueueSize] reports 1. *)
Theorem AddRequestPointer_full_unchanged :
  (∀ r h q, lock q ≠ None → 0 < MaxSize q → MaxSize q ≤ size q →
     InMemoryQueueStorage_AddRequestPointer r (h, q) = Ok ((h, q), Some ErrQueueFull))
  ∧ (∀ h r1 r2, ∃ s0 s1,
       InMemoryQueueStorage_Init (h, new_InMemoryQueueStorage 1) = Ok (s0, None)
       ∧ InMemoryQueueStorage_AddRequestPointer r1 s0 = Ok (s1, None)
       ∧ InMemoryQueueStorage_AddRequestPointer r2 s1 = Ok (s1, Some ErrQueueFull)
       ∧ InMemoryQueueStorage_QueueSize s1 = Ok (s1, (1, None))).
Proof.
  split.
  - intros r h q Hl Hm Hs. by apply AddRequestPointer_full.
  - intros h r1 r2.
    destruct (Init_repr h (new_InMemoryQueueStorage 1) [])
      as (h0 & mu & Hi & Hr0); [done | unfold int_max; simpl; lia | by constructor |].
    destruct (AddRequestPointer_repr r1 _ _ [] Hr0) as (h1 & q1 & Ha & Hr1 & Hm & Hl).
    { unfold int_max. simpl. lia. }
    { unfold full. simpl. lia. }
    exists (h0, set_lock (Some mu) (new_InMemoryQueueStorage 1)), (h1, q1).
    split; [done|]. split; [done|].
    assert (Hs1 : size q1 = 1) by apply Hr1.
    split.
    + apply AddRequestPointer_full; [apply Hr1|].
      unfold full. rewrite Hm, Hs1. simpl. lia.
    + by rewrite (QueueSize_repr _ _ Hr1).
Qed.

(** C6: on an empty initialised store, when the appends of A, B and C all
    return nil, the next three pops return A, then B, then C. *)
Theorem fifo_three (s s1 : mem) (a b c : reqptr) :
  lock s.2 ≠ None → size s.2 = 0 → first s.2 = None →
  add_all [a; b; c] s = Ok (s1, [None; None; None]) →
  ∃ s2, pop_n 3 s1 = Ok (s2, [(a, None); (b, None); (c, None)]).
Proof.
  destruct s as [h q]; cbn [fst snd]. intros Hl Hs Hf Hadd.
  pose proof (repr_empty h q Hl Hs Hf) as Hr.
  eapply add_all_repr in Hadd; [|exact Hr| |].
  - destruct (pop_n_repr [a; b; c] [] s1) as (s2 & Hp & _); [by rewrite app_nil_r|].
    exists s2. exact Hp.
  - unfold int_max. simpl. lia.
  - repeat constructor.
Qed.

(** C10: the pointer-based pop and [QueueSize] return a nil error whenever
    they return, and they do return on every initialised store holding a
    backlog; on an empty store the pop returns the nil request with the nil
    error and changes nothing; the bytes-returning pop is therefore the pop
    followed by [Marshal], without its error branch. *)
Theorem pointer_pop_never_errs (s : mem) :
  (∀ s' r e, InMemoryQueueStorage_GetRequestPointer s = Ok (s', (r, e)) → e = None)
  ∧ (∀ s' n e, InMemoryQueueStorage_QueueSize s = Ok (s', (n, e)) → e = None)
  ∧ (∀ l, repr s l →
       returns (InMemoryQueueStorage_GetRequestPointer s)
       ∧ returns (InMemoryQueueStorage_QueueSize s))
  ∧ (lock s.2 ≠ None → size s.2 = 0 →
       InMemoryQueueStorage_GetRequestPointer s = Ok (s, (None, None)))
  ∧ InMemoryQueueStorage_GetRequest s =
      ('(s', (r, _)) ← InMemoryQueueStorage_GetRequestPointer s;
       res ← colly_Request_Marshal r;
       Ok (s', res)).
Proof.
  split; [|split; [|split; [|split]]].
  - destruct s as [h q]. intros s' r e.
    unfold InMemoryQueueStorage_GetRequestPointer, with_lock.
    destruct (lock q); [|done]. destruct (size q =? 0); [by intros [= _ _ <-]|].
    destruct (load_item h (first q)); simpl; [by intros [= _ _ <-]|done].
  - destruct s as [h q]. intros s' n e.
    unfold InMemoryQueueStorage_QueueSize, with_lock.
    destruct (lock q); [by intros [= _ _ <-]|done].
  - intros l Hr. split; [|by rewrite (QueueSize_repr s l Hr)].
    destruct s as [h q]. destruct l as [|r l].
    + by rewrite GetRequestPointer_empty by apply Hr.
    + by destruct (GetRequestPointer_repr r l h q Hr) as (q' & -> & _).
  - apply GetRequestPointer_empty.
  - apply GetRequest_unfold.
Qed.

(** ** The coordinator *)

Lemma storeRequest_fields r w w' e :
  Queue_storeRequest r w = Ok (w', e) →
  wake w'.2 = wake w.2 ∧ Threads w'.2 = Threads w.2.
Proof.
  destruct w as [h q]. unfold Queue_storeRequest.
  destruct (storage q) as [st|impl st].
  - destruct (InMemoryQueueStorage_AddRequestPointer r (h, st)) as [[[h1 st1] e1]|];
      simpl; [|done]. by intros [= <- <-].
  - destruct (colly_Request_Marshal r) as [[d [e1|]]|]; simpl; [by intros [= <- <-] | |done].
    destruct (impl_AddRequest impl d st) as [[st1 e1]|]; simpl; [|done].
    by intros [= <- <-].
Qed.

(** An accepted store on the in-memory backend appends to the backlog. *)
Lemma storeRequest_InMemory r h q st l :
  storage q = StInMemory st → repr (h, st) l →
  Z.of_nat (length l) < int_max → ¬ full st →
  ∃ h' st',
    Queue_storeRequest r (h, q) = Ok ((h', set_storage (StInMemory st') q), None)
    ∧ repr (h', st') (l ++ [r]).
Proof.
  intros Hst Hr Hlt Hnf. unfold Queue_storeRequest. rewrite Hst.
  destruct (AddRequestPointer_repr r h st l Hr Hlt Hnf) as (h' & st' & -> & Hr' & _).
  simpl. eauto.
Qed.


Lemma step_wake ev s s' :
  step ev s = Stepped s' →
  wake (sys_world s').2 = wake (sys_world s).2
  ∨ (ev = EvRun ∧ wake (sys_world s).2 = None ∧ is_Some (wake (sys_world s').2)).
Proof.
  destruct ev as [r| | | |i| |i|i|i|]; simpl.
  - unfold step_Store.
    destruct (Queue_storeRequest r (sys_world s)) as [[w' e]|] eqn:Hs; [|done].
    apply storeRequest_fields in Hs as [Hs _]. intros [= <-]. by left.
  - unfold step_Run, Queue_Run_enter. destruct (sys_world s) as [h q]. simpl.
    destruct (wake q) eqn:Hw; [done|]. simpl.
    destruct (sys_run s); [|done..]. intros [= <-]. right. simpl. eauto.
  - unfold step_Top. destruct (sys_pc s); try done.
    destruct (Storage_QueueSize _ _) as [[[h' st'] [n [e|]]]|]; [| |done].
    + intros [= <-]. by left.
    + destruct ((n =? 0) && (sys_active s =? 0)); [intros [= <-]; by left|].
      destruct (0 <? n); intros [= <-]; by left.
  - unfold step_Load. destruct (sys_pc s); try done.
    unfold Queue_loadRequest. destruct (sys_world s) as [h q].
    destruct (Storage_GetRequest h (storage q)) as [[[h' st'] [buf [e|]]]|]; simpl;
      [intros [= <-]; by left| |done].
    destruct (UnmarshalRequest collector buf) as [req [e|]]; intros [= <-]; by left.
  - unfold step_Offer. destruct (sys_pc s) as [| | |[] req|]; try done.
    destruct (sys_workers s !! i) as [[]|]; try done.
    destruct (sys_closed s); [done|]. intros [= <-]. by left.
  - unfold step_Wake. destruct (sys_pc s) as [| | |[] req|]; try done;
      intros [= <-]; by left.
  - unfold step_Complete. destruct (sys_pc s) as [| | |sent req|]; try done.
    destruct (sys_workers s !! i) as [[]|]; try done.
    destruct (negb sent && _); intros [= <-]; by left.
  - unfold step_Do. destruct (sys_workers s !! i) as [[|[x|]| |]|]; try done.
    intros [= <-]. by left.
  - unfold step_Exit. destruct (sys_workers s !! i) as [[]|]; try done.
    destruct (sys_closed s); [|done]. intros [= <-]. by left.
  - unfold step_Return. destruct (sys_run s); try done.
    destruct (sys_errc s); [|done]. intros [= <-]. by left.
Qed.

Lemma run_wake evs t t' :
  run evs t = Stepped t' →
  is_Some (wake (sys_world (final t)).2) →
  wake (sys_world (final t')).2 = wake (sys_world (final t)).2.
Proof.
  revert t. induction evs as [|ev evs IH]; intros t; simpl.
  - by intros [= <-].
  - destruct (step ev (final t)) as [s'| |] eqn:Hs; [|done..].
    intros Hrun Hw. apply step_wake in Hs as [Hs|(_ & Hn & _)].
    + rewrite <- Hs. apply IH in Hrun; [done|]. simpl. by rewrite Hs.
    + rewrite Hn in Hw. by destruct Hw.
Qed.

(** C8: with the wake channel set, [Run] panics; it returns no error and
    starts no loop.  No step of any goroutine and no method of the
    coordinator changes a wake channel that is set, [Run] sets it when it
    starts, and so in every schedule a second call of [Run] crashes. *)
Theorem Run_twice_panics :
  (∀ w, is_Some (wake w.2) →
     Queue_Run_enter w = Panic (PanicMessage "cannot call duplicate Queue.Run"))
  ∧ (∀ s, is_Some (wake (sys_world s).2) →
       step EvRun s = Crashed (PanicMessage "cannot call duplicate Queue.Run"))
  ∧ (∀ s s', step EvRun s = Stepped s' → is_Some (wake (sys_world s').2))
  ∧ (∀ ev s s', step ev s = Stepped s' → is_Some (wake (sys_world s).2) →
       wake (sys_world s').2 = wake (sys_world s).2)
  ∧ (∀ r u w,
       (∀ k, Queue_AddRequest r w = Ok k → wake (result k).1.2 = wake w.2)
       ∧ (∀ w' e, Queue_AddURL u w = Ok (w', e) → wake w'.2 = wake w.2)
       ∧ (∀ w' x, Queue_Size w = Ok (w', x) → wake w'.2 = wake w.2)
       ∧ (∀ w' b, Queue_IsEmpty w = Ok (w', b) → wake w'.2 = wake w.2))
  ∧ (∀ evs1 evs2 t t1 t2,
       run evs1 t = Stepped t1 → step EvRun (final t1) = Stepped t2 →
       ∀ t3, run evs2 {| final := t2; executed := executed t1; stored := stored t1 |}
             = Stepped t3 →
       step EvRun (final t3) = Crashed (PanicMessage "cannot call duplicate Queue.Run")).
Proof.
  assert (Henter : ∀ w, is_Some (wake w.2) →
     Queue_Run_enter w = Panic (PanicMessage "cannot call duplicate Queue.Run")).
  { intros [h q] [ch Hw]. simpl in *. unfold Queue_Run_enter. by rewrite Hw. }
  assert (Hstep : ∀ s, is_Some (wake (sys_world s).2) →
     step EvRun s = Crashed (PanicMessage "cannot call duplicate Queue.Run")).
  { intros s Hw. simpl. unfold step_Run. by rewrite Henter. }
  assert (Hset : ∀ s s', step EvRun s = Stepped s' → is_Some (wake (sys_world s').2)).
  { intros s s'. simpl. unfold step_Run, Queue_Run_enter.
    destruct (sys_world s) as [h q]. simpl. destruct (wake q); [done|]. simpl.
    destruct (sys_run s); [|done..]. intros [= <-]. simpl. eauto. }
  assert (Hsize : ∀ w w' x, Queue_Size w = Ok (w', x) → wake w'.2 = wake w.2).
  { intros [h q] w' x. unfold Queue_Size.
    destruct (Storage_QueueSize h (storage q)) as [[[h' st'] y]|]; simpl; [|done].
    by intros [= <- _]. }
  split; [done|]. split; [done|]. split; [done|]. split; [|split].
  - intros ev s s' Hs Hw. apply step_wake in Hs as [Hs|(_ & Hn & _)]; [done|].
    rewrite Hn in Hw. by destruct Hw.
  - intros r u w. split; [|split; [|split]].
    + intros k. unfold Queue_AddRequest.
      destruct (Queue_storeRequest r w) as [[w' e]|] eqn:Hs.
      * apply storeRequest_fields in Hs as [Hs _].
        destruct (wake w.2); simpl; [destruct e|]; by intros [= <-].
      * by destruct (wake w.2).
    + intros w' e. unfold Queue_AddURL. destruct (url_Parse u); [|by intros [= <- _]].
      intros Hs. by apply storeRequest_fields in Hs as [Hs _].
    + apply Hsize.
    + intros w' b. unfold Queue_IsEmpty.
      destruct (Queue_Size w) as [[w1 [n e]]|] eqn:Hs; simpl; [|done].
      intros [= <- _]. by eapply Hsize.
  - intros evs1 evs2 t t1 t2 _ H2 t3 H3. apply Hstep.
    apply Hset in H2. apply run_wake in H3; simpl in *; [|done]. by rewrite H3.
Qed.

(** C9: [New] with a nil storage returns, for every thread count, a
    coordinator on the in-memory backend with [MaxSize] 100000 on which
    [Init] has run once: one mutex was allocated, and the store is empty.
    With any backend, [Init] is the one call that [New] makes, and when it
    returns an error [New] returns that error and the nil coordinator. *)
Theorem New_default_storage (threads : Z) (h : heap) :
  New threads None h =
    Ok (<[fresh (dom h) := CMutex]> h,
        (Some {| Threads := threads;
                 storage := StInMemory {| MaxSize := 100000;
                                          lock := Some (fresh (dom h));
                                          size := 0; first := None; last := None |};
                 wake := None |},
         None))
  ∧ New threads None h = New threads (Some (StInMemory (new_InMemoryQueueStorage 100000))) h
  ∧ (∀ impl st,
       match New threads (Some (StOther (logged impl) (st, []))) h with
       | Ok (h', (Some q, None)) =>
           h' = h ∧ Threads q = threads ∧ wake q = None
           ∧ ∃ st', impl_Init impl st = Ok (st', None)
                    ∧ storage q = StOther (logged impl) (st', [MInit])
       | Ok (h', (None, Some e)) => ∃ st', impl_Init impl st = Ok (st', Some e)
       | Ok _ => False
       | Panic p => impl_Init impl st = Panic p
       end).
Proof.
  split; [reflexivity|]. split; [reflexivity|].
  intros impl st. unfold New. simpl.
  destruct (impl_Init impl st) as [[st' [e|]]|]; simpl; eauto 10.
Qed.

(** ** The dispatch loop *)

Lemma run_app evs1 evs2 t :
  run (evs1 ++ evs2) t =
    match run evs1 t with
    | Stepped t1 => run evs2 t1
    | Disabled => Disabled
    | Crashed p => Crashed p
    end.
Proof.
  revert t. induction evs1 as [|ev evs1 IH]; intros t; simpl; [done|].
  destruct (step ev (final t)); [apply IH|done..].
Qed.

(** Success is reported by one step only: the size query of the loop, when
    it returns [(0, nil)] while [active] is 0. *)
Lemma step_reports_exit ev s s' :
  step ev s = Stepped s' → ¬ exit_reported s → exit_reported s' →
  ev = EvTop ∧ sys_pc s = LTop ∧ sys_active s = 0
  ∧ ∃ h' st',
      Storage_QueueSize (sys_world s).1 (storage (sys_world s).2) = Ok (h', st', (0, None))
      ∧ s' = with_pc LBroken (with_errc (Some None)
                (with_world (h', set_storage st' (sys_world s).2) s)).
Proof.
  unfold exit_reported. intros Hs Hn Hx.
  destruct ev as [r| | | |i| |i|i|i|]; simpl in Hs.
  - unfold step_Store in Hs. repeat case_match; simplify_eq. by destruct Hn.
  - unfold step_Run in Hs. repeat case_match; simplify_eq. by destruct Hx.
  - unfold step_Top in Hs. destruct (sys_pc s) eqn:Hpc; try done.
    destruct (Storage_QueueSize _ _) as [[[h' st'] [n [e|]]]|] eqn:Hq; [| |done].
    + simplify_eq. simpl in Hx. destruct Hx as [Hx|Hx]; [done|]. destruct Hn. by right.
    + destruct ((n =? 0) && (sys_active s =? 0)) eqn:Hc.
      * apply andb_true_iff in Hc as [Hn0 Ha0].
        apply Z.eqb_eq in Hn0, Ha0. subst n. simplify_eq.
        split; [done|]. split; [done|]. split; [done|]. by exists h', st'.
      * destruct (0 <? n); simplify_eq; simpl in Hx; by destruct Hn.
  - unfold step_Load in Hs. repeat case_match; simplify_eq; by destruct Hn.
  - unfold step_Offer in Hs. repeat case_match; simplify_eq; by destruct Hn.
  - unfold step_Wake in Hs. repeat case_match; simplify_eq; by destruct Hn.
  - unfold step_Complete in Hs. repeat case_match; simplify_eq; by destruct Hn.
  - unfold step_Do in Hs. repeat case_match; simplify_eq; by destruct Hn.
  - unfold step_Exit in Hs. repeat case_match; simplify_eq; by destruct Hn.
  - unfold step_Return in Hs. repeat case_match; simplify_eq.
    simpl in Hx. destruct Hx as [Hx|Hx]; [done|]. simplify_eq. destruct Hn. by left.
Qed.

Lemma exit_reported_dec s : {exit_reported s} + {¬ exit_reported s}.
Proof.
  unfold exit_reported.
  destruct (sys_errc s) as [[e|]|], (sys_run s) as [| |[e'|]];
    (left; by eauto) || (right; by intros [|]).
Qed.

(** A run that ends with success reported passes through the step that
    reported it. *)
Lemma run_reports_exit evs t tf :
  run evs t = Stepped tf → ¬ exit_reported (final t) → exit_reported (final tf) →
  ∃ evs1 evs2 t1 s2,
    evs = evs1 ++ EvTop :: evs2
    ∧ run evs1 t = Stepped t1
    ∧ ¬ exit_reported (final t1)
    ∧ step EvTop (final t1) = Stepped s2
    ∧ exit_reported s2
    ∧ run evs2 {| final := s2; executed := executed t1; stored := stored t1 |} = Stepped tf.
Proof.
  revert t. induction evs as [|ev evs IH]; intros t; simpl.
  - intros [= <-] Hn Hx. done.
  - destruct (step ev (final t)) as [s'| |] eqn:Hs; [|done..].
    intros Hrun Hn Hx.
    destruct (exit_reported_dec s') as [Hx'|Hn'].
    + destruct (step_reports_exit ev _ _ Hs Hn Hx') as (-> & _).
      exists [], evs, t, s'. simpl. rewrite !app_nil_r in Hrun. done.
    + destruct (IH _ Hrun Hn' Hx) as (evs1 & evs2 & t1 & s2 & -> & H1 & H2 & H3 & H4 & H5).
      exists (ev :: evs1), evs2, t1, s2. simpl. rewrite Hs. done.
Qed.

Ltac step_cases H :=
  simpl in H;
  unfold step_Store, step_Run, step_Top, step_Load, step_Offer, step_Wake,
    step_Complete, step_Do, step_Exit, step_Return in H;
  repeat case_match; simplify_eq.

Lemma step_loop_started ev s s' :
  step ev s = Stepped s' → loop_started s → loop_started s'.
Proof.
  unfold loop_started. intros Hs Hj.
  destruct ev; step_cases Hs; simpl; try done; intros Hr; try (by specialize (Hj Hr)).
Qed.

Lemma run_loop_started evs t t' :
  run evs t = Stepped t' → loop_started (final t) → loop_started (final t').
Proof.
  revert t. induction evs as [|ev evs IH]; intros t; simpl; [by intros [= <-]|].
  destruct (step ev (final t)) as [s'| |] eqn:Hs; [|done..].
  intros Hrun Hj. apply IH in Hrun; [done|]. simpl. by eapply step_loop_started.
Qed.

(** Once the loop has ended, only a producer's store changes the world. *)
Lemma step_loop_over ev s s' :
  step ev s = Stepped s' → loop_over s →
  loop_over s' ∧ (is_store ev = false → sys_world s' = sys_world s).
Proof.
  unfold loop_over. intros Hs [Hpc Hr].
  destruct ev; step_cases Hs; simpl; try done.
Qed.

Lemma run_loop_over evs t t' :
  run evs t = Stepped t' → loop_over (final t) →
  loop_over (final t')
  ∧ (Forall (λ ev, is_store ev = false) evs → sys_world (final t') = sys_world (final t)).
Proof.
  revert t. induction evs as [|ev evs IH]; intros t; simpl; [by intros [= <-]|].
  destruct (step ev (final t)) as [s'| |] eqn:Hs; [|done..].
  intros Hrun Ho. destruct (step_loop_over _ _ _ Hs Ho) as [Ho' Hw].
  apply IH in Hrun as [Ho'' Hw']; [|done]. split; [done|].
  intros HF. inversion HF; subst. simpl in Hw'. rewrite Hw' by done. by apply Hw.
Qed.

(** The size query of the loop reports success exactly when the backend,
    asked at that step, answers [(0, nil)] and [active] is 0 at that step. *)
Lemma step_Top_exit_iff s :
  sys_pc s = LTop →
  (∃ s', step EvTop s = Stepped s' ∧ sys_pc s' = LBroken ∧ sys_errc s' = Some None)
  ↔ (sys_active s = 0
     ∧ ∃ h' st', Storage_QueueSize (sys_world s).1 (storage (sys_world s).2)
                 = Ok (h', st', (0, None))).
Proof.
  intros Hpc. simpl. unfold step_Top. rewrite Hpc. split.
  - intros (s' & Hs & Hb & He).
    destruct (Storage_QueueSize _ _) as [[[h' st'] [n [e|]]]|]; [| |done].
    + by simplify_eq.
    + destruct ((n =? 0) && (sys_active s =? 0)) eqn:Hc.
      * apply andb_true_iff in Hc as [Hn0 Ha0]. apply Z.eqb_eq in Hn0, Ha0. subst n.
        split; [done|]. by exists h', st'.
      * destruct (0 <? n); by simplify_eq.
  - intros (Ha & h' & st' & ->). rewrite Ha. simpl. eauto.
Qed.

Lemma QueueSize_InMemory_zero h st h' st' :
  Storage_QueueSize h (StInMemory st) = Ok (h', st', (0, None)) →
  h' = h ∧ st' = StInMemory st ∧ size st = 0 ∧ lock st ≠ None.
Proof.
  simpl. unfold InMemoryQueueStorage_QueueSize, with_lock.
  destruct (lock st); simpl; [|done]. by intros [= <- <- ->].
Qed.

Lemma Size_InMemory_zero h q st :
  storage q = StInMemory st → size st = 0 → lock st ≠ None →
  Queue_Size (h, q) = Ok ((h, set_storage (StInMemory st) q), (0, None)).
Proof.
  intros Hst Hs Hl. unfold Queue_Size. rewrite Hst. simpl.
  unfold InMemoryQueueStorage_QueueSize, with_lock.
  destruct (lock st); [|done]. simpl. by rewrite Hs.
Qed.

(** C2 (as amended): at every pass the loop reports success exactly when
    the backend, asked at that pass, answers [(0, nil)] and [active] is 0;
    a run in which [Run] returns nil contains that step; on the in-memory
    backend [Size()] is 0 right after it, and is still 0 when [Run] has
    returned if no producer stored a request after it. *)
Theorem Run_nil_only_when_drained :
  (∀ s, sys_pc s = LTop →
     (∃ s', step EvTop s = Stepped s' ∧ sys_pc s' = LBroken ∧ sys_errc s' = Some None)
     ↔ (sys_active s = 0
        ∧ ∃ h' st', Storage_QueueSize (sys_world s).1 (storage (sys_world s).2)
                    = Ok (h', st', (0, None))))
  ∧ (∀ w evs t,
       run evs (start w) = Stepped t →
       sys_run (final t) = RunReturned None →
       ∃ evs1 evs2 t1 s2,
         evs = evs1 ++ EvTop :: evs2
         ∧ run evs1 (start w) = Stepped t1
         ∧ step EvTop (final t1) = Stepped s2
         ∧ run evs2 {| final := s2; executed := executed t1; stored := stored t1 |}
           = Stepped t
         ∧ sys_active (final t1) = 0
         ∧ (∃ h' st',
              Storage_QueueSize (sys_world (final t1)).1 (storage (sys_world (final t1)).2)
              = Ok (h', st', (0, None)))
         ∧ (∀ st, storage (sys_world (final t1)).2 = StInMemory st →
              Queue_Size (sys_world s2) = Ok (sys_world s2, (0, None))
              ∧ (Forall (λ ev, is_store ev = false) evs2 →
                 Queue_Size (sys_world (final t)) = Ok (sys_world (final t), (0, None))))).
Proof.
  split; [apply step_Top_exit_iff|].
  intros w evs t Hrun Hret.
  destruct (run_reports_exit evs (start w) t Hrun) as
    (evs1 & evs2 & t1 & s2 & -> & H1 & Hn1 & Hs2 & Hx2 & H2).
  { unfold exit_reported. simpl. by intros [|]. }
  { by right. }
  exists evs1, evs2, t1, s2.
  destruct (step_reports_exit _ _ _ Hs2 Hn1 Hx2) as (_ & Hpc & Ha & h' & st' & Hq & Hs2').
  do 5 (split; [done|]). split; [by eauto|].
  intros st Hst.
  assert (Hj : loop_started (final t1)).
  { eapply run_loop_started; [exact H1|]. by intros _. }
  assert (Ho : loop_over s2).
  { subst s2. split; [done|]. simpl. intros Hr. apply Hj in Hr. congruence. }
  rewrite Hst in Hq. apply QueueSize_InMemory_zero in Hq as (-> & -> & Hsz & Hl).
  assert (Hsize : Queue_Size (sys_world s2) = Ok (sys_world s2, (0, None))).
  { subst s2. cbn [sys_world with_pc with_errc with_world].
    by rewrite (Size_InMemory_zero _ _ st). }
  split; [done|]. intros HF.
  destruct (run_loop_over _ _ _ H2 Ho) as [_ Hw]. simpl in Hw. by rewrite Hw.
Qed.

(** *** The invariant of a run on the in-memory backend *)

Lemma workers_split (ws : list worker) i wk wk' :
  ws !! i = Some wk →
  ∃ l1 l2, ws = l1 ++ wk :: l2 ∧ <[i := wk']> ws = l1 ++ wk' :: l2.
Proof.
  intros Hi. exists (take i ws), (drop (S i) ws). split.
  - symmetry. by apply take_drop_middle.
  - apply insert_take_drop. by eapply lookup_lt_Some.
Qed.

Lemma running_app l1 l2 : running (l1 ++ l2) = running l1 ++ running l2.
Proof. apply omap_app. Qed.

Lemma busy_count_le (ws : list worker) :
  (length (List.filter busy ws) ≤ length ws)%nat.
Proof. induction ws as [|wk ws IH]; simpl; [lia|]. destruct (busy wk); simpl; lia. Qed.

Lemma replicate_idle n :
  running (replicate n WIdle) = [] ∧ List.filter busy (replicate n WIdle) = [].
Proof. induction n as [|n [IH1 IH2]]; simpl; [done|]. by split. Qed.

Lemma repr_alloc cl h st l : repr (h, st) l → repr ((alloc cl h).2, st) l.
Proof.
  intros (Hl & Hs & Hb & Hc). unfold repr, alloc. simpl in *.
  do 3 (split; [done|]). apply chain_alloc; [apply (alloc_fresh CMutex)|done].
Qed.

Lemma storeRequest_InMemory_cases r h q st l :
  storage q = StInMemory st → repr (h, st) l → Z.of_nat (length l) < int_max →
  Queue_storeRequest r (h, q) = Ok ((h, set_storage (StInMemory st) q), Some ErrQueueFull)
  ∨ ∃ h' st',
      Queue_storeRequest r (h, q) = Ok ((h', set_storage (StInMemory st') q), None)
      ∧ repr (h', st') (l ++ [r]).
Proof.
  intros Hst Hr Hlt. destruct (full_dec st) as [Hf|Hf].
  - left. unfold Queue_storeRequest. rewrite Hst.
    by rewrite AddRequestPointer_full by (apply Hr || done).
  - right. by apply (storeRequest_InMemory r h q st l).
Qed.

(** What [loadRequest] does on a backlog: it pops the head and keeps it
    when [loaded] has a value for it. *)
Lemma loadRequest_InMemory h q st l w' req err :
  storage q = StInMemory st → repr (h, st) l →
  Queue_loadRequest collector (h, q) = Ok (w', (req, err)) →
  ∃ x l' st',
    l = Some x :: l' ∧ w' = (h, set_storage (StInMemory st') q) ∧ repr (h, st') l'
    ∧ match err with
      | Some _ => loaded (Some x) = None
      | None => loaded (Some x) = Some req
      end.
Proof.
  intros Hst Hr. unfold Queue_loadRequest. rewrite Hst. cbn [Storage_GetRequest].
  destruct l as [|r l'].
  - rewrite GetRequest_empty by apply Hr. done.
  - destruct (GetRequest_head r l' h st Hr) as (st' & -> & Hr' & _).
    destruct (colly_Request_Marshal r) as [res|] eqn:Hres; [|done].
    apply Marshal_returns in Hres as (x & -> & _ & ->).
    cbn [mbind outcome_bind].
    destruct (Marshal x) as [d [e|]] eqn:Hm.
    + intros [= <- <- <-]. exists x, l', st'. simpl. by rewrite Hm.
    + destruct (UnmarshalRequest collector d) as [r' e'] eqn:Hu.
      intros [= <- <- <-]. exists x, l', st'. simpl. rewrite Hm, Hu.
      by destruct e'.
Qed.

(** The load of a head that is a request with its URL set. *)
Lemma loadRequest_head (x : colly_Request) (l : list reqptr)
    (h : heap) (q : Queue) (st : InMemoryQueueStorage) :
  Request_URL x ≠ None →
  storage q = StInMemory st → repr (h, st) (Some x :: l) →
  ∃ st',
    repr (h, st') l
    ∧ Queue_loadRequest collector (h, q)
      = Ok ((h, set_storage (StInMemory st') q),
            match Marshal x with
            | (_, Some e) => (None, Some e)
            | (d, None) => UnmarshalRequest collector d
            end).
Proof.
  intros Hu Hst Hr. unfold Queue_loadRequest. rewrite Hst. cbn [Storage_GetRequest].
  destruct (GetRequest_repr x l h st Hu Hr) as (st' & -> & Hr' & _).
  exists st'. split; [done|]. cbn [mbind outcome_bind].
  by destruct (Marshal x) as [d [e|]].
Qed.

Ltac invariant_fields :=
  split;
  cbn [final executed stored sys_world sys_run sys_pc sys_active sys_workers
       sys_errc sys_closed with_world with_pc with_active with_workers with_errc
       fst snd set_storage set_wake Threads storage wake].

Lemma run_invariant_weaken l0 n n' t :
  (n' ≤ n)%nat → run_invariant l0 n t → run_invariant l0 n' t.
Proof.
  intros Hn [(st & l & Hst & Hr & Hb & Hp) Ha Hw Hth Hnc]. split; try done.
  exists st, l. do 2 (split; [done|]). split; [lia|done].
Qed.

(** Only a store can make the backlog longer. *)
Lemma step_invariant_cost l0 n ev t s' :
  run_invariant l0 (n + cost ev) t → step ev (final t) = Stepped s' →
  run_invariant l0 n {| final := s';
                        executed := executed t ++ executes ev (final t);
                        stored := stored t ++ stores ev (final t) |}.
Proof.
  destruct t as [s ex sto]. cbn [final executed stored].
  intros [(st & l & Hst & Hr & Hb & Hp) Ha Hw Hth Hnc]. cbn [final executed stored] in *.
  destruct (sys_world s) as [h q] eqn:Hwd. cbn [fst snd] in *.
  assert (Hb' : Z.of_nat (length l) + Z.of_nat n ≤ int_max) by lia.
  destruct ev as [r| | | |i| |i|i|i|]; cbn [step executes stores]; intros Hs.
  - (* a producer's store *)
    unfold cost in Hb. cbn [is_store] in Hb.
    unfold step_Store in Hs. rewrite Hwd in *.
    destruct (storeRequest_InMemory_cases r h q st l Hst Hr ltac:(lia))
      as [He|(h' & st' & He & Hr')]; rewrite He in *; simplify_eq.
    + rewrite !app_nil_r. invariant_fields; try done.
      by exists st, l.
    + invariant_fields; try done.
      exists st', (l ++ [r]). do 2 (split; [done|]). split.
      * rewrite length_app. simpl. lia.
      * rewrite app_nil_r, (app_assoc l0), (omap_app _ (l0 ++ sto)), (omap_app _ l), Hp.
        by rewrite <- !app_assoc.
  - (* Run is called *)
    unfold step_Run, Queue_Run_enter in Hs. rewrite Hwd in Hs.
    destruct (wake q); [done|].
    destruct (alloc CChan h) as [ch h1] eqn:Hal.
    destruct (sys_run s) eqn:Hrun; [|done..]. simplify_eq.
    destruct (Hnc eq_refl) as [Hws Hpc]. rewrite Hws, Hpc in Hp.
    destruct (replicate_idle (Z.to_nat (Threads q))) as [Hrep1 Hrep2].
    rewrite !app_nil_r. invariant_fields; [| | | |done].
    + exists st, l. split; [done|]. split; [|split; [lia|]].
      * do 3 apply repr_alloc. replace h1 with (alloc CChan h).2 by (by rewrite Hal).
        by apply repr_alloc.
      * by rewrite Hrep1.
    + by rewrite Hrep2.
    + rewrite length_replicate. lia.
    + done.
  - (* the size query *)
    unfold step_Top in Hs. destruct (sys_pc s) eqn:Hpc; try done.
    rewrite Hwd in Hs. cbn [fst snd] in Hs. rewrite Hst in Hs.
    cbn [Storage_QueueSize] in Hs. rewrite (QueueSize_repr _ _ Hr) in Hs.
    cbn [mbind outcome_bind] in Hs. rewrite !app_nil_r.
    assert (Hinv : ∀ pc' e, pending pc' = [] → pc' ≠ LNotStarted →
      run_invariant l0 n
        {| final := with_pc pc' (with_errc e
                      (with_world (h, set_storage (StInMemory st) q) s));
           executed := ex; stored := sto |}).
    { intros pc' e Hpd Hne. invariant_fields; rewrite ?Hpd; try done.
      - by exists st, l.
      - intros Hrun. destruct (Hnc Hrun) as [_ ?]. congruence. }
    assert (Hsame : ∀ s0, with_errc (sys_errc s0) s0 = s0) by (by intros []).
    destruct ((Z.of_nat (length l) =? 0) && (sys_active s =? 0)).
    + simplify_eq. by apply Hinv.
    + destruct (0 <? Z.of_nat (length l)); simplify_eq.
      * rewrite <- (Hsame (with_world _ s)). by apply Hinv.
      * rewrite <- (Hsame (with_world _ s)). by apply Hinv.
  - (* the load *)
    unfold step_Load in Hs. destruct (sys_pc s) eqn:Hpc; try done.
    rewrite Hwd in Hs.
    destruct (Queue_loadRequest collector (h, q)) as [[w' [req err]]|] eqn:Hl; [|done].
    destruct (loadRequest_InMemory _ _ _ _ _ _ _ Hst Hr Hl)
      as (x & l' & st' & -> & -> & Hr' & Hld).
    change (omap loaded (Some x :: l')) with
      (match loaded (Some x) with
       | Some y => y :: omap loaded l'
       | None => omap loaded l'
       end) in Hp.
    cbn [pending app] in Hp. rewrite !app_nil_r.
    destruct err as [e|]; simplify_eq; rewrite Hld in Hp.
    + invariant_fields; try done.
      * exists st', l'. do 2 (split; [done|]). split; [simpl in Hb'; lia|done].
      * intros Hrun. destruct (Hnc Hrun) as [_ ?]. congruence.
    + invariant_fields; try done.
      * exists st', l'. do 2 (split; [done|]). split; [simpl in Hb'; lia|done].
      * intros Hrun. destruct (Hnc Hrun) as [_ ?]. congruence.
  - (* a worker receives the request *)
    unfold step_Offer in Hs. destruct (sys_pc s) as [| | |[] req|] eqn:Hpc; try done.
    destruct (sys_workers s !! i) as [[]|] eqn:Hi; try done.
    destruct (sys_closed s); [done|]. simplify_eq.
    destruct (workers_split _ _ _ (WRunning req) Hi) as (l1 & l2 & Hws & Hins).
    rewrite Hins. rewrite Hws in Hp, Ha, Hw, Hnc.
    rewrite running_app in Hp. rewrite List.filter_app in Ha. simpl in Hp, Ha.
    rewrite !app_nil_r.
    invariant_fields.
    + rewrite Hwd. exists st, l. do 3 (split; [done|]).
      rewrite Hp, running_app. simpl.
      apply Permutation_app_head. rewrite <- !app_assoc. apply Permutation_app_head.
      simpl. symmetry. apply Permutation_middle.
    + rewrite List.filter_app. simpl. rewrite Ha.
      rewrite !length_app in *. simpl in *.
      pose proof (busy_count_le l1). pose proof (busy_count_le l2).
      rewrite int_wrap_id; unfold int_min, int_max in *; lia.
    + rewrite !length_app in *. simpl in *. lia.
    + by rewrite Hwd.
    + intros Hrun. destruct (Hnc Hrun) as [? _]. by destruct l1.
  - (* a wake arrives *)
    unfold step_Wake in Hs. destruct (sys_pc s) as [| | |[] req|] eqn:Hpc; try done;
      simplify_eq; rewrite !app_nil_r.
    + invariant_fields; rewrite ?Hwd, ?Hpc; try done. by exists st, l.
    + invariant_fields; rewrite ?Hwd; try done.
      * by exists st, l.
      * intros Hrun. destruct (Hnc Hrun) as [_ ?]. congruence.
  - (* a completion arrives *)
    unfold step_Complete in Hs. destruct (sys_pc s) as [| | |sent req|] eqn:Hpc; try done.
    destruct (sys_workers s !! i) as [[]|] eqn:Hi; try done.
    destruct (workers_split _ _ _ WIdle Hi) as (l1 & l2 & Hws & Hins).
    rewrite Hins in Hs. rewrite Hws in Hp, Ha, Hw, Hnc.
    rewrite running_app in Hp. rewrite List.filter_app in Ha. simpl in Hp, Ha.
    rewrite !app_nil_r.
    assert (Hact : int_wrap (sys_active s - 1)
                   = Z.of_nat (length (List.filter busy (l1 ++ WIdle :: l2)))).
    { rewrite List.filter_app. simpl. rewrite Ha.
      rewrite !length_app in *. simpl in *.
      pose proof (busy_count_le l1). pose proof (busy_count_le l2).
      rewrite int_wrap_id; unfold int_min, int_max in *; lia. }
    assert (Hlen : Z.of_nat (length (l1 ++ WIdle :: l2)) ≤ int_max).
    { rewrite !length_app in *. simpl in *. lia. }
    assert (Hnc' : sys_run s = RunNotCalled → l1 ++ WIdle :: l2 = [] ∧ sys_pc s = LNotStarted).
    { intros Hrun. destruct (Hnc Hrun) as [? _]. by destruct l1. }
    destruct (negb sent && (int_wrap (sys_active s - 1) =? 0)) eqn:Hc; simplify_eq.
    + apply andb_true_iff in Hc as [Hsent _]. destruct sent; [done|].
      invariant_fields; rewrite ?Hwd; try done.
      * exists st, l. do 3 (split; [done|]). by rewrite Hp, running_app.
      * intros Hrun. destruct (Hnc' Hrun) as [? _]. by destruct l1.
    + invariant_fields; rewrite ?Hwd, ?Hpc; try done.
      * exists st, l. do 3 (split; [done|]). by rewrite Hp, running_app.
      * intros Hrun. destruct (Hnc' Hrun) as [? _]. by destruct l1.
  - (* a worker executes its request *)
    unfold step_Do in Hs.
    destruct (sys_workers s !! i) as [[|[x|]| |]|] eqn:Hi; try done. simplify_eq.
    destruct (workers_split _ _ _ WCompleting Hi) as (l1 & l2 & Hws & Hins).
    rewrite Hins. rewrite Hws in Hp, Ha, Hw, Hnc.
    rewrite running_app in Hp. rewrite List.filter_app in Ha. simpl in Hp, Ha.
    rewrite !app_nil_r.
    invariant_fields; rewrite ?Hwd; try done.
    + exists st, l. do 3 (split; [done|]).
      rewrite Hp, running_app, fmap_app. simpl.
      rewrite <- !app_assoc. apply Permutation_app_head. simpl.
      symmetry. apply Permutation_middle.
    + rewrite Ha, List.filter_app, !length_app. done.
    + rewrite !length_app in *. simpl in *. lia.
    + intros Hrun. destruct (Hnc Hrun) as [? _]. by destruct l1.
  - (* an idle worker leaves *)
    unfold step_Exit in Hs. destruct (sys_workers s !! i) as [[]|] eqn:Hi; try done.
    destruct (sys_closed s); [|done]. simplify_eq.
    destruct (workers_split _ _ _ WExited Hi) as (l1 & l2 & Hws & Hins).
    rewrite Hins. rewrite Hws in Hp, Ha, Hw, Hnc.
    rewrite running_app in Hp. rewrite List.filter_app in Ha. simpl in Hp, Ha.
    rewrite !app_nil_r.
    invariant_fields; rewrite ?Hwd; try done.
    + exists st, l. do 3 (split; [done|]). by rewrite Hp, running_app.
    + by rewrite List.filter_app.
    + rewrite !length_app in *. simpl in *. lia.
    + intros Hrun. destruct (Hnc Hrun) as [? _]. by destruct l1.
  - (* Run returns *)
    unfold step_Return in Hs. destruct (sys_run s); try done.
    destruct (sys_errc s); [|done]. simplify_eq. rewrite !app_nil_r.
    invariant_fields; rewrite ?Hwd; try done. by exists st, l.
Qed.

Lemma step_invariant l0 n ev t s' :
  run_invariant l0 (S n) t → step ev (final t) = Stepped s' →
  run_invariant l0 n {| final := s';
                        executed := executed t ++ executes ev (final t);
                        stored := stored t ++ stores ev (final t) |}.
Proof.
  intros Hi. apply step_invariant_cost.
  eapply run_invariant_weaken; [|exact Hi]. unfold cost. destruct (is_store ev); lia.
Qed.

Lemma run_invariant_run l0 evs n t t' :
  run_invariant l0 (length evs + n) t → run evs t = Stepped t' →
  run_invariant l0 n t'.
Proof.
  revert t. induction evs as [|ev evs IH]; intros t; simpl.
  - by intros Hi [= <-].
  - intros Hi. destruct (step ev (final t)) as [s'| |] eqn:Hs; [|done..].
    apply IH. by apply step_invariant.
Qed.

Lemma run_invariant_stores l0 evs n t t' :
  run_invariant l0 (length (List.filter is_store evs) + n) t → run evs t = Stepped t' →
  run_invariant l0 n t'.
Proof.
  revert t. induction evs as [|ev evs IH]; intros t; simpl.
  - by intros Hi [= <-].
  - intros Hi. destruct (step ev (final t)) as [s'| |] eqn:Hs; [|done..].
    apply IH. apply step_invariant_cost; [|done].
    eapply run_invariant_weaken; [|exact Hi].
    unfold cost. destruct (is_store ev); simpl; lia.
Qed.

Lemma start_invariant (w : world) st l0 n :
  storage w.2 = StInMemory st → repr (w.1, st) l0 → Threads w.2 ≤ int_max →
  Z.of_nat (length l0) + Z.of_nat n ≤ int_max →
  run_invariant l0 n (start w).
Proof.
  intros Hst Hr Hth Hb. split; simpl; try done.
  exists st, l0. do 3 (split; [done|]). by rewrite app_nil_r.
Qed.

Lemma no_busy_worker (ws : list worker) :
  length (List.filter busy ws) = 0%nat →
  Forall (λ wk, busy wk = false) ws ∧ running ws = [].
Proof.
  induction ws as [|wk ws IH]; simpl; [done|].
  destruct wk; simpl; try done; intros H; destruct (IH H); split; try done;
    by constructor.
Qed.

(** With the loop ended and no worker holding a request, nothing more is
    executed. *)
Lemma step_quiescent ev s s' :
  step ev s = Stepped s' → quiescent s →
  quiescent s' ∧ executes ev s = [].
Proof.
  unfold quiescent. intros Hs (Hpc & Hr & Hws).
  assert (Hidle : ∀ i wk, sys_workers s !! i = Some wk → busy wk = false).
  { intros i wk Hi. by eapply Forall_lookup_1 in Hws. }
  destruct ev; step_cases Hs; simpl; try done;
    try match goal with
        | H : sys_workers s !! _ = Some _ |- _ =>
            pose proof (Hidle _ _ H) as Hb; simpl in Hb
        end; try done.
  repeat split; try done. by apply Forall_insert.
Qed.

Lemma run_quiescent evs t t' :
  run evs t = Stepped t' → quiescent (final t) →
  quiescent (final t') ∧ executed t' = executed t.
Proof.
  revert t. induction evs as [|ev evs IH]; intros t; simpl; [by intros [= <-]|].
  destruct (step ev (final t)) as [s'| |] eqn:Hs; [|done..].
  intros Hrun Hq. destruct (step_quiescent _ _ _ Hs Hq) as [Hq' He].
  apply IH in Hrun as [Hq'' Hex]; [|done]. split; [done|].
  rewrite Hex. simpl. by rewrite He, app_nil_r.
Qed.

(** In every schedule, whether [Run] returns or not, what the workers have
    executed is part of what the loop could load from the accepted stores:
    no request is executed twice. *)
Lemma never_executed_twice (w : world) (st : InMemoryQueueStorage)
    (l0 : list reqptr) (evs : list event) (t : trace) :
  storage w.2 = StInMemory st → repr (w.1, st) l0 → Threads w.2 ≤ int_max →
  Z.of_nat (length l0) + Z.of_nat (length evs) ≤ int_max →
  run evs (start w) = Stepped t →
  ∃ rest, omap loaded (l0 ++ stored t) ≡ₚ (Some <$> executed t) ++ rest.
Proof.
  intros Hst Hr Hth Hb Hrun.
  assert (Hinv : run_invariant l0 0 t).
  { apply (run_invariant_run l0 evs _ (start w)); [|done].
    apply (start_invariant w st); try done; lia. }
  destruct Hinv as [(st1 & l & _ & _ & _ & Hp) _ _ _ _]. eauto.
Qed.

(** *** Progress of the loop and the workers *)

Lemma busy_count_insert (ws : list worker) i wk wk' :
  ws !! i = Some wk →
  Z.of_nat (length (List.filter busy (<[i := wk']> ws)))
  = Z.of_nat (length (List.filter busy ws))
    - (if busy wk then 1 else 0) + (if busy wk' then 1 else 0).
Proof.
  intros Hi. destruct (workers_split _ _ _ wk' Hi) as (l1 & l2 & -> & ->).
  rewrite !List.filter_app, !length_app. simpl.
  destruct (busy wk), (busy wk'); simpl; lia.
Qed.

Lemma weight_insert (ws : list worker) i wk wk' :
  ws !! i = Some wk →
  (sum_list_with worker_weight (<[i := wk']> ws) + worker_weight wk
   = sum_list_with worker_weight ws + worker_weight wk')%nat.
Proof.
  intros Hi. destruct (workers_split _ _ _ wk' Hi) as (l1 & l2 & -> & ->).
  rewrite !sum_list_with_app. simpl. lia.
Qed.

Lemma weight_replicate_idle n : sum_list_with worker_weight (replicate n WIdle) = n.
Proof. induction n as [|n IH]; simpl; [done|]. by rewrite IH. Qed.

Lemma busy_count_lookup (ws : list worker) i wk :
  ws !! i = Some wk → busy wk = true → 0 < Z.of_nat (length (List.filter busy ws)).
Proof.
  intros Hi Hb. destruct (workers_split _ _ _ wk Hi) as (l1 & l2 & -> & _).
  rewrite List.filter_app, length_app. simpl. rewrite Hb. simpl. lia.
Qed.

Lemma busy_worker_exists (ws : list worker) :
  0 < Z.of_nat (length (List.filter busy ws)) →
  ∃ i wk, ws !! i = Some wk ∧ busy wk = true.
Proof.
  induction ws as [|wk ws IH]; simpl; [lia|].
  destruct (busy wk) eqn:Hb.
  - intros _. by exists 0%nat, wk.
  - intros H. destruct (IH H) as (i & wk' & Hi & Hb'). by exists (S i), wk'.
Qed.

Lemma not_busy_running (ws : list worker) :
  Forall (λ wk, busy wk = false) ws → running ws = [].
Proof.
  induction 1 as [|wk ws Hb _ IH]; [done|].
  unfold running in *. simpl. destruct wk; simpl in *; done.
Qed.

Lemma live_weaken n n' s : (n' ≤ n)%nat → live_invariant n s → live_invariant n' s.
Proof.
  intros Hn [(st & l & Hst & Hr & Hb & Hok & Hne) Ha Hth Hnc Hc Hrq Hsel Hwt Hbr Hret].
  split; try done.
  exists st, l. do 2 (split; [done|]). split; [lia|done].
Qed.

Lemma start_live (w : world) st l0 n :
  storage w.2 = StInMemory st → repr (w.1, st) l0 →
  1 ≤ Threads w.2 ≤ int_max → wake w.2 = None →
  Z.of_nat (length l0) + Z.of_nat n ≤ int_max → Forall loadable l0 →
  live_invariant n (system_of w).
Proof.
  intros Hst Hr Hth Hw Hb Hok. split; simpl; try done.
  by exists st, l0.
Qed.

Lemma live_waiting_run n s :
  live_invariant n s → sys_pc s ≠ LNotStarted → sys_pc s ≠ LBroken →
  sys_run s = RunWaiting.
Proof.
  intros Hi Hp1 Hp2. destruct (sys_run s) as [| |e] eqn:Hrun; [|done|].
  - by destruct (live_not_called _ _ Hi Hrun) as (_ & ? & _).
  - by destruct (live_returned _ _ Hi e Hrun) as [_ ?].
Qed.

Lemma step_live n ev s s' :
  live_invariant (n + cost ev) s → step ev s = Stepped s' →
  Forall loadable (stores ev s) →
  live_invariant n s'.
Proof.
  intros Hinv Hs Hsl.
  pose proof (live_weaken (n + cost ev) n s ltac:(lia) Hinv) as Hinv'.
  destruct Hinv as [(st & l & Hst & Hr & Hb & Hok & Hne) Ha Hth Hnc Hc [Hrq Hpq] Hsel Hwt Hbr Hret].
  destruct (sys_world s) as [h q] eqn:Hwd. cbn [fst snd] in *.
  assert (Hb' : Z.of_nat (length l) + Z.of_nat n ≤ int_max) by lia.
  destruct ev as [r| | | |i| |i|i|i|]; cbn [step stores] in Hs, Hsl.
  - (* a producer's store *)
    unfold cost in Hb. cbn [is_store] in Hb.
    unfold step_Store in Hs. rewrite Hwd in *.
    destruct (storeRequest_InMemory_cases r h q st l Hst Hr ltac:(lia))
      as [He|(h' & st' & He & Hr')]; rewrite He in *; simplify_eq.
    + invariant_fields; try done. by exists st, l.
    + invariant_fields; try done.
      exists st', (l ++ [r]). do 2 (split; [done|]). split.
      { rewrite length_app. simpl. lia. }
      split; [by apply Forall_app|]. intros _. by destruct l.
  - (* Run is called *)
    unfold step_Run, Queue_Run_enter in Hs. rewrite Hwd in Hs.
    destruct (wake q); [done|].
    destruct (alloc CChan h) as [ch h1] eqn:Hal.
    destruct (sys_run s) eqn:Hrun; [|done..]. simplify_eq.
    destruct (replicate_idle (Z.to_nat (Threads q))) as [Hrep1 Hrep2].
    invariant_fields; try done.
    + exists st, l. split; [done|]. split; [|done].
      do 3 apply repr_alloc. replace h1 with (alloc CChan h).2 by (by rewrite Hal).
      by apply repr_alloc.
    + by rewrite Hrep2.
    + intros _. by rewrite length_replicate.
    + split; [|done]. by apply Forall_replicate.
    + intros _. split; [done|]. split; [|done]. by apply Forall_replicate.
  - (* the size query *)
    unfold step_Top in Hs. destruct (sys_pc s) eqn:Hpc; try done.
    pose proof (live_waiting_run _ _ Hinv' ltac:(congruence) ltac:(congruence)) as Hrw.
    destruct (Hwt Hrw) as (Hcl & Hex & Herr). simpl in Herr.
    rewrite Hwd in Hs. cbn [fst snd] in Hs. rewrite Hst in Hs.
    cbn [Storage_QueueSize] in Hs. rewrite (QueueSize_repr _ _ Hr) in Hs.
    cbn [mbind outcome_bind] in Hs.
    destruct ((Z.of_nat (length l) =? 0) && (sys_active s =? 0)) eqn:Hz.
    + apply andb_true_iff in Hz as [Hz1 Hz2]. apply Z.eqb_eq in Hz1, Hz2. simplify_eq.
      invariant_fields; rewrite ?Hrw; try done.
      * by exists st, l.
      * intros _. split; [|done]. apply Hc. congruence.
      * intros _. apply no_busy_worker. lia.
    + destruct (0 <? Z.of_nat (length l)) eqn:Hpos; simplify_eq.
      * invariant_fields; rewrite ?Hrw; try done.
        -- exists st, l. do 4 (split; [done|]). intros _ ->. simpl in Hpos. done.
        -- intros _. split; [|done]. apply Hc. congruence.
      * invariant_fields; rewrite ?Hrw; try done.
        -- by exists st, l.
        -- intros _. split; [|done]. apply Hc. congruence.
        -- intros req _. apply Z.ltb_ge in Hpos.
           apply andb_false_iff in Hz as [Hz|Hz]; apply Z.eqb_neq in Hz; lia.
  - (* the load *)
    unfold step_Load in Hs. destruct (sys_pc s) eqn:Hpc; try done.
    pose proof (live_waiting_run _ _ Hinv' ltac:(congruence) ltac:(congruence)) as Hrw.
    destruct (Hwt Hrw) as (Hcl & Hex & Herr). simpl in Herr.
    rewrite Hwd in Hs.
    destruct (Queue_loadRequest collector (h, q)) as [[w' [req err]]|] eqn:Hl; [|done].
    destruct (loadRequest_InMemory _ _ _ _ _ _ _ Hst Hr Hl)
      as (x & l' & st' & -> & -> & Hr' & Hld).
    inversion Hok as [|? ? [_ Hnn] Hok']; subst.
    simpl in Hb'.
    destruct err as [e|]; simplify_eq.
    + invariant_fields; rewrite ?Hrw; try done.
      * exists st', l'. do 2 (split; [done|]). split; [lia|done].
      * intros _. split; [|done]. apply Hc. congruence.
    + invariant_fields; rewrite ?Hrw; try done.
      * exists st', l'. do 2 (split; [done|]). split; [lia|done].
      * intros _. split; [|done]. apply Hc. congruence.
      * split; [done|]. intros [= ->]. by rewrite Hld in Hnn.
  - (* a worker receives the request *)
    unfold step_Offer in Hs. destruct (sys_pc s) as [| | |[] req|] eqn:Hpc; try done.
    destruct (sys_workers s !! i) as [[]|] eqn:Hi; try done.
    destruct (sys_closed s) eqn:Hcl; [done|]. simplify_eq.
    pose proof (live_waiting_run _ _ Hinv' ltac:(congruence) ltac:(congruence)) as Hrw.
    destruct (Hwt Hrw) as (_ & Hex & Herr). simpl in Herr.
    pose proof (busy_count_insert _ _ _ (WRunning req) Hi) as Hcount. simpl in Hcount.
    pose proof (busy_count_le (<[i := WRunning req]> (sys_workers s))) as Hle.
    rewrite length_insert in Hle.
    destruct (Hc ltac:(congruence)) as [Hlen _].
    invariant_fields; rewrite ?Hrw, ?Hwd; cbn [fst snd]; try done.
    + by exists st, l.
    + rewrite Hcount, Ha. rewrite int_wrap_id; [lia|]. unfold int_min, int_max in *. lia.
    + intros _. by rewrite length_insert.
    + split; [|done]. apply Forall_insert; [done|]. intros [= ->]. done.
    + intros _. split; [done|]. split; [|done]. by apply Forall_insert.
  - (* a wake arrives *)
    unfold step_Wake in Hs. destruct (sys_pc s) as [| | |[] req|] eqn:Hpc; try done;
      simplify_eq.
    + invariant_fields; rewrite ?Hwd, ?Hpc; cbn [fst snd]; try done. by exists st, l.
    + pose proof (live_waiting_run _ _ Hinv' ltac:(congruence) ltac:(congruence)) as Hrw.
      destruct (Hwt Hrw) as (Hcl & Hex & Herr). simpl in Herr.
      invariant_fields; rewrite ?Hrw, ?Hwd; cbn [fst snd]; try done.
      * by exists st, l.
      * intros _. split; [|done]. apply Hc. congruence.
  - (* a completion arrives *)
    unfold step_Complete in Hs. destruct (sys_pc s) as [| | |sent req|] eqn:Hpc; try done.
    destruct (sys_workers s !! i) as [[]|] eqn:Hi; try done.
    pose proof (live_waiting_run _ _ Hinv' ltac:(congruence) ltac:(congruence)) as Hrw.
    destruct (Hwt Hrw) as (Hcl & Hex & Herr). simpl in Herr.
    pose proof (busy_count_insert _ _ _ WIdle Hi) as Hcount. simpl in Hcount.
    pose proof (busy_count_lookup _ _ _ Hi eq_refl) as Hpos.
    pose proof (busy_count_le (sys_workers s)) as Hle.
    destruct (Hc ltac:(congruence)) as [Hlen _].
    assert (Hact : int_wrap (sys_active s - 1)
                   = Z.of_nat (length (List.filter busy (<[i := WIdle]> (sys_workers s))))).
    { rewrite Hcount, Ha. rewrite int_wrap_id; [lia|]. unfold int_min, int_max in *. lia. }
    destruct (negb sent && (int_wrap (sys_active s - 1) =? 0)) eqn:Hz; simplify_eq.
    + invariant_fields; rewrite ?Hrw, ?Hwd; cbn [fst snd]; try done.
      * by exists st, l.
      * intros _. by rewrite length_insert.
      * split; [|done]. by apply Forall_insert.
      * intros _. split; [done|]. split; [|done]. by apply Forall_insert.
    + invariant_fields; rewrite ?Hrw, ?Hwd, ?Hpc; cbn [fst snd]; try done.
      * exists st, l. do 4 (split; [done|]). done.
      * intros _. by rewrite length_insert.
      * split; [|done]. by apply Forall_insert.
      * intros req' [= -> ->]. simpl in Hz. apply Z.eqb_neq in Hz. lia.
      * intros _. split; [done|]. split; [by apply Forall_insert|].
        by rewrite Herr.
  - (* a worker executes its request *)
    unfold step_Do in Hs.
    destruct (sys_workers s !! i) as [[|[x|]| |]|] eqn:Hi; try done. simplify_eq.
    pose proof (busy_count_insert _ _ _ WCompleting Hi) as Hcount. simpl in Hcount.
    invariant_fields; rewrite ?Hwd; cbn [fst snd]; try done.
    + by exists st, l.
    + rewrite Hcount, Ha. lia.
    + intros Hrun. destruct (Hnc Hrun) as (Hws & _). by rewrite Hws in Hi.
    + intros Hrun. rewrite length_insert. by apply Hc.
    + split; [|done]. by apply Forall_insert.
    + intros Hrun. destruct (Hwt Hrun) as (? & ? & ?).
      split; [done|]. split; [|done]. by apply Forall_insert.
    + intros Hp. apply Hbr in Hp. by pose proof (Forall_lookup_1 _ _ _ _ Hp Hi).
  - (* an idle worker leaves *)
    unfold step_Exit in Hs. destruct (sys_workers s !! i) as [[]|] eqn:Hi; try done.
    destruct (sys_closed s) eqn:Hcl; [|done]. simplify_eq.
    pose proof (busy_count_insert _ _ _ WExited Hi) as Hcount. simpl in Hcount.
    invariant_fields; rewrite ?Hwd; cbn [fst snd]; try done.
    + by exists st, l.
    + rewrite Hcount, Ha. lia.
    + intros Hrun. destruct (Hnc Hrun) as (Hws & _). by rewrite Hws in Hi.
    + intros Hrun. rewrite length_insert. by apply Hc.
    + split; [|done]. by apply Forall_insert.
    + intros Hrun. destruct (Hwt Hrun) as (? & ? & ?). congruence.
    + intros Hp. apply Forall_insert; [by apply Hbr|done].
  - (* Run returns *)
    unfold step_Return in Hs. destruct (sys_run s) eqn:Hrun; try done.
    destruct (sys_errc s) as [err|] eqn:Herr; [|done]. simplify_eq.
    destruct (Hwt eq_refl) as (Hcl & Hex & Herr').
    assert (Hpc : sys_pc s = LBroken ∧ err = None).
    { destruct (sys_pc s); simpl in Herr'; by simplify_eq. }
    destruct Hpc as [Hpc ->].
    invariant_fields; rewrite ?Hwd; cbn [fst snd]; try done.
    + by exists st, l.
    + intros _. by apply Hc.
    + intros e [= <-]. done.
Qed.

(** Each step of the loop, of a worker or of [Run] uses up some of the
    weight; a producer's step adds at most 7 to it. *)
Lemma step_weight n ev s s' :
  live_invariant (n + cost ev) s → step ev s = Stepped s' →
  (weight s' + 1 ≤ weight s + 8 * (if is_producer ev then 1 else 0))%nat.
Proof.
  intros Hinv Hs.
  pose proof (live_weaken (n + cost ev) n s ltac:(lia) Hinv) as Hinv'.
  destruct Hinv as [(st & l & Hst & Hr & Hb & Hok & Hne) Ha Hth Hnc Hc [Hrq Hpq] Hsel Hwt Hbr Hret].
  assert (Hsz : Z.to_nat (size st) = length l).
  { destruct Hr as (_ & Hsz & _). simpl in Hsz. rewrite Hsz. apply Nat2Z.id. }
  unfold weight, run_weight.
  destruct (sys_world s) as [h q] eqn:Hwd. cbn [fst snd] in *.
  destruct ev as [r| | | |i| |i|i|i|]; cbn [step is_producer] in *.
  - (* a producer's store *)
    unfold cost in Hb. cbn [is_store] in Hb.
    unfold step_Store in Hs. rewrite Hwd in *.
    destruct (storeRequest_InMemory_cases r h q st l Hst Hr ltac:(lia))
      as [He|(h' & st' & He & Hr')]; rewrite He in *; simplify_eq.
    + cbn [sys_run sys_pc sys_world sys_workers with_world fst snd set_storage
           storage Threads backlog_size]. rewrite ?Hwd, ?Hst. cbn [snd Threads backlog_size].
      rewrite Hsz. lia.
    + cbn [sys_run sys_pc sys_world sys_workers with_world fst snd set_storage
           storage Threads backlog_size]. rewrite ?Hwd, ?Hst. cbn [snd Threads backlog_size].
      destruct Hr' as (_ & Hsz' & _). simpl in Hsz'. rewrite Hsz', Hsz, Nat2Z.id, length_app.
      simpl. lia.
  - (* Run is called *)
    unfold step_Run, Queue_Run_enter in Hs. rewrite Hwd in Hs.
    destruct (wake q); [done|].
    destruct (alloc CChan h) as [ch h1] eqn:Hal.
    destruct (sys_run s) eqn:Hrun; [|done..]. simplify_eq.
    destruct (Hnc eq_refl) as (Hws & Hpc & _).
    cbn [sys_run sys_pc sys_world sys_workers fst snd set_wake storage Threads].
    rewrite ?Hwd, ?Hst, ?Hws, ?Hpc, ?weight_replicate_idle. cbn [snd Threads backlog_size].
    simpl. lia.
  - (* the size query *)
    unfold step_Top in Hs. destruct (sys_pc s) eqn:Hpc; try done.
    rewrite Hwd in Hs. cbn [fst snd] in Hs. rewrite Hst in Hs.
    cbn [Storage_QueueSize] in Hs. rewrite (QueueSize_repr _ _ Hr) in Hs.
    cbn [mbind outcome_bind] in Hs.
    destruct ((Z.of_nat (length l) =? 0) && (sys_active s =? 0));
      [|destruct (0 <? Z.of_nat (length l))]; simplify_eq;
      cbn [sys_run sys_pc sys_world sys_workers with_world with_pc with_errc fst snd
           set_storage storage Threads backlog_size pc_weight];
      rewrite ?Hwd, ?Hst; cbn [snd Threads]; destruct (sys_run s); simpl; lia.
  - (* the load *)
    unfold step_Load in Hs. destruct (sys_pc s) eqn:Hpc; try done.
    rewrite Hwd in Hs.
    destruct (Queue_loadRequest collector (h, q)) as [[w' [req err]]|] eqn:Hl; [|done].
    destruct (loadRequest_InMemory _ _ _ _ _ _ _ Hst Hr Hl)
      as (x & l' & st' & -> & -> & Hr' & Hld).
    destruct Hr' as (_ & Hsz' & _). simpl in Hsz'. simpl in Hsz.
    destruct err as [e|]; simplify_eq;
      cbn [sys_run sys_pc sys_world sys_workers with_world with_pc fst snd
           set_storage storage Threads backlog_size pc_weight];
      rewrite ?Hwd, ?Hst; cbn [snd Threads backlog_size];
      rewrite Hsz', Hsz, Nat2Z.id; destruct (sys_run s); simpl; lia.
  - (* a worker receives the request *)
    unfold step_Offer in Hs. destruct (sys_pc s) as [| | |[] req|] eqn:Hpc; try done.
    destruct (sys_workers s !! i) as [[]|] eqn:Hi; try done.
    destruct (sys_closed s) eqn:Hcl; [done|]. simplify_eq.
    pose proof (weight_insert _ _ _ (WRunning req) Hi) as Hw. simpl in Hw.
    cbn [sys_run sys_pc sys_world sys_workers with_world with_pc with_active with_workers
         fst snd pc_weight].
    rewrite ?Hwd. cbn [snd]. destruct (sys_run s); simpl; lia.
  - (* a wake arrives *)
    unfold step_Wake in Hs. destruct (sys_pc s) as [| | |[] req|] eqn:Hpc; try done;
      simplify_eq.
    + rewrite ?Hwd, ?Hpc. cbn [fst snd]. destruct (sys_run s'); simpl; lia.
    + cbn [sys_run sys_pc sys_world sys_workers with_pc fst snd pc_weight].
      rewrite ?Hwd. cbn [snd]. destruct (sys_run s); simpl; lia.
  - (* a completion arrives *)
    unfold step_Complete in Hs. destruct (sys_pc s) as [| | |sent req|] eqn:Hpc; try done.
    destruct (sys_workers s !! i) as [[]|] eqn:Hi; try done.
    pose proof (weight_insert _ _ _ WIdle Hi) as Hw. simpl in Hw.
    destruct (negb sent && (int_wrap (sys_active s - 1) =? 0)) eqn:Hz; simplify_eq.
    + apply andb_true_iff in Hz as [Hsent _]. destruct sent; [done|].
      cbn [sys_run sys_pc sys_world sys_workers with_world with_pc with_active with_workers
           fst snd pc_weight].
      rewrite ?Hwd. cbn [snd]. destruct (sys_run s); simpl; lia.
    + cbn [sys_run sys_pc sys_world sys_workers with_world with_pc with_active with_workers
           fst snd].
      rewrite ?Hwd, ?Hpc. cbn [snd]. destruct (sys_run s); simpl; lia.
  - (* a worker executes its request *)
    unfold step_Do in Hs.
    destruct (sys_workers s !! i) as [[|[x|]| |]|] eqn:Hi; try done. simplify_eq.
    pose proof (weight_insert _ _ _ WCompleting Hi) as Hw. simpl in Hw.
    cbn [sys_run sys_pc sys_world sys_workers with_workers fst snd].
    rewrite ?Hwd. cbn [snd]. destruct (sys_run s); simpl; lia.
  - (* an idle worker leaves *)
    unfold step_Exit in Hs. destruct (sys_workers s !! i) as [[]|] eqn:Hi; try done.
    destruct (sys_closed s) eqn:Hcl; [|done]. simplify_eq.
    pose proof (weight_insert _ _ _ WExited Hi) as Hw. simpl in Hw.
    cbn [sys_run sys_pc sys_world sys_workers with_workers fst snd].
    rewrite ?Hwd. cbn [snd]. destruct (sys_run s); simpl; lia.
  - (* Run returns *)
    unfold step_Return in Hs. destruct (sys_run s) eqn:Hrun; try done.
    destruct (sys_errc s) as [err|] eqn:Herr; [|done]. simplify_eq.
    cbn [sys_run sys_pc sys_world sys_workers fst snd].
    rewrite ?Hwd. cbn [snd]. lia.
Qed.

(** While [Run] has not returned, a step that is not a producer's is
    enabled, and does not panic. *)
Lemma live_enabled n s :
  live_invariant n s → (∀ e, sys_run s ≠ RunReturned e) →
  ∃ ev s', is_producer ev = false ∧ step ev s = Stepped s'.
Proof.
  intros Hinv Hnr.
  pose proof Hinv as [(st & l & Hst & Hr & Hb & Hok & Hne) Ha Hth Hnc Hc [Hrq Hpq] Hsel Hwt Hbr Hret].
  destruct (sys_world s) as [h q] eqn:Hwd. cbn [fst snd] in *.
  destruct (sys_run s) as [| |e] eqn:Hrun; [| |by destruct (Hnr e)].
  - (* Run can be called *)
    destruct (Hnc eq_refl) as (Hws & Hpc & Hwk).
    exists EvRun. simpl.
    unfold step_Run, Queue_Run_enter. rewrite Hwd, Hwk, Hrun.
    destruct (alloc CChan h). eexists. done.
  - destruct (Hwt eq_refl) as (Hcl & Hex & Herr).
    destruct (Hc ltac:(done)) as [Hlen Hns].
    destruct (sys_pc s) as [| | |sent req|] eqn:Hpc.
    + done.
    + (* the size query *)
      exists EvTop. simpl. unfold step_Top. rewrite Hpc, Hwd. cbn [fst snd].
      rewrite Hst. cbn [Storage_QueueSize]. rewrite (QueueSize_repr _ _ Hr).
      cbn [mbind outcome_bind].
      destruct ((Z.of_nat (length l) =? 0) && (sys_active s =? 0));
        [|destruct (0 <? Z.of_nat (length l))]; eexists; done.
    + (* the load *)
      destruct l as [|r l']; [by destruct Hne|].
      inversion Hok as [|? ? [(x & -> & Hurl) _] _]; subst.
      destruct (loadRequest_head x l' h q st Hurl Hst Hr) as (st' & _ & Hl).
      exists EvLoad. simpl. unfold step_Load. rewrite Hpc, Hwd, Hl.
      destruct (match Marshal x with
                | (_, Some e) => (None, Some e)
                | (d, None) => UnmarshalRequest collector d
                end) as [req' [e|]]; eexists; done.
    + destruct sent.
      * (* a worker receives, or worker 0 goes on *)
        destruct (sys_workers s) as [|wk ws] eqn:Hws; [simpl in Hlen; lia|].
        destruct wk as [|r| |].
        -- exists (EvOffer 0). simpl. unfold step_Offer. rewrite Hpc, Hws, Hcl.
           eexists. done.
        -- destruct r as [x|]; [|by inversion Hrq].
           exists (EvDo 0). simpl. unfold step_Do. rewrite Hws. eexists. done.
        -- exists (EvComplete 0). simpl. unfold step_Complete. rewrite Hpc, Hws. simpl.
           eexists. done.
        -- by inversion Hex.
      * (* a busy worker goes on *)
        specialize (Hsel req eq_refl). rewrite Ha in Hsel.
        destruct (busy_worker_exists _ Hsel) as (i & wk & Hi & Hbusy).
        destruct wk as [|r| |]; try done.
        -- destruct r as [x|]; [|by pose proof (Forall_lookup_1 _ _ _ _ Hrq Hi)].
           exists (EvDo i). simpl. unfold step_Do. rewrite Hi. eexists. done.
        -- exists (EvComplete i). simpl. unfold step_Complete. rewrite Hpc, Hi. simpl.
           destruct (int_wrap (sys_active s - 1) =? 0); eexists; done.
    + (* Run returns *)
      exists EvReturn. simpl. unfold step_Return. rewrite Hrun, Herr. simpl.
      eexists. done.
Qed.

(** The requests stored by a run come after those stored before it. *)
Lemma run_stored evs t t' :
  run evs t = Stepped t' → ∃ new, stored t' = stored t ++ new.
Proof.
  revert t. induction evs as [|ev evs IH]; intros t; simpl.
  - intros [= <-]. exists []. by rewrite app_nil_r.
  - destruct (step ev (final t)) as [s'| |] eqn:Hs; [|done..].
    intros Hrun. destruct (IH _ Hrun) as (new & Hn). simpl in Hn.
    exists (stores ev (final t) ++ new). by rewrite Hn, app_assoc.
Qed.

Lemma run_live evs n t t' :
  live_invariant (length (List.filter is_store evs) + n) (final t) →
  run evs t = Stepped t' →
  (∀ new, stored t' = stored t ++ new → Forall loadable new) →
  live_invariant n (final t').
Proof.
  revert t. induction evs as [|ev evs IH]; intros t; simpl.
  - by intros Hi [= <-].
  - intros Hi. destruct (step ev (final t)) as [s'| |] eqn:Hs; [|done..].
    intros Hrun Hnew.
    destruct (run_stored _ _ _ Hrun) as (new & Hn). simpl in Hn.
    eapply IH; [|exact Hrun|].
    + simpl. eapply step_live; [|exact Hs|].
      * eapply live_weaken; [|exact Hi]. unfold cost. destruct (is_store ev); simpl; lia.
      * specialize (Hnew (stores ev (final t) ++ new)).
        rewrite app_assoc in Hnew. apply Hnew in Hn. by apply Forall_app in Hn as [? _].
    + simpl. intros new' Hn'. specialize (Hnew (stores ev (final t) ++ new')).
      rewrite app_assoc in Hnew. apply Hnew in Hn'. by apply Forall_app in Hn' as [_ ?].
Qed.

Lemma run_bounded evs n t t' :
  live_invariant (length (List.filter is_store evs) + n) (final t) →
  run evs t = Stepped t' →
  (∀ new, stored t' = stored t ++ new → Forall loadable new) →
  (length evs + weight (final t')
   ≤ weight (final t) + 8 * length (List.filter is_producer evs))%nat.
Proof.
  revert t. induction evs as [|ev evs IH]; intros t; simpl.
  - intros Hi [= <-]. lia.
  - intros Hi. destruct (step ev (final t)) as [s'| |] eqn:Hs; [|done..].
    intros Hrun Hnew.
    destruct (run_stored _ _ _ Hrun) as (new & Hn). simpl in Hn.
    assert (Hi0 : live_invariant (length (List.filter is_store evs) + n + cost ev) (final t)).
    { eapply live_weaken; [|exact Hi]. unfold cost. destruct (is_store ev); simpl; lia. }
    pose proof (step_weight _ _ _ _ Hi0 Hs) as Hw.
    assert (Hi1 : live_invariant (length (List.filter is_store evs) + n) s').
    { eapply step_live; [exact Hi0|exact Hs|].
      specialize (Hnew (stores ev (final t) ++ new)).
      rewrite app_assoc in Hnew. apply Hnew in Hn. by apply Forall_app in Hn as [? _]. }
    specialize (IH {| final := s'; executed := executed t ++ executes ev (final t);
                      stored := stored t ++ stores ev (final t) |} Hi1 Hrun). simpl in IH.
    assert (Hnew' : ∀ new', stored t' = (stored t ++ stores ev (final t)) ++ new' →
                             Forall loadable new').
    { intros new' Hn'. specialize (Hnew (stores ev (final t) ++ new')).
      rewrite app_assoc in Hnew. apply Hnew in Hn'. by apply Forall_app in Hn' as [_ ?]. }
    specialize (IH Hnew').
    destruct (is_producer ev); simpl; lia.
Qed.

(** The loop ends at its size query only. *)
Lemma step_breaks ev s s' :
  step ev s = Stepped s' → sys_pc s ≠ LBroken → sys_pc s' = LBroken →
  ev = EvTop
  ∧ ∃ h' st' n e,
      Storage_QueueSize (sys_world s).1 (storage (sys_world s).2) = Ok (h', st', (n, e))
      ∧ sys_world s' = (h', set_storage st' (sys_world s).2)
      ∧ (e = None → n = 0).
Proof.
  intros Hs Hn Hb.
  destruct ev as [r| | | |i| |i|i|i|]; simpl in Hs.
  - unfold step_Store in Hs. repeat case_match; simplify_eq; simpl in *; congruence.
  - unfold step_Run in Hs. repeat case_match; simplify_eq; simpl in *; congruence.
  - unfold step_Top in Hs. destruct (sys_pc s) eqn:Hpc; try done.
    destruct (Storage_QueueSize _ _) as [[[h' st'] [m [e|]]]|] eqn:Hq; [| |done].
    + simplify_eq. split; [done|]. exists h', st', m, (Some e). done.
    + destruct ((m =? 0) && (sys_active s =? 0)) eqn:Hc.
      * apply andb_true_iff in Hc as [Hm _]. apply Z.eqb_eq in Hm. simplify_eq.
        split; [done|]. exists h', st', 0, None. done.
      * destruct (0 <? m); simplify_eq.
  - unfold step_Load in Hs. repeat case_match; simplify_eq; simpl in *; congruence.
  - unfold step_Offer in Hs. repeat case_match; simplify_eq; simpl in *; congruence.
  - unfold step_Wake in Hs. repeat case_match; simplify_eq; simpl in *; congruence.
  - unfold step_Complete in Hs. repeat case_match; simplify_eq; simpl in *; congruence.
  - unfold step_Do in Hs. repeat case_match; simplify_eq; simpl in *; congruence.
  - unfold step_Exit in Hs. repeat case_match; simplify_eq; simpl in *; congruence.
  - unfold step_Return in Hs. repeat case_match; simplify_eq; simpl in *; congruence.
Qed.

Lemma pc_broken_dec (pc : loop_pc) : {pc = LBroken} + {pc ≠ LBroken}.
Proof. destruct pc; (by left) || (by right). Qed.

Lemma not_producer_not_store ev : is_producer ev = false → is_store ev = false.
Proof. by destruct ev. Qed.

Lemma not_store_stores ev s : is_store ev = false → stores ev s = [].
Proof. by destruct ev. Qed.

Lemma repr_nil_unique h st l : repr (h, st) [] → repr (h, st) l → l = [].
Proof.
  intros (_ & Hs1 & _) (_ & Hs2 & _). simpl in *. destruct l; [done|].
  rewrite Hs1 in Hs2. simpl in Hs2. lia.
Qed.

(** From every state of the invariant [Run] can go on to return without a
    further step of a producer, in at most [weight] steps; when the loop
    has not ended yet, it ends on an empty backlog. *)
Lemma can_finish (k : nat) :
  ∀ t, live_invariant 0 (final t) → (weight (final t) ≤ k)%nat →
    ∃ evs' t',
      Forall (λ ev, is_producer ev = false) evs'
      ∧ (length evs' ≤ weight (final t))%nat
      ∧ run evs' t = Stepped t'
      ∧ sys_run (final t') = RunReturned None
      ∧ live_invariant 0 (final t')
      ∧ stored t' = stored t
      ∧ (sys_pc (final t) = LBroken → sys_world (final t') = sys_world (final t))
      ∧ (sys_pc (final t) ≠ LBroken →
         ∃ st', storage (sys_world (final t')).2 = StInMemory st'
                ∧ repr ((sys_world (final t')).1, st') []).
Proof.
  induction k as [|k IH]; intros t Hinv Hk.
  - (* no step is left *)
    destruct (sys_run (final t)) as [| |e] eqn:Hrun.
    + unfold weight, run_weight in Hk. rewrite Hrun in Hk. lia.
    + unfold weight, run_weight in Hk. rewrite Hrun in Hk. lia.
    + destruct (live_returned _ _ Hinv e Hrun) as [-> Hpc].
      exists [], t. simpl. do 2 (split; [done || lia|]). do 4 (split; [done|]).
      split; done.
  - destruct (sys_run (final t)) as [| |e] eqn:Hrun.
    3: { destruct (live_returned _ _ Hinv e Hrun) as [-> Hpc].
         exists [], t. simpl. split; [done|]. split; [lia|]. do 4 (split; [done|]).
         split; done. }
    all: destruct (live_enabled _ _ Hinv) as (ev & s' & Hev & Hs);
      [intros e; congruence|];
      pose proof (not_producer_not_store _ Hev) as Hnst;
      assert (Hinv0 : live_invariant (0 + cost ev) (final t))
        by (unfold cost; by rewrite Hnst);
      pose proof (step_weight _ _ _ _ Hinv0 Hs) as Hw; rewrite Hev in Hw;
      assert (Hinv1 : live_invariant 0 s')
        by (eapply step_live; [exact Hinv0|exact Hs|]; by rewrite not_store_stores);
      destruct (IH {| final := s'; executed := executed t ++ executes ev (final t);
                      stored := stored t ++ stores ev (final t) |} Hinv1 ltac:(simpl; lia))
        as (evs' & t' & Hnp & Hlen & Hrun' & Hret & Hinv' & Hsto & Hbr & Hnb);
      simpl in *;
      exists (ev :: evs'), t'; simpl; rewrite Hs;
      (split; [by constructor|]); (split; [lia|]); do 3 (split; [done|]);
      (split; [by rewrite Hsto, not_store_stores, app_nil_r|]).
    + (* Run had not been called *)
      destruct (live_not_called _ _ Hinv Hrun) as (_ & Hpc & _).
      split; [intros ?; congruence|]. intros _.
      destruct (pc_broken_dec (sys_pc s')) as [Hb|Hb]; [|by apply Hnb].
      destruct (step_breaks _ _ _ Hs ltac:(congruence) Hb) as (-> & _).
      simpl in Hs. unfold step_Top in Hs. by rewrite Hpc in Hs.
    + split.
      * intros Hpc. rewrite Hbr.
        -- eapply step_loop_over; [exact Hs| |exact Hnst]. split; [done|congruence].
        -- assert (Ho : loop_over (final t)) by (split; [done|congruence]).
           by destruct (step_loop_over _ _ _ Hs Ho) as [[? _] _].
      * intros Hpc.
        destruct (pc_broken_dec (sys_pc s')) as [Hb|Hb]; [|by apply Hnb].
        destruct (step_breaks _ _ _ Hs Hpc Hb) as (-> & h' & st' & m & e & Hq & Hwd & Hz).
        destruct (live_backlog _ _ Hinv) as (st & l & Hst & Hr & _).
        rewrite Hst in Hq. cbn [Storage_QueueSize] in Hq.
        rewrite (QueueSize_repr _ _ Hr) in Hq. cbn [mbind outcome_bind] in Hq.
        simplify_eq. specialize (Hz eq_refl). destruct l; [|done].
        rewrite (Hbr Hb), Hwd. exists st. by split.
Qed.

Lemma filter_count_le {A} (f : A → bool) (l : list A) :
  (length (List.filter f l) ≤ length l)%nat.
Proof. induction l as [|x l IH]; simpl; [lia|]. destruct (f x); simpl; lia. Qed.

Lemma filter_not_producer evs :
  Forall (λ ev, is_producer ev = false) evs → List.filter is_store evs = [].
Proof.
  induction 1 as [|ev evs Hev _ IH]; [done|]. simpl.
  by rewrite (not_producer_not_store _ Hev).
Qed.

(** Once the loop has ended, the accepted stores stay in the backend. *)
Lemma run_late evs : ∀ t t' st l,
  loop_over (final t) →
  storage (sys_world (final t)).2 = StInMemory st →
  repr ((sys_world (final t)).1, st) l →
  Z.of_nat (length l) + Z.of_nat (length evs) ≤ int_max →
  run evs t = Stepped t' →
  ∃ late st',
    stored t' = stored t ++ late
    ∧ storage (sys_world (final t')).2 = StInMemory st'
    ∧ repr ((sys_world (final t')).1, st') (l ++ late).
Proof.
  induction evs as [|ev evs IH]; intros t t' st l Ho Hst Hr Hb; simpl.
  - intros [= <-]. exists [], st. by rewrite !app_nil_r.
  - destruct (step ev (final t)) as [s'| |] eqn:Hs; [|done..].
    intros Hrun. simpl in Hb.
    destruct (step_loop_over _ _ _ Hs Ho) as [Ho' Hw].
    destruct (is_store ev) eqn:Hev.
    + destruct ev as [r| | | | | | | | |]; try done. simpl in Hs. unfold step_Store in Hs.
      destruct (sys_world (final t)) as [h q] eqn:Hwd. cbn [fst snd] in *.
      destruct (storeRequest_InMemory_cases r h q st l Hst Hr ltac:(lia))
        as [He|(h' & st1 & He & Hr')].
      * rewrite He in Hs. simplify_eq.
        match type of Hrun with run _ ?t0 = _ =>
          edestruct (IH t0) as (late & st' & Hsto & Hst' & Hr'') end;
          [exact Ho'|reflexivity|exact Hr|lia|exact Hrun|].
        exists late, st'. split; [|done].
        rewrite Hsto. cbn [stored stores]. rewrite Hwd, He. by rewrite app_nil_r.
      * rewrite He in Hs. simplify_eq.
        match type of Hrun with run _ ?t0 = _ =>
          edestruct (IH t0) as (late & st' & Hsto & Hst' & Hr'') end;
          [exact Ho'|reflexivity|exact Hr'|rewrite length_app; simpl; lia|exact Hrun|].
        exists (r :: late), st'. split; [|split; [done|]].
        -- rewrite Hsto. cbn [stored stores]. rewrite Hwd, He. by rewrite <- app_assoc.
        -- by rewrite <- app_assoc in Hr''.
    + specialize (Hw eq_refl).
      match type of Hrun with run _ ?t0 = _ =>
          edestruct (IH t0) as (late & st' & Hsto & Hst' & Hr'') end;
        [exact Ho'|simpl; rewrite Hw; exact Hst|simpl; rewrite Hw; exact Hr|lia|exact Hrun|].
      exists late, st'. split; [|done].
      rewrite Hsto. simpl. by rewrite not_store_stores, app_nil_r.
Qed.

(** C1 (as amended): on the in-memory backend, (1) in every schedule in
    which [Run] returns nil, the requests that the workers executed are,
    each once, the requests that the loop loaded ([Marshal] then
    [UnmarshalRequest], both without error) from the initial backlog and
    from the stores accepted before the loop's last size query, and the
    requests accepted after that query are, in order, what the backend
    holds when [Run] has returned.  (2) With at least one thread, on a
    coordinator on which [Run] was not called before, and with stored
    requests that load without a panic ([loadable]), at every point of
    every schedule: the loop, the workers and [Run] have taken a number of
    steps that is bounded by the [weight] of the start and the number of
    the producers' steps; while [Run] has not returned one of their steps
    is enabled; and there is a continuation without a step of a producer in
    which [Run] returns nil, after which, when the loop had not ended at
    that point, every request stored so far has been executed once and the
    backend is empty. *)
Theorem executed_once_each (w : world) (st : InMemoryQueueStorage) (l0 : list reqptr) :
  storage w.2 = StInMemory st → repr (w.1, st) l0 → Threads w.2 ≤ int_max →
  (∀ evs t,
     Z.of_nat (length l0) + Z.of_nat (length evs) ≤ int_max →
     run evs (start w) = Stepped t →
     sys_run (final t) = RunReturned None →
     ∃ evs1 evs2 t1 s2 late st',
       evs = evs1 ++ EvTop :: evs2
       ∧ run evs1 (start w) = Stepped t1
       ∧ sys_pc (final t1) = LTop
       ∧ step EvTop (final t1) = Stepped s2
       ∧ sys_errc s2 = Some None
       ∧ run evs2 {| final := s2; executed := executed t1; stored := stored t1 |} = Stepped t
       ∧ Some <$> executed t ≡ₚ omap loaded (l0 ++ stored t1)
       ∧ stored t = stored t1 ++ late
       ∧ storage (sys_world (final t)).2 = StInMemory st'
       ∧ repr ((sys_world (final t)).1, st') late)
  ∧ (wake w.2 = None → 1 ≤ Threads w.2 →
     ∀ evs t,
       Z.of_nat (length l0) + Z.of_nat (length evs) ≤ int_max →
       run evs (start w) = Stepped t →
       Forall loadable (l0 ++ stored t) →
       (length evs + weight (final t)
        ≤ weight (system_of w) + 8 * length (List.filter is_producer evs))%nat
       ∧ ((∀ e, sys_run (final t) ≠ RunReturned e) →
          ∃ ev s', is_producer ev = false ∧ step ev (final t) = Stepped s')
       ∧ ∃ evs' t',
           Forall (λ ev, is_producer ev = false) evs'
           ∧ (length evs' ≤ weight (final t))%nat
           ∧ run (evs ++ evs') (start w) = Stepped t'
           ∧ sys_run (final t') = RunReturned None
           ∧ stored t' = stored t
           ∧ (sys_pc (final t) ≠ LBroken →
              Some <$> executed t' ≡ₚ omap loaded (l0 ++ stored t)
              ∧ ∃ st', storage (sys_world (final t')).2 = StInMemory st'
                       ∧ repr ((sys_world (final t')).1, st') [])).
Proof.
  intros Hst Hr Hth. split.
  - intros evs t Hb Hrun Hret.
    destruct (run_reports_exit evs (start w) t Hrun) as
      (evs1 & evs2 & t1 & s2 & -> & H1 & Hn1 & Hs2 & Hx2 & H2).
    { unfold exit_reported. simpl. by intros [|]. }
    { by right. }
    destruct (step_reports_exit _ _ _ Hs2 Hn1 Hx2) as (_ & Hpc & Ha & h' & st' & Hq & Hs2').
    rewrite length_app in Hb. simpl in Hb.
    assert (Hinv : run_invariant l0 (S (length evs2)) t1).
    { apply (run_invariant_run l0 evs1 _ (start w)); [|done].
      apply (start_invariant w st); try done; lia. }
    destruct Hinv as [(st1 & l & Hst1 & Hr1 & Hb1 & Hp) Hact _ _ _].
    rewrite Hst1 in Hq. cbn [Storage_QueueSize] in Hq.
    rewrite (QueueSize_repr _ _ Hr1) in Hq. cbn in Hq.
    assert (Hl : l = []) by (destruct l; [done|simplify_eq]).
    subst l. rewrite Ha in Hact.
    destruct (no_busy_worker (sys_workers (final t1))) as [Hidle Hrunning]; [lia|].
    rewrite Hrunning, Hpc in Hp. simpl in Hp. rewrite app_nil_r in Hp.
    assert (Hj : loop_started (final t1)).
    { eapply run_loop_started; [exact H1|]. by intros _. }
    assert (Hquiet : quiescent s2).
    { subst s2. split; [done|]. split; [|done]. simpl. intros Hrn. apply Hj in Hrn. congruence. }
    destruct (run_quiescent _ _ _ H2 Hquiet) as [_ Hex]. simpl in Hex.
    assert (Ho : loop_over s2) by (destruct Hquiet as (? & ? & _); by split).
    simplify_eq.
    match type of H2 with run _ ?t0 = _ =>
      edestruct (run_late evs2 t0 t st1 []) as (late & st2 & Hsto & Hst2 & Hr2) end;
      [exact Ho| | | |exact H2|].
    { reflexivity. }
    { exact Hr1. }
    { simpl. lia. }
    eexists evs1, evs2, t1, _, late, st2.
    do 3 (split; [done|]). split; [exact Hs2|]. do 2 (split; [done|]).
    split; [by rewrite Hex, Hp|]. done.
  - intros Hw Hth1 evs t Hb Hrun Hok.
    apply Forall_app in Hok as [Hok0 Hoks].
    pose proof (filter_count_le is_store evs) as Hcount.
    assert (Hnew : ∀ new, stored t = stored (start w) ++ new → Forall loadable new).
    { simpl. by intros new <-. }
    assert (Hstart : live_invariant (length (List.filter is_store evs) + 0)
                       (final (start w))).
    { apply (start_live w st l0); try done. lia. }
    pose proof (run_live _ _ _ _ Hstart Hrun Hnew) as Hinv.
    pose proof (run_bounded _ _ _ _ Hstart Hrun Hnew) as Hbound.
    split; [exact Hbound|]. split; [by apply (live_enabled 0)|].
    destruct (can_finish (weight (final t)) t Hinv ltac:(lia))
      as (evs' & t' & Hnp & Hlen & Hrun' & Hret & Hinv' & Hsto & _ & Hnb).
    exists evs', t'. do 2 (split; [done|]).
    assert (Hall : run (evs ++ evs') (start w) = Stepped t') by (by rewrite run_app, Hrun).
    do 3 (split; [done|]).
    intros Hpc. destruct (Hnb Hpc) as (st' & Hst' & Hr').
    split; [|by exists st'].
    assert (Hrinv : run_invariant l0 0 t').
    { apply (run_invariant_stores l0 (evs ++ evs') 0 (start w)); [|done].
      rewrite List.filter_app, (filter_not_producer _ Hnp), app_nil_r.
      apply (start_invariant w st); try done; lia. }
    destruct Hrinv as [(st1 & l & Hst1 & Hr1 & _ & Hp) _ _ _ _].
    rewrite Hst' in Hst1. simplify_eq.
    rewrite (repr_nil_unique _ _ _ Hr' Hr1) in Hp.
    destruct (live_returned _ _ Hinv' None Hret) as [_ Hpc'].
    rewrite (not_busy_running _ (live_broken _ _ Hinv' Hpc')), Hpc' in Hp.
    simpl in Hp. rewrite app_nil_r, Hsto in Hp. by symmetry.
Qed.

(* ================================================================= *)
(** * Further properties of the package *)

(** ** The in-memory store as a queue *)

Lemma store_op_refines o s l :
  repr s l → Z.of_nat (length l) < int_max →
  ∃ s', store_op o s = Ok (s', (fifo_list_op (MaxSize s.2) o l).2)
        ∧ repr s' (fifo_list_op (MaxSize s.2) o l).1
        ∧ MaxSize s'.2 = MaxSize s.2.
Proof.
  intros Hr Hlt. destruct s as [h q]. destruct o as [r| |]; cbn [store_op fifo_list_op fst snd].
  - assert (Hsz : size q = Z.of_nat (length l)) by apply Hr. rewrite <- Hsz.
    destruct ((0 <? MaxSize q) && (MaxSize q <=? size q)) eqn:Hfull.
    + apply andb_true_iff in Hfull as [H1 H2]. apply Z.ltb_lt in H1. apply Z.leb_le in H2.
      rewrite AddRequestPointer_full by (apply Hr || done). simpl.
      exists (h, q). done.
    + destruct (AddRequestPointer_repr r h q l Hr Hlt) as (h' & q' & -> & Hr' & Hm & _).
      { intros [H1 H2]. apply Z.ltb_lt in H1. apply Z.leb_le in H2.
        by rewrite H1, H2 in Hfull. }
      simpl. exists (h', q'). done.
  - destruct l as [|r l].
    + rewrite GetRequestPointer_empty by apply Hr. simpl. exists (h, q). done.
    + destruct (GetRequestPointer_repr r l h q Hr) as (q' & -> & Hr' & Hm & _).
      simpl. exists (h, q'). done.
  - rewrite (QueueSize_repr _ _ Hr). simpl. exists (h, q). done.
Qed.

Lemma fifo_list_op_length m o l :
  (length (fifo_list_op m o l).1 ≤ S (length l))%nat.
Proof.
  destruct o as [r| |]; simpl.
  - destruct (_ && _); simpl; [lia|]. rewrite length_app. simpl. lia.
  - destruct l; simpl; lia.
  - lia.
Qed.

(** Whatever the interleaving of appends, pops and size queries, an
    initialised store returns what the bounded FIFO list returns, and ends
    holding the list's content. *)
Theorem store_refines_fifo_list (os : list qop) (s : mem) (l : list reqptr) :
  repr s l → Z.of_nat (length l) + Z.of_nat (length os) ≤ int_max →
  ∃ s', store_ops os s = Ok (s', (fifo_list_ops (MaxSize s.2) os l).2)
        ∧ repr s' (fifo_list_ops (MaxSize s.2) os l).1.
Proof.
  revert s l. induction os as [|o os IH]; intros s l Hr Hb.
  - simpl. by exists s.
  - simpl length in Hb. cbn [store_ops fifo_list_ops].
    destruct (store_op_refines o s l Hr ltac:(lia)) as (s1 & Ho & Hr1 & Hm).
    pose proof (fifo_list_op_length (MaxSize s.2) o l) as Hlen.
    destruct (fifo_list_op (MaxSize s.2) o l) as [l1 x]. cbn [fst snd] in *.
    destruct (IH s1 l1 Hr1 ltac:(lia)) as (s2 & Hos & Hr2).
    rewrite Hm in Hos, Hr2.
    destruct (fifo_list_ops (MaxSize s.2) os l1) as [l2 xs]. cbn [fst snd] in *.
    exists s2. rewrite Ho. cbn [mbind outcome_bind]. rewrite Hos. done.
Qed.

Lemma exec_op_bounded o s l :
  repr s l → 0 < MaxSize s.2 → MaxSize s.2 ≤ int_max →
  Z.of_nat (length l) ≤ MaxSize s.2 →
  match exec_op o s with
  | Ok s' => ∃ l', repr s' l' ∧ Z.of_nat (length l') ≤ MaxSize s'.2
                   ∧ MaxSize s'.2 = MaxSize s.2
  | Panic _ => o = OpGetRequest
  end.
Proof.
  intros Hr Hpos Hmax Hle. destruct s as [h q]. cbn [fst snd] in *.
  assert (Hadd : ∀ r, ∃ s' e l',
            InMemoryQueueStorage_AddRequestPointer r (h, q) = Ok (s', e)
            ∧ repr s' l' ∧ Z.of_nat (length l') ≤ MaxSize s'.2
            ∧ MaxSize s'.2 = MaxSize q).
  { intros r. destruct (full_dec q) as [Hf|Hf].
    - exists (h, q), (Some ErrQueueFull), l. split; [|done].
      apply AddRequestPointer_full; [apply Hr | done].
    - assert (Hsz : size q = Z.of_nat (length l)) by apply Hr.
      assert (Hlt : Z.of_nat (length l) < MaxSize q) by (unfold full in Hf; lia).
      destruct (AddRequestPointer_repr r h q l Hr ltac:(lia) Hf)
        as (h' & q' & He & Hr' & Hm & _).
      exists (h', q'), None, (l ++ [r]). split; [done|]. split; [done|].
      cbn [fst snd]. rewrite Hm, length_app. simpl. split; [lia|done]. }
  destruct o as [|d|r| | |]; cbn [exec_op].
  - destruct Hr as (_ & Hs & Hb & Hc).
    destruct (Init_repr h q l Hs Hb Hc) as (h' & m & -> & Hr'). simpl.
    exists l. done.
  - unfold InMemoryQueueStorage_AddRequest.
    destruct (json_Unmarshal d) as [sreq|err]; [|simpl; by exists l].
    destruct (url_Parse (sURL sreq)) as [u|err]; [|simpl; by exists l].
    match goal with |- context [InMemoryQueueStorage_AddRequestPointer ?r _] =>
      destruct (Hadd r) as (s' & e & l' & -> & Hr' & Hl' & Hm') end.
    simpl. eauto.
  - destruct (Hadd r) as (s' & e & l' & -> & Hr' & Hl' & Hm'). simpl. eauto.
  - destruct l as [|r l].
    + rewrite GetRequest_unfold, GetRequestPointer_empty by apply Hr. done.
    + destruct (GetRequest_head r l h q Hr) as (q' & -> & Hr' & Hm & _).
      destruct (colly_Request_Marshal r); simpl; [|done].
      exists l. split; [done|]. rewrite Hm. simpl in Hle. split; [lia|done].
  - destruct l as [|r l].
    + rewrite GetRequestPointer_empty by apply Hr. simpl. by exists [].
    + destruct (GetRequestPointer_repr _ _ _ _ Hr) as (q' & -> & Hr' & Hm & _). simpl.
      exists l. split; [done|]. rewrite Hm. simpl in Hle. split; [lia|done].
  - rewrite (QueueSize_repr _ _ Hr). simpl. by exists l.
Qed.

(** A store of capacity [0 < m] never holds more than [m] requests, however
    many operations run on it: its counter stays within [0 .. m] and never
    wraps. *)
Theorem bounded_store_within_capacity (m : Z) (h : heap) (os : list op) :
  0 < m → m ≤ int_max →
  match exec_ops (OpInit :: os) (h, new_InMemoryQueueStorage m) with
  | Ok s' => 0 ≤ size s'.2 ≤ m ∧ MaxSize s'.2 = m
             ∧ ∃ l, repr s' l
  | Panic _ => OpGetRequest ∈ os
  end.
Proof.
  intros Hpos Hmax. cbn [exec_ops exec_op].
  destruct (Init_repr h (new_InMemoryQueueStorage m) [])
    as (h' & mu & -> & Hr); [done | unfold int_max; simpl; lia | by constructor |].
  cbn [fmap outcome_fmap mbind outcome_bind fst].
  assert (Hgen : ∀ os s l,
    repr s l → MaxSize s.2 = m → Z.of_nat (length l) ≤ m →
    match exec_ops os s with
    | Ok s' => 0 ≤ size s'.2 ≤ m ∧ MaxSize s'.2 = m ∧ ∃ l, repr s' l
    | Panic _ => OpGetRequest ∈ os
    end).
  { clear - Hpos Hmax. intros os. induction os as [|o os IH]; intros s l Hr Hm Hle.
    - simpl. assert (Hsz : size s.2 = Z.of_nat (length l)) by apply Hr.
      split; [lia|]. split; [done|]. by exists l.
    - cbn [exec_ops].
      pose proof (exec_op_bounded o s l Hr) as Ho. rewrite Hm in Ho.
      specialize (Ho Hpos Hmax Hle).
      destruct (exec_op o s) as [s'|p]; cbn [mbind outcome_bind].
      + destruct Ho as (l' & Hr' & Hl' & Hm'). rewrite Hm' in Hl'.
        specialize (IH s' l' Hr' Hm' Hl').
        destruct (exec_ops os s'); [done|]. apply elem_of_cons. by right.
      + subst o. apply elem_of_cons. by left. }
  apply (Hgen os _ []); [done|done|simpl; lia].
Qed.

(** ** The serialised append and the bytes-returning pop *)

Lemma context_copy (m : Context) :
  map_fold (λ k v (ctx : Context), <[k := v]> ctx) ∅ m = m.
Proof.
  apply (map_fold_weak_ind (λ (r : Context) (m : Context), r = m)); [done|].
  intros i x m' r _ ->. done.
Qed.

(** The serialised append returns the error of [json.Unmarshal] or of
    [url.Parse] without touching the store; otherwise it appends the request
    with the serialised method, depth, body and headers, the parsed URL and
    a context that holds exactly the serialised key/value pairs, or rejects
    it as [AddRequestPointer] does when the store is full. *)
Theorem AddRequest_bytes_appends (d : list byte) (s : mem) (l : list reqptr) :
  repr s l → Z.of_nat (length l) < int_max →
  match json_Unmarshal d with
  | inr err => InMemoryQueueStorage_AddRequest d s = Ok (s, Some err)
  | inl sreq =>
      match url_Parse (sURL sreq) with
      | inr err => InMemoryQueueStorage_AddRequest d s = Ok (s, Some err)
      | inl u =>
          (full s.2 → InMemoryQueueStorage_AddRequest d s = Ok (s, Some ErrQueueFull))
          ∧ (¬ full s.2 →
             ∃ s', InMemoryQueueStorage_AddRequest d s = Ok (s', None)
                   ∧ repr s' (l ++ [Some (request_of sreq u)]))
      end
  end.
Proof.
  intros Hr Hlt. unfold InMemoryQueueStorage_AddRequest.
  destruct (json_Unmarshal d) as [sreq|err]; [|done].
  destruct (url_Parse (sURL sreq)) as [u|err]; [|done].
  rewrite context_copy. destruct s as [h q]. split.
  - intros Hf. apply AddRequestPointer_full; [apply Hr|done].
  - intros Hf.
    destruct (AddRequestPointer_repr (Some (request_of sreq u)) h q l Hr Hlt Hf)
      as (h' & q' & He & Hr' & _).
    exists (h', q'). done.
Qed.

(** An append of any pointer on an empty store is accepted, and the
    bytes-returning pop that follows does what [Marshal] does on that
    pointer: it panics when the pointer is nil or the request has no URL;
    otherwise it gives back what [Marshal] makes of the request, error
    included, and leaves the store empty: the request is consumed even when
    [Marshal] fails. *)
Theorem AddRequestPointer_GetRequest_roundtrip (r : reqptr) (s : mem) :
  repr s [] → ¬ full s.2 →
  ∃ s1,
    InMemoryQueueStorage_AddRequestPointer r s = Ok (s1, None)
    ∧ repr s1 [r]
    ∧ match r with
      | None => InMemoryQueueStorage_GetRequest s1 = Panic NilDereference
      | Some x =>
          match Request_URL x with
          | None => InMemoryQueueStorage_GetRequest s1 = Panic NilDereference
          | Some _ =>
              ∃ s2,
                InMemoryQueueStorage_GetRequest s1 = Ok (s2, Marshal x)
                ∧ repr s2 []
                ∧ InMemoryQueueStorage_QueueSize s2 = Ok (s2, (0, None))
          end
      end.
Proof.
  destruct s as [h q]. intros Hr Hf.
  destruct (AddRequestPointer_repr r h q [] Hr) as (h1 & q1 & Ha & Hr1 & _);
    [unfold int_max; simpl; lia | done |].
  destruct (GetRequest_head r [] h1 q1 Hr1) as (q2 & Hg & Hr2 & _).
  exists (h1, q1). do 2 (split; [done|]).
  rewrite Hg. destruct r as [x|]; simpl; [|done].
  destruct (Request_URL x); simpl; [|done].
  exists (h1, q2). do 2 (split; [done|]).
  by rewrite (QueueSize_repr _ _ Hr2).
Qed.

(** ** The coordinator's queries and [AddURL] *)

Lemma set_storage_id (q : Queue) s : storage q = s → set_storage s q = q.
Proof. destruct q. simpl. by intros ->. Qed.

(** On the in-memory backend [Size] returns the length of the backlog with
    a nil error, [IsEmpty] is true exactly when the backlog is empty, and
    neither changes the world. *)
Theorem Size_IsEmpty_InMemory (h : heap) (q : Queue) (st : InMemoryQueueStorage)
    (l : list reqptr) :
  storage q = StInMemory st → repr (h, st) l →
  Queue_Size (h, q) = Ok ((h, q), (Z.of_nat (length l), None))
  ∧ ∃ b, Queue_IsEmpty (h, q) = Ok ((h, q), b) ∧ (b = true ↔ l = []).
Proof.
  intros Hst Hr.
  assert (Hsize : Queue_Size (h, q) = Ok ((h, q), (Z.of_nat (length l), None))).
  { unfold Queue_Size. rewrite Hst. cbn [Storage_QueueSize].
    rewrite (QueueSize_repr _ _ Hr). cbn [mbind outcome_bind].
    by rewrite set_storage_id. }
  split; [done|]. unfold Queue_IsEmpty. rewrite Hsize. cbn [mbind outcome_bind].
  eexists. split; [reflexivity|]. rewrite Z.eqb_eq. destruct l; simpl; split; (done || lia).
Qed.

(** [AddURL] returns the error of [url.Parse] without touching the world;
    otherwise, on the in-memory backend, it appends a [GET] request for the
    parsed URL, with no body, context or headers and depth 0, which the next
    pops return after the backlog; or rejects it when the store is full. *)
Theorem AddURL_appends_GET (u : string) (h : heap) (q : Queue)
    (st : InMemoryQueueStorage) (l : list reqptr) :
  storage q = StInMemory st → repr (h, st) l → Z.of_nat (length l) < int_max →
  match url_Parse u with
  | inr err => Queue_AddURL u (h, q) = Ok ((h, q), Some err)
  | inl pu =>
      let r := Some {| Method := "GET"; Request_URL := Some pu; Depth := 0;
                       Body := None; Ctx := None; Headers := None |} in
      (full st → Queue_AddURL u (h, q) = Ok ((h, q), Some ErrQueueFull))
      ∧ (¬ full st →
         ∃ h' st' s2,
           Queue_AddURL u (h, q) = Ok ((h', set_storage (StInMemory st') q), None)
           ∧ repr (h', st') (l ++ [r])
           ∧ pop_n (length (l ++ [r])) (h', st')
             = Ok (s2, (λ x, (x, None)) <$> (l ++ [r])))
  end.
Proof.
  intros Hst Hr Hlt. unfold Queue_AddURL. destruct (url_Parse u) as [pu|err]; [|done].
  cbn zeta. split.
  - intros Hf. unfold Queue_storeRequest. rewrite Hst.
    rewrite AddRequestPointer_full by (apply Hr || done).
    cbn [mbind outcome_bind]. by rewrite set_storage_id.
  - intros Hf.
    match goal with |- context [Queue_storeRequest ?r _] =>
      destruct (storeRequest_InMemory r h q st l Hst Hr Hlt Hf) as (h' & st' & -> & Hr')
    end.
    destruct (pop_n_repr (l ++ [Some {| Method := "GET"; Request_URL := Some pu;
                Depth := 0; Body := None; Ctx := None; Headers := None |}]) [] (h', st'))
      as (s2 & Hp & _); [by rewrite app_nil_r|].
    exists h', st', s2. done.
Qed.

(** ** Requests that do not serialise, and nil requests *)

(** With a backend other than the in-memory store, [storeRequest] calls the
    backend once, with the bytes of [Marshal], and returns its error; when
    [Marshal] fails the backend is not called and the error of [Marshal] is
    returned; a nil request, and a request without a URL, panic before the
    backend is reached. *)
Theorem storeRequest_other_backend (impl : StorageImpl) (st : impl_state impl)
    (log : list method) (h : heap) (q : Queue) :
  storage q = StOther (logged impl) (st, log) →
  Queue_storeRequest None (h, q) = Panic NilDereference
  ∧ ∀ x,
      match Request_URL x with
      | None => Queue_storeRequest (Some x) (h, q) = Panic NilDereference
      | Some _ =>
          match Marshal x with
          | (_, Some e) => Queue_storeRequest (Some x) (h, q) = Ok ((h, q), Some e)
          | (d, None) =>
              match impl_AddRequest impl d st with
              | Ok (st', e) =>
                  Queue_storeRequest (Some x) (h, q)
                  = Ok ((h, set_storage (StOther (logged impl) (st', log ++ [MAddRequest])) q), e)
              | Panic p => Queue_storeRequest (Some x) (h, q) = Panic p
              end
          end
      end.
Proof.
  intros Hst. unfold Queue_storeRequest. rewrite Hst. split; [done|].
  intros x. simpl. destruct (Request_URL x); simpl; [|done].
  destruct (Marshal x) as [d [e|]]; simpl; [done|].
  by destruct (impl_AddRequest impl d st) as [[st' e]|].
Qed.

(** The in-memory backend accepts a nil request; the loop panics when it
    comes to load it. *)
Theorem nil_request_crashes_loop :
  (∀ h q st l,
     storage q = StInMemory st → repr (h, st) l →
     Z.of_nat (length l) < int_max → ¬ full st →
     ∃ h' st',
       Queue_storeRequest None (h, q) = Ok ((h', set_storage (StInMemory st') q), None)
       ∧ repr (h', st') (l ++ [None]))
  ∧ (∀ s st l,
       storage (sys_world s).2 = StInMemory st →
       repr ((sys_world s).1, st) (None :: l) → sys_pc s = LLoad →
       step EvLoad s = Crashed NilDereference).
Proof.
  split.
  - intros h q st l Hst Hr Hlt Hf. by apply (storeRequest_InMemory None h q st l).
  - intros s st l Hst Hr Hpc. destruct (sys_world s) as [h q] eqn:Hw. cbn [fst snd] in *.
    simpl. unfold step_Load. rewrite Hpc, Hw.
    unfold Queue_loadRequest. rewrite Hst. cbn [Storage_GetRequest].
    rewrite GetRequest_unfold.
    by destruct (GetRequestPointer_repr _ _ _ _ Hr) as (st' & -> & _).
Qed.

(** [loadRequest] on the in-memory backend panics when the head of the
    backlog is nil or is a request without a URL; on any other head it
    returns, and consumes the head whether the load succeeds or not: it
    returns the error of [Marshal], or what [UnmarshalRequest] makes of the
    bytes of [Marshal]. *)
Theorem loadRequest_consumes_head (cl : Collector) (r : reqptr) (l : list reqptr)
    (h : heap) (q : Queue) (st : InMemoryQueueStorage) :
  storage q = StInMemory st → repr (h, st) (r :: l) →
  match r with
  | None => Queue_loadRequest cl (h, q) = Panic NilDereference
  | Some x =>
      match Request_URL x with
      | None => Queue_loadRequest cl (h, q) = Panic NilDereference
      | Some _ =>
          ∃ st',
            repr (h, st') l
            ∧ Queue_loadRequest cl (h, q)
              = Ok ((h, set_storage (StInMemory st') q),
                    match Marshal x with
                    | (_, Some e) => (None, Some e)
                    | (d, None) => UnmarshalRequest cl d
                    end)
      end
  end.
Proof.
  intros Hst Hr. unfold Queue_loadRequest. rewrite Hst. cbn [Storage_GetRequest].
  destruct (GetRequest_head r l h st Hr) as (st' & -> & Hr' & _).
  destruct r as [x|]; simpl; [|done].
  destruct (Request_URL x); simpl; [|done].
  exists st'. split; [done|].
  by destruct (Marshal x) as [d [e|]].
Qed.

(** ** [Init] on a store in use *)

(** [Init] is not a reset: [New] on an in-memory store that holds a backlog,
    initialised or not, returns a coordinator whose store holds the same
    backlog. *)
Theorem New_keeps_backlog (threads : Z) (h : heap) (st : InMemoryQueueStorage)
    (l : list reqptr) :
  size st = Z.of_nat (length l) → Z.of_nat (length l) ≤ int_max → chain h st l →
  ∃ h' st',
    New threads (Some (StInMemory st)) h
    = Ok (h', (Some {| Threads := threads; storage := StInMemory st'; wake := None |}, None))
    ∧ repr (h', st') l
    ∧ MaxSize st' = MaxSize st.
Proof.
  intros Hs Hb Hc. destruct (Init_repr h st l Hs Hb Hc) as (h' & m & Hi & Hr).
  exists h', (set_lock (Some m) st). unfold New. cbn [Storage_Init]. rewrite Hi. done.
Qed.

(** ** The in-flight counter and the workers *)

Lemma loadRequest_fields cl w w' x :
  Queue_loadRequest cl w = Ok (w', x) →
  wake w'.2 = wake w.2 ∧ Threads w'.2 = Threads w.2.
Proof.
  destruct w as [h q]. unfold Queue_loadRequest.
  destruct (Storage_GetRequest h (storage q)) as [[[h' st'] [buf [e|]]]|]; simpl; [| |done].
  - by intros [= <- _].
  - by intros [= <- _].
Qed.

Lemma step_Threads ev s s' :
  step ev s = Stepped s' → Threads (sys_world s').2 = Threads (sys_world s).2.
Proof.
  destruct ev as [r| | | |i| |i|i|i|]; simpl.
  - unfold step_Store.
    destruct (Queue_storeRequest r (sys_world s)) as [[w' e]|] eqn:Hs; [|done].
    apply storeRequest_fields in Hs as [_ Hs]. by intros [= <-].
  - unfold step_Run, Queue_Run_enter. destruct (sys_world s) as [h q]. simpl.
    destruct (wake q); [done|]. simpl. destruct (sys_run s); [|done..]. by intros [= <-].
  - unfold step_Top. destruct (sys_pc s); try done.
    destruct (Storage_QueueSize _ _) as [[[h' st'] [n [e|]]]|]; [| |done].
    + by intros [= <-].
    + destruct ((n =? 0) && (sys_active s =? 0)); [by intros [= <-]|].
      destruct (0 <? n); by intros [= <-].
  - unfold step_Load. destruct (sys_pc s); try done.
    destruct (Queue_loadRequest collector (sys_world s)) as [[w' [req err]]|] eqn:Hl; [|done].
    apply loadRequest_fields in Hl as [_ Hl]. destruct err; by intros [= <-].
  - unfold step_Offer. destruct (sys_pc s) as [| | |[] req|]; try done.
    destruct (sys_workers s !! i) as [[]|]; try done.
    destruct (sys_closed s); [done|]. by intros [= <-].
  - unfold step_Wake. destruct (sys_pc s) as [| | |[] req|]; try done; by intros [= <-].
  - unfold step_Complete. destruct (sys_pc s) as [| | |sent req|]; try done.
    destruct (sys_workers s !! i) as [[]|]; try done.
    destruct (negb sent && _); by intros [= <-].
  - unfold step_Do. destruct (sys_workers s !! i) as [[|[x|]| |]|]; try done.
    by intros [= <-].
  - unfold step_Exit. destruct (sys_workers s !! i) as [[]|]; try done.
    destruct (sys_closed s); [|done]. by intros [= <-].
  - unfold step_Return. destruct (sys_run s); try done.
    destruct (sys_errc s); [|done]. by intros [= <-].
Qed.

Lemma step_workers_invariant ev s s' :
  Threads (sys_world s).2 ≤ int_max →
  workers_invariant s → step ev s = Stepped s' → workers_invariant s'.
Proof.
  intros Hth [Ha Hl] Hs. pose proof (step_Threads _ _ _ Hs) as HT.
  unfold workers_invariant. rewrite HT.
  assert (Hmax : Z.of_nat (length (sys_workers s)) ≤ int_max)
    by (unfold int_max in *; lia).
  destruct ev as [r| | | |i| |i|i|i|].
  - step_cases Hs. by split.
  - simpl in Hs. unfold step_Run in Hs.
    destruct (Queue_Run_enter (sys_world s)) as [w|] eqn:Hw; [|done].
    destruct (sys_run s); [|done..]. simplify_eq. simpl in *.
    destruct (replicate_idle (Z.to_nat (Threads w.2))) as [_ ->].
    rewrite length_replicate. split; [done|lia].
  - step_cases Hs; by split.
  - step_cases Hs; by split.
  - simpl in Hs. unfold step_Offer in Hs.
    destruct (sys_pc s) as [| | |[] req|]; try done.
    destruct (sys_workers s !! i) as [[]|] eqn:Hi; try done.
    destruct (sys_closed s); [done|]. simplify_eq. simpl.
    destruct (workers_split _ _ _ (WRunning req) Hi) as (l1 & l2 & Hws & ->).
    rewrite Hws in Ha, Hl, Hmax. rewrite List.filter_app in *. simpl in *.
    rewrite !length_app in *. simpl in *.
    pose proof (busy_count_le l1). pose proof (busy_count_le l2).
    split; [|lia]. rewrite Ha. rewrite int_wrap_id; unfold int_min, int_max in *; lia.
  - step_cases Hs; by split.
  - simpl in Hs. unfold step_Complete in Hs.
    destruct (sys_pc s) as [| | |sent req|]; try done.
    destruct (sys_workers s !! i) as [[]|] eqn:Hi; try done.
    destruct (workers_split _ _ _ WIdle Hi) as (l1 & l2 & Hws & Hins).
    rewrite Hins in Hs. rewrite Hws in Ha, Hl, Hmax. rewrite List.filter_app in *.
    simpl in Ha. rewrite !length_app in *. simpl in *.
    pose proof (busy_count_le l1). pose proof (busy_count_le l2).
    assert (Hact : int_wrap (sys_active s - 1)
                   = Z.of_nat (length (List.filter busy (l1 ++ WIdle :: l2)))).
    { rewrite List.filter_app, length_app. simpl. rewrite Ha.
      rewrite int_wrap_id; unfold int_min, int_max in *; lia. }
    assert (Hlen : (length (l1 ++ WIdle :: l2) ≤ Z.to_nat (Threads (sys_world s).2))%nat).
    { rewrite length_app. simpl. lia. }
    destruct (negb sent && _); simplify_eq; by split.
  - simpl in Hs. unfold step_Do in Hs.
    destruct (sys_workers s !! i) as [[|[x|]| |]|] eqn:Hi; try done. simplify_eq. simpl.
    destruct (workers_split _ _ _ WCompleting Hi) as (l1 & l2 & Hws & ->).
    rewrite Hws in Ha, Hl. rewrite List.filter_app in *. simpl in *.
    rewrite !length_app in *. simpl in *. split; [done|lia].
  - simpl in Hs. unfold step_Exit in Hs.
    destruct (sys_workers s !! i) as [[]|] eqn:Hi; try done.
    destruct (sys_closed s); [|done]. simplify_eq. simpl.
    destruct (workers_split _ _ _ WExited Hi) as (l1 & l2 & Hws & ->).
    rewrite Hws in Ha, Hl. rewrite List.filter_app in *. simpl in *.
    rewrite !length_app in *. simpl in *. split; [done|lia].
  - step_cases Hs. by split.
Qed.

Lemma run_workers_invariant evs t t' :
  Threads (sys_world (final t)).2 ≤ int_max →
  workers_invariant (final t) → run evs t = Stepped t' →
  workers_invariant (final t')
  ∧ Threads (sys_world (final t')).2 = Threads (sys_world (final t)).2.
Proof.
  revert t. induction evs as [|ev evs IH]; intros t Hth Hi; simpl.
  - by intros [= <-].
  - destruct (step ev (final t)) as [s'| |] eqn:Hs; [|done..]. intros Hrun.
    pose proof (step_Threads _ _ _ Hs) as HT.
    apply IH in Hrun as [Hi' HT']; simpl; [|by rewrite HT|by eapply step_workers_invariant].
    split; [done|]. simpl in HT'. by rewrite HT', HT.
Qed.

(** In every schedule [active] is the number of workers that hold a
    request: it is never negative and never above the thread count, whatever
    the backend. *)
Theorem active_counts_busy_workers (w : world) (evs : list event) (t : trace) :
  Threads w.2 ≤ int_max → run evs (start w) = Stepped t →
  sys_active (final t) = Z.of_nat (length (List.filter busy (sys_workers (final t))))
  ∧ 0 ≤ sys_active (final t) ≤ Z.max 0 (Threads w.2)
  ∧ (length (sys_workers (final t)) ≤ Z.to_nat (Threads w.2))%nat.
Proof.
  intros Hth Hrun.
  destruct (run_workers_invariant evs (start w) t) as [[Ha Hl] HT]; try done.
  { split; simpl; [done|lia]. }
  simpl in HT. rewrite HT in Hl. split; [done|]. split; [|done].
  pose proof (busy_count_le (sys_workers (final t))). lia.
Qed.

(** With a thread count of 0 or less [Run] starts no worker: nothing is
    ever executed, and once the loop holds a loaded request it stays in its
    select for ever. *)
Theorem no_threads_no_progress (w : world) (evs : list event) (t : trace) :
  Threads w.2 ≤ 0 → run evs (start w) = Stepped t →
  executed t = []
  ∧ ∀ req evs' t',
      sys_pc (final t) = LSelect true req → run evs' t = Stepped t' →
      sys_pc (final t') = LSelect true req ∧ executed t' = [].
Proof.
  intros Hth Hrun.
  assert (Hgen : ∀ evs t t',
    workers_invariant (final t) → loop_started (final t) →
    Threads (sys_world (final t)).2 ≤ 0 →
    run evs t = Stepped t' →
    executed t' = executed t
    ∧ workers_invariant (final t') ∧ loop_started (final t')
    ∧ Threads (sys_world (final t')).2 ≤ 0
    ∧ ∀ req, sys_pc (final t) = LSelect true req → sys_pc (final t') = LSelect true req).
  { clear. intros evs. induction evs as [|ev evs IH]; intros t t' Hi Hj HT; simpl.
    - by intros [= <-].
    - destruct (step ev (final t)) as [s'| |] eqn:Hs; [|done..]. intros Hrun.
      pose proof (step_Threads _ _ _ Hs) as HT'.
      pose proof (step_loop_started _ _ _ Hs Hj) as Hj'.
      assert (Hi' : workers_invariant s').
      { eapply step_workers_invariant; [|done|done]. unfold int_max. lia. }
      assert (Hws : sys_workers (final t) = []).
      { destruct Hi as [_ Hl]. destruct (sys_workers (final t)); [done|]. simpl in Hl. lia. }
      apply IH in Hrun as (Hex & Hi'' & Hj'' & HT'' & Hpc); simpl; [|done|done|lia].
      simpl in Hex, Hpc. split; [|split; [done|split; [done|split; [done|]]]].
      + rewrite Hex. destruct ev; simpl; rewrite ?app_nil_r; try done.
        rewrite Hws. simpl. by rewrite app_nil_r.
      + intros req Hsel. apply Hpc. clear Hpc Hi' Hj' HT'.
        destruct ev; step_cases Hs; simpl; try done; try (by rewrite Hws in * ).
        match goal with H : sys_run _ = RunNotCalled |- _ => apply Hj in H end.
        congruence. }
  assert (Hi0 : workers_invariant (final (start w))) by (split; simpl; [done|lia]).
  assert (Hj0 : loop_started (final (start w))) by (by intros _).
  destruct (Hgen evs (start w) t Hi0 Hj0 Hth Hrun) as (Hex & Hi & Hj & HT & _).
  split; [done|]. intros req evs' t' Hpc Hrun'.
  destruct (Hgen evs' t t' Hi Hj HT Hrun') as (Hex' & _ & _ & _ & Hpc').
  split; [by apply Hpc'|]. by rewrite Hex', Hex.
Qed.

(** ** The error that [Run] returns *)

Lemma step_reports_failure e ev s s' :
  step ev s = Stepped s' → failure_reported e s' →
  failure_reported e s
  ∨ (ev = EvTop ∧ sys_pc s = LTop
     ∧ ∃ h' st' n,
         Storage_QueueSize (sys_world s).1 (storage (sys_world s).2)
         = Ok (h', st', (n, Some e))).
Proof.
  unfold failure_reported. intros Hs Hf.
  destruct ev as [r| | | |i| |i|i|i|]; simpl in Hs.
  - unfold step_Store in Hs. repeat case_match; simplify_eq. by left.
  - unfold step_Run in Hs. repeat case_match; simplify_eq. simpl in Hf. by destruct Hf.
  - unfold step_Top in Hs. destruct (sys_pc s) eqn:Hpc; try done.
    destruct (Storage_QueueSize _ _) as [[[h' st'] [n [e0|]]]|] eqn:Hq; [| |done].
    + simplify_eq. simpl in Hf. destruct Hf as [Hf|Hf]; [|by left; right].
      simplify_eq. right. do 2 (split; [done|]). by exists h', st', n.
    + destruct ((n =? 0) && (sys_active s =? 0)).
      * simplify_eq. simpl in Hf. destruct Hf as [Hf|Hf]; [done|by left; right].
      * destruct (0 <? n); simplify_eq; by left.
  - unfold step_Load in Hs. repeat case_match; simplify_eq; by left.
  - unfold step_Offer in Hs. repeat case_match; simplify_eq; by left.
  - unfold step_Wake in Hs. repeat case_match; simplify_eq; by left.
  - unfold step_Complete in Hs. repeat case_match; simplify_eq; by left.
  - unfold step_Do in Hs. repeat case_match; simplify_eq; by left.
  - unfold step_Exit in Hs. repeat case_match; simplify_eq; by left.
  - unfold step_Return in Hs. repeat case_match; simplify_eq.
    simpl in Hf. destruct Hf as [Hf|Hf]; [done|]. simplify_eq. left. by left.
Qed.

Lemma run_reports_failure e evs w t :
  run evs (start w) = Stepped t → failure_reported e (final t) →
  ∃ evs1 evs2 t1 h' st' n,
    evs = evs1 ++ EvTop :: evs2
    ∧ run evs1 (start w) = Stepped t1
    ∧ sys_pc (final t1) = LTop
    ∧ Storage_QueueSize (sys_world (final t1)).1 (storage (sys_world (final t1)).2)
      = Ok (h', st', (n, Some e)).
Proof.
  revert t. induction evs as [|ev evs IH] using rev_ind; intros t.
  - simpl. intros [= <-]. unfold failure_reported. simpl. by intros [|].
  - rewrite run_app. destruct (run evs (start w)) as [t1| |] eqn:H1; [|done..].
    simpl. destruct (step ev (final t1)) as [s'| |] eqn:Hs; [|done..].
    intros [= <-] Hf. simpl in Hf.
    destruct (step_reports_failure e _ _ _ Hs Hf) as [Hf1|(-> & Hpc & h' & st' & n & Hq)].
    + destruct (IH t1 eq_refl Hf1) as (evs1 & evs2 & t0 & h' & st' & n & -> & H0 & Hpc & Hq).
      exists evs1, (evs2 ++ [ev]), t0, h', st', n. split; [|done].
      by rewrite <- app_assoc.
    + exists evs, [], t1, h', st', n. done.
Qed.

Lemma step_InMemory ev s s' :
  step ev s = Stepped s' →
  is_InMemory (storage (sys_world s).2) → is_InMemory (storage (sys_world s').2).
Proof.
  intros Hs Hm. destruct (sys_world s) as [h q] eqn:Hw. cbn [fst snd] in Hm.
  destruct (storage q) as [st|] eqn:Hst; [|done].
  assert (Hst' : is_InMemory (storage q)) by (by rewrite Hst).
  destruct ev as [r| | | |i| |i|i|i|]; simpl in Hs.
  - unfold step_Store, Queue_storeRequest in Hs. rewrite Hw, Hst in Hs.
    destruct (InMemoryQueueStorage_AddRequestPointer r (h, st)) as [[[h1 st1] e]|];
      simpl in Hs; by simplify_eq.
  - unfold step_Run, Queue_Run_enter in Hs. rewrite Hw in Hs.
    destruct (wake q); [done|]. simpl in Hs. destruct (sys_run s); simplify_eq.
    simpl; rewrite ?Hw; simpl; done.
  - unfold step_Top in Hs. destruct (sys_pc s); try done. rewrite Hw in Hs.
    cbn [fst snd] in Hs. rewrite Hst in Hs. cbn [Storage_QueueSize] in Hs.
    destruct (InMemoryQueueStorage_QueueSize (h, st)) as [[[h1 st1] [n [e|]]]|];
      simpl in Hs; simplify_eq; [done|].
    destruct ((n =? 0) && (sys_active s =? 0)); simplify_eq; [done|].
    destruct (0 <? n); by simplify_eq.
  - unfold step_Load, Queue_loadRequest in Hs. destruct (sys_pc s); try done.
    rewrite Hw, Hst in Hs. cbn [Storage_GetRequest] in Hs.
    destruct (InMemoryQueueStorage_GetRequest (h, st)) as [[[h1 st1] [buf [e|]]]|];
      simpl in Hs; simplify_eq; [done|].
    destruct (UnmarshalRequest collector buf) as [req [e|]]; by simplify_eq.
  - unfold step_Offer in Hs. repeat case_match; simplify_eq; simpl; rewrite ?Hw; simpl; done.
  - unfold step_Wake in Hs. repeat case_match; simplify_eq; simpl; rewrite ?Hw; simpl; done.
  - unfold step_Complete in Hs. repeat case_match; simplify_eq; simpl; rewrite ?Hw; simpl; done.
  - unfold step_Do in Hs. repeat case_match; simplify_eq; simpl; rewrite ?Hw; simpl; done.
  - unfold step_Exit in Hs. repeat case_match; simplify_eq; simpl; rewrite ?Hw; simpl; done.
  - unfold step_Return in Hs. repeat case_match; simplify_eq; simpl; rewrite ?Hw; simpl; done.
Qed.

Lemma run_InMemory evs t t' :
  run evs t = Stepped t' →
  is_InMemory (storage (sys_world (final t)).2) →
  is_InMemory (storage (sys_world (final t')).2).
Proof.
  revert t. induction evs as [|ev evs IH]; intros t; simpl; [by intros [= <-]|].
  destruct (step ev (final t)) as [s'| |] eqn:Hs; [|done..].
  intros Hrun Hm. apply IH in Hrun; [done|]. simpl. by eapply step_InMemory.
Qed.

(** The only error that [Run] returns is one that the backend's
    [QueueSize] returned to the loop; the errors of [GetRequest] and of
    [UnmarshalRequest] never reach the caller.  On the in-memory backend
    [Run] therefore never returns an error. *)
Theorem Run_error_from_QueueSize (w : world) (evs : list event) (t : trace) (e : error) :
  run evs (start w) = Stepped t →
  sys_run (final t) = RunReturned (Some e) →
  (∃ evs1 evs2 t1 h' st' n,
     evs = evs1 ++ EvTop :: evs2
     ∧ run evs1 (start w) = Stepped t1
     ∧ sys_pc (final t1) = LTop
     ∧ Storage_QueueSize (sys_world (final t1)).1 (storage (sys_world (final t1)).2)
       = Ok (h', st', (n, Some e)))
  ∧ ¬ is_InMemory (storage w.2).
Proof.
  intros Hrun Hret.
  destruct (run_reports_failure e evs w t Hrun) as
    (evs1 & evs2 & t1 & h' & st' & n & -> & H1 & Hpc & Hq); [by right|].
  split; [by exists evs1, evs2, t1, h', st', n|].
  intros Hm. apply (run_InMemory _ _ _ H1) in Hm.
  destruct (storage (sys_world (final t1)).2) as [st|]; [|done].
  cbn [Storage_QueueSize] in Hq. unfold InMemoryQueueStorage_QueueSize, with_lock in Hq.
  destruct (lock st); simpl in Hq; by simplify_eq.
Qed.

(** ** The order of dispatch *)

Ltac order_fields :=
  split;
  cbn [final executed stored sys_world sys_run sys_pc sys_active sys_workers
       sys_errc sys_closed with_world with_pc with_active with_workers with_errc
       fst snd set_storage set_wake Threads storage wake offers].

Lemma single_worker (l1 l2 : list worker) wk :
  (length (l1 ++ wk :: l2) ≤ 1)%nat → l1 = [] ∧ l2 = [].
Proof.
  rewrite length_app. simpl. intros H. split; [destruct l1|destruct l2]; simpl in *; (done || lia).
Qed.

Lemma step_order l0 n d ev t s' :
  order_invariant l0 (S n) d t → step ev (final t) = Stepped s' →
  order_invariant l0 n (d ++ offers ev (final t))
    {| final := s';
       executed := executed t ++ executes ev (final t);
       stored := stored t ++ stores ev (final t) |}.
Proof.
  destruct t as [s ex sto]. cbn [final executed stored].
  intros [(st & l & Hst & Hr & Hb & Hp) Hsg Hnc]. cbn [final executed stored] in *.
  destruct (sys_world s) as [h q] eqn:Hwd. cbn [fst snd] in *.
  assert (Hb' : Z.of_nat (length l) + Z.of_nat n ≤ int_max) by lia.
  destruct ev as [r| | | |i| |i|i|i|]; cbn [step executes stores]; intros Hs.
  - unfold step_Store in Hs. rewrite Hwd in *.
    destruct (storeRequest_InMemory_cases r h q st l Hst Hr ltac:(lia))
      as [He|(h' & st' & He & Hr')]; rewrite He in *; simplify_eq.
    + rewrite !app_nil_r. order_fields; try done. by exists st, l.
    + rewrite !app_nil_r. order_fields; try done.
      exists st', (l ++ [r]). do 2 (split; [done|]). split.
      * rewrite length_app. simpl. lia.
      * rewrite (app_assoc l0), (omap_app _ (l0 ++ sto)), (omap_app _ l), Hp.
        by rewrite <- !app_assoc.
  - unfold step_Run, Queue_Run_enter in Hs. rewrite Hwd in Hs.
    destruct (wake q); [done|].
    destruct (alloc CChan h) as [ch h1] eqn:Hal.
    destruct (sys_run s) eqn:Hrun; [|done..]. simplify_eq.
    destruct (Hnc eq_refl) as [Hws Hpc]. rewrite Hws in Hsg. rewrite Hpc in Hp.
    destruct (replicate_idle (Z.to_nat (Threads q))) as [Hrep1 _].
    rewrite !app_nil_r. order_fields; [| |done].
    + exists st, l. split; [done|]. split; [|split; [lia|done]].
      do 3 apply repr_alloc. replace h1 with (alloc CChan h).2 by (by rewrite Hal).
      by apply repr_alloc.
    + intros _. rewrite Hrep1. apply Hsg. simpl. lia.
  - unfold step_Top in Hs. destruct (sys_pc s) eqn:Hpc; try done.
    rewrite Hwd in Hs. cbn [fst snd] in Hs. rewrite Hst in Hs.
    cbn [Storage_QueueSize] in Hs. rewrite (QueueSize_repr _ _ Hr) in Hs.
    cbn [mbind outcome_bind] in Hs. rewrite !app_nil_r.
    assert (Hinv : ∀ pc' e, pending pc' = [] → pc' ≠ LNotStarted →
      order_invariant l0 n d
        {| final := with_pc pc' (with_errc e
                      (with_world (h, set_storage (StInMemory st) q) s));
           executed := ex; stored := sto |}).
    { intros pc' e Hpd Hne. order_fields; rewrite ?Hpd; try done.
      - by exists st, l.
      - intros Hrun. destruct (Hnc Hrun) as [_ ?]. congruence. }
    assert (Hsame : ∀ s0, with_errc (sys_errc s0) s0 = s0) by (by intros []).
    destruct ((Z.of_nat (length l) =? 0) && (sys_active s =? 0)).
    + simplify_eq. by apply Hinv.
    + destruct (0 <? Z.of_nat (length l)); simplify_eq.
      * rewrite <- (Hsame (with_world _ s)). by apply Hinv.
      * rewrite <- (Hsame (with_world _ s)). by apply Hinv.
  - unfold step_Load in Hs. destruct (sys_pc s) eqn:Hpc; try done.
    rewrite Hwd in Hs.
    destruct (Queue_loadRequest collector (h, q)) as [[w' [req err]]|] eqn:Hl; [|done].
    destruct (loadRequest_InMemory _ _ _ _ _ _ _ Hst Hr Hl)
      as (x & l' & st' & -> & -> & Hr' & Hld).
    change (omap loaded (Some x :: l')) with
      (match loaded (Some x) with
       | Some y => y :: omap loaded l'
       | None => omap loaded l'
       end) in Hp.
    cbn [pending app] in Hp. rewrite !app_nil_r.
    destruct err as [e|]; simplify_eq; rewrite Hld in Hp.
    + order_fields; try done.
      * exists st', l'. do 2 (split; [done|]). split; [simpl in Hb'; lia|done].
      * intros Hrun. destruct (Hnc Hrun) as [_ ?]. congruence.
    + order_fields; try done.
      * exists st', l'. do 2 (split; [done|]). split; [simpl in Hb'; lia|done].
      * intros Hrun. destruct (Hnc Hrun) as [_ ?]. congruence.
  - unfold step_Offer in Hs. destruct (sys_pc s) as [| | |[] req|] eqn:Hpc; try done.
    destruct (sys_workers s !! i) as [[]|] eqn:Hi; try done.
    destruct (sys_closed s); [done|]. simplify_eq.
    destruct (workers_split _ _ _ (WRunning req) Hi) as (l1 & l2 & Hws & Hins).
    rewrite Hins. rewrite Hws in Hsg, Hnc. rewrite !app_nil_r. simpl in Hp.
    order_fields; rewrite ?Hpc; cbn [pending].
    + rewrite Hwd. exists st, l. do 3 (split; [done|]).
      rewrite Hp. simpl. by rewrite <- app_assoc.
    + intros Hlen. destruct (single_worker _ _ _ Hlen) as [-> ->].
      simpl. simpl in Hsg. rewrite <- Hsg by lia. by rewrite app_nil_r.
    + intros Hrun. destruct (Hnc Hrun) as [? _]. by destruct l1.
  - unfold step_Wake in Hs. destruct (sys_pc s) as [| | |[] req|] eqn:Hpc; try done;
      simplify_eq; rewrite !app_nil_r.
    + order_fields; rewrite ?Hwd, ?Hpc; try done. by exists st, l.
    + order_fields; rewrite ?Hwd; try done.
      * by exists st, l.
      * intros Hrun. destruct (Hnc Hrun) as [_ ?]. congruence.
  - unfold step_Complete in Hs. destruct (sys_pc s) as [| | |sent req|] eqn:Hpc; try done.
    destruct (sys_workers s !! i) as [[]|] eqn:Hi; try done.
    destruct (workers_split _ _ _ WIdle Hi) as (l1 & l2 & Hws & Hins).
    rewrite Hins in Hs. rewrite Hws in Hsg, Hnc. rewrite !app_nil_r.
    assert (Hsg' : (length (l1 ++ WIdle :: l2) ≤ 1)%nat →
                   (Some <$> ex) ++ running (l1 ++ WIdle :: l2) = d).
    { intros Hlen. rewrite !length_app in *. rewrite running_app in *. simpl in *.
      by apply Hsg. }
    assert (Hnc' : sys_run s = RunNotCalled → l1 ++ WIdle :: l2 = [] ∧ sys_pc s = LNotStarted).
    { intros Hrun. destruct (Hnc Hrun) as [? _]. by destruct l1. }
    destruct (negb sent && (int_wrap (sys_active s - 1) =? 0)) eqn:Hc; simplify_eq.
    + apply andb_true_iff in Hc as [Hsent _]. destruct sent; [done|].
      order_fields; rewrite ?Hwd; try done.
      * by exists st, l.
      * intros Hrun. destruct (Hnc' Hrun) as [? _]. by destruct l1.
    + order_fields; rewrite ?Hwd, ?Hpc; try done.
      * by exists st, l.
      * intros Hrun. destruct (Hnc' Hrun) as [? _]. by destruct l1.
  - unfold step_Do in Hs.
    destruct (sys_workers s !! i) as [[|[x|]| |]|] eqn:Hi; try done. simplify_eq.
    destruct (workers_split _ _ _ WCompleting Hi) as (l1 & l2 & Hws & Hins).
    rewrite Hins. rewrite Hws in Hsg, Hnc. rewrite !app_nil_r.
    order_fields; rewrite ?Hwd; try done.
    + by exists st, l.
    + intros Hlen. destruct (single_worker _ _ _ Hlen) as [-> ->].
      simpl. simpl in Hsg. rewrite <- Hsg by lia. by rewrite fmap_app, app_nil_r.
    + intros Hrun. destruct (Hnc Hrun) as [? _]. by destruct l1.
  - unfold step_Exit in Hs. destruct (sys_workers s !! i) as [[]|] eqn:Hi; try done.
    destruct (sys_closed s); [|done]. simplify_eq.
    destruct (workers_split _ _ _ WExited Hi) as (l1 & l2 & Hws & Hins).
    rewrite Hins. rewrite Hws in Hsg, Hnc. rewrite !app_nil_r.
    order_fields; rewrite ?Hwd; try done.
    + by exists st, l.
    + intros Hlen. rewrite !length_app in *. rewrite running_app in *. simpl in *.
      by apply Hsg.
    + intros Hrun. destruct (Hnc Hrun) as [? _]. by destruct l1.
  - unfold step_Return in Hs. destruct (sys_run s); try done.
    destruct (sys_errc s); [|done]. simplify_eq. rewrite !app_nil_r.
    order_fields; rewrite ?Hwd; try done. by exists st, l.
Qed.

Lemma run_order l0 evs n d t t' :
  order_invariant l0 (length evs + n) d t → run evs t = Stepped t' →
  order_invariant l0 n (d ++ dispatched evs (final t)) t'.
Proof.
  revert d t. induction evs as [|ev evs IH]; intros d t; simpl.
  - intros Hi [= <-]. by rewrite app_nil_r.
  - intros Hi. destruct (step ev (final t)) as [s'| |] eqn:Hs; [|done..].
    intros Hrun. rewrite app_assoc.
    apply (IH _ _ (step_order _ _ _ _ _ _ Hi Hs)) in Hrun. exact Hrun.
Qed.

Lemma start_order (w : world) st l0 n :
  storage w.2 = StInMemory st → repr (w.1, st) l0 →
  Z.of_nat (length l0) + Z.of_nat n ≤ int_max →
  order_invariant l0 n [] (start w).
Proof.
  intros Hst Hr Hb. split; simpl; try done.
  exists st, l0. do 3 (split; [done|]). by rewrite app_nil_r.
Qed.

(** On the in-memory backend the loop hands requests to the workers in the
    order in which they were stored: what it has dispatched, what it holds
    in its select and what it can load from the backlog are, in this order,
    what it can load from the accepted stores. *)
Theorem dispatch_in_store_order (w : world) (st : InMemoryQueueStorage)
    (l0 : list reqptr) (evs : list event) (t : trace) :
  storage w.2 = StInMemory st → repr (w.1, st) l0 →
  Z.of_nat (length l0) + Z.of_nat (length evs) ≤ int_max →
  run evs (start w) = Stepped t →
  ∃ st' l,
    storage (sys_world (final t)).2 = StInMemory st'
    ∧ repr ((sys_world (final t)).1, st') l
    ∧ omap loaded (l0 ++ stored t)
      = dispatched evs (system_of w) ++ pending (sys_pc (final t)) ++ omap loaded l.
Proof.
  intros Hst Hr Hb Hrun.
  assert (Hinv : order_invariant l0 0 ([] ++ dispatched evs (final (start w))) t).
  { apply (run_order l0 evs 0 [] (start w)); [|done].
    apply (start_order w st); [done|done|lia]. }
  destruct Hinv as [(st' & l & H1 & H2 & _ & H3) _ _]. by exists st', l.
Qed.

(** With one worker the requests are executed in the order in which they
    were stored. *)
Theorem single_worker_executes_in_order (w : world) (st : InMemoryQueueStorage)
    (l0 : list reqptr) (evs : list event) (t : trace) :
  storage w.2 = StInMemory st → repr (w.1, st) l0 → Threads w.2 ≤ 1 →
  Z.of_nat (length l0) + Z.of_nat (length evs) ≤ int_max →
  run evs (start w) = Stepped t →
  ∃ rest, omap loaded (l0 ++ stored t) = (Some <$> executed t) ++ rest.
Proof.
  intros Hst Hr Hth Hb Hrun.
  assert (Hinv : order_invariant l0 0 ([] ++ dispatched evs (final (start w))) t).
  { apply (run_order l0 evs 0 [] (start w)); [|done].
    apply (start_order w st); [done|done|lia]. }
  destruct (run_workers_invariant evs (start w) t) as [[_ Hl] HT]; try done.
  { simpl. unfold int_max. lia. }
  { split; simpl; [done|lia]. }
  simpl in HT. rewrite HT in Hl.
  destruct Hinv as [(st' & l & _ & _ & _ & Hp) Hsg _].
  rewrite <- Hsg in Hp by lia. rewrite Hp, <- !app_assoc. eauto.
Qed.

(** ** A schedule in which [Run] drains the backlog *)

Lemma int_wrap_0 : int_wrap 0 = 0.
Proof. reflexivity. Qed.

Lemma int_wrap_1 : int_wrap 1 = 1.
Proof. reflexivity. Qed.

#[local] Arguments Storage_QueueSize : simpl never.
#[local] Arguments Queue_loadRequest : simpl never.
#[local] Arguments int_wrap : simpl never.
#[local] Arguments drain_schedule : simpl never.
#[local] Arguments loaded_request : simpl never.

Ltac run_step :=
  simpl;
  unfold step_Top, step_Load, step_Offer, step_Wake, step_Complete, step_Do, step_Exit,
    step_Return;
  simpl; rewrite ?int_wrap_0, ?int_wrap_1; simpl.

Lemma drain_from_top (l : list reqptr) :
  ∀ (o : option colly_Request) h q st ws ex sto,
    storage q = StInMemory st → repr (h, st) l → Forall loadable l →
    ∃ t,
      run (drain_schedule (holds_request o) l)
        {| final := at_top h q o ws; executed := ex; stored := sto |} = Stepped t
      ∧ sys_run (final t) = RunReturned None
      ∧ executed t = ex ++ option_list o ++ omap loaded_request l
      ∧ stored t = sto
      ∧ ∃ st', storage (sys_world (final t)).2 = StInMemory st'
               ∧ repr ((sys_world (final t)).1, st') [].
Proof.
  induction l as [|r l IH]; intros o h q st ws ex sto Hst Hr Hok.
  - assert (Hq : Storage_QueueSize h (StInMemory st) = Ok (h, StInMemory st, (0, None))).
    { unfold Storage_QueueSize. by rewrite (QueueSize_repr _ _ Hr). }
    destruct o as [x|]; unfold drain_schedule, holds_request, at_top.
    + run_step. rewrite Hst, Hq. run_step. rewrite Hq. run_step.
      eexists. split; [reflexivity|]. simpl.
      split; [done|]. split; [by rewrite !app_nil_r|]. split; [by rewrite !app_nil_r|].
      by exists st.
    + run_step. rewrite Hst, Hq. run_step.
      eexists. split; [reflexivity|]. simpl.
      split; [done|]. split; [by rewrite !app_nil_r|]. split; [by rewrite !app_nil_r|].
      by exists st.
  - inversion Hok as [|r' l' [(x0 & -> & Hurl) Hnl] Hok']; subst.
    assert (Hq : Storage_QueueSize h (StInMemory st)
                 = Ok (h, StInMemory st, (Z.of_nat (length (Some x0 :: l)), None))).
    { unfold Storage_QueueSize. by rewrite (QueueSize_repr _ _ Hr). }
    assert (Hnz : (Z.of_nat (length (Some x0 :: l)) =? 0) = false)
      by (apply Z.eqb_neq; simpl; lia).
    assert (Hpos : (0 <? Z.of_nat (length (Some x0 :: l))) = true)
      by (apply Z.ltb_lt; simpl; lia).
    destruct (loadRequest_head x0 l h (set_storage (StInMemory st) q) st Hurl eq_refl Hr)
      as (st' & Hr' & Hload).
    unfold drain_schedule; fold drain_schedule. unfold at_top.
    run_step. rewrite Hst, Hq. run_step. rewrite Hload.
    destruct (Marshal x0) as [d [e|]] eqn:Hm.
    + assert (Hld : loaded (Some x0) = None) by (unfold loaded; by rewrite Hm).
      assert (Hlr : loaded_request (Some x0) = None) by (unfold loaded_request; by rewrite Hld).
      rewrite ?Hld, ?Hlr. run_step. rewrite ?Hlr.
      destruct (IH o h (set_storage (StInMemory st') (set_storage (StInMemory st) q))
                  st' ws ((ex ++ []) ++ []) ((sto ++ []) ++ []) eq_refl Hr' Hok')
        as (t & Hrun & Hret & Hex & Hsto & Hfin).
      exists t. split; [exact Hrun|]. split; [done|].
      rewrite !app_nil_r in Hex, Hsto. done.
    + destruct (UnmarshalRequest collector d) as [req [e|]] eqn:Hu.
      * assert (Hld : loaded (Some x0) = None) by (unfold loaded; by rewrite Hm, Hu).
        assert (Hlr : loaded_request (Some x0) = None)
          by (unfold loaded_request; by rewrite Hld).
        rewrite ?Hld, ?Hlr. run_step. rewrite ?Hlr.
        destruct (IH o h (set_storage (StInMemory st') (set_storage (StInMemory st) q))
                    st' ws ((ex ++ []) ++ []) ((sto ++ []) ++ []) eq_refl Hr' Hok')
          as (t & Hrun & Hret & Hex & Hsto & Hfin).
        exists t. split; [exact Hrun|]. split; [done|].
        rewrite !app_nil_r in Hex, Hsto. done.
      * assert (Hld : loaded (Some x0) = Some req) by (unfold loaded; by rewrite Hm, Hu).
        destruct req as [x'|]; [|done].
        assert (Hlr : loaded_request (Some x0) = Some x')
          by (unfold loaded_request; by rewrite Hld).
        rewrite ?Hld, ?Hlr.
        destruct o as [xo|]; unfold holds_request; run_step; rewrite ?Hlr.
        -- destruct (IH (Some x') h
                       (set_storage (StInMemory st') (set_storage (StInMemory st) q))
                       st' ws (((((ex ++ []) ++ []) ++ [xo]) ++ []) ++ [])
                       (((((sto ++ []) ++ []) ++ []) ++ []) ++ []) eq_refl Hr' Hok')
             as (t & Hrun & Hret & Hex & Hsto & Hfin).
           exists t. split; [exact Hrun|]. split; [done|].
           rewrite !app_nil_r in Hex, Hsto. rewrite Hex. simpl.
           split; [by rewrite <- !app_assoc|]. split; [by rewrite Hsto, ?app_nil_r|exact Hfin].
        -- destruct (IH (Some x') h
                       (set_storage (StInMemory st') (set_storage (StInMemory st) q))
                       st' ws (((ex ++ []) ++ []) ++ [])
                       (((sto ++ []) ++ []) ++ []) eq_refl Hr' Hok')
             as (t & Hrun & Hret & Hex & Hsto & Hfin).
           exists t. split; [exact Hrun|]. split; [done|].
           rewrite !app_nil_r in Hex, Hsto. rewrite Hex. simpl.
           split; [done|]. split; [by rewrite Hsto, ?app_nil_r|exact Hfin].
Qed.

(** A backlog that the loop can load is drained by [Run] with one
    worker: when [Run] is called on a coordinator with the default
    backend, at least one thread and a backlog of requests of which none
    is nil and none is turned into nil by [UnmarshalRequest], there is a
    schedule, with worker 0 alone taking requests, in which [Run] returns
    nil, the requests that [loadRequest] returned without error were
    executed once each in the order of the backlog, and the backend is
    left empty. *)
Theorem Run_drains_backlog (w : world) (st : InMemoryQueueStorage) (l0 : list reqptr) :
  storage w.2 = StInMemory st →
  repr (w.1, st) l0 →
  wake w.2 = None →
  1 ≤ Threads w.2 →
  Forall loadable l0 →
  ∃ t, run (EvRun :: drain_schedule false l0) (start w) = Stepped t
     ∧ sys_run (final t) = RunReturned None
     ∧ executed t = omap loaded_request l0
     ∧ stored t = []
     ∧ ∃ st', storage (sys_world (final t)).2 = StInMemory st'
            ∧ repr ((sys_world (final t)).1, st') [].
Proof.
  destruct w as [h q]. simpl. intros Hst Hr Hw Hth Hok.
  destruct (Z.to_nat (Threads q)) as [|n] eqn:Hn; [lia|].
  unfold start, system_of. unfold step_Run, Queue_Run_enter. simpl.
  rewrite Hw. simpl. rewrite Hn. simpl.
  apply (repr_alloc CChan) in Hr. apply (repr_alloc CChan) in Hr.
  apply (repr_alloc CChan) in Hr. apply (repr_alloc CChan) in Hr.
  destruct (drain_from_top l0 None _ (set_wake (Some (alloc CChan h).1) q) st
              (replicate n WIdle) [] [] Hst Hr Hok)
    as (t & Hrun & Hret & Hex & Hsto & Hfin).
  exists t. split; [exact Hrun|]. split; [exact Hret|].
  split; [exact Hex|]. split; [exact Hsto|exact Hfin].
Qed.

End Queue.

(* ================================================================= *)
(** * The properties at concrete collaborators *)

Arguments Stepped {A} a.
Arguments Disabled {A}.
Arguments Crashed {A} p.

#[local] Existing Instance demo_types.
#[local] Existing Instance demo_colly.

(** A store after [Init], empty, with capacity [m]. *)
Local Abbreviation store m :=
  ((<[1%positive := CMutex]> ∅ : gmap positive cell),
   {| MaxSize := m; lock := Some 1%positive; size := 0; first := None; last := None |}).

(** A store of capacity 1 that holds one request. *)
Local Abbreviation store_full r :=
  ((<[2%positive := CItem {| Request := r; Next := None |}]> (<[1%positive := CMutex]> ∅) : gmap positive cell),
   {| MaxSize := 1; lock := Some 1%positive; size := 1; first := Some 2%positive; last := Some 2%positive |}).

(** The collector that [Run] is called with. *)
Local Abbreviation c0 := (tt : @Collector demo_types).

Local Abbreviation GET := (Some (demo_request "GET")).
Local Abbreviation PUT := (Some (demo_request "PUT")).
Local Abbreviation POST := (Some (demo_request "POST")).

(** The coordinator that [New(1, nil)] returns. *)
Local Abbreviation queue1 :=
  ((<[1%positive := CMutex]> ∅ : gmap positive cell),
   {| Threads := 1;
      storage := StInMemory {| MaxSize := 100000; lock := Some 1%positive; size := 0;
                               first := None; last := None |};
      wake := None |}).

(** One request stored, then [Run] with one worker until it returns. *)
Local Abbreviation full_schedule :=
  [EvStore GET; EvRun; EvTop; EvLoad; EvOffer 0; EvDo 0; EvTop; EvComplete 0;
   EvTop; EvReturn].

(** A producer stores a request between the loop's last size query and the
    return of [Run]. *)
Local Abbreviation late_schedule :=
  [EvRun; EvTop; EvStore GET; EvReturn].

Lemma New_gives_queue1 :
  New 1 None ∅ = Ok (queue1.1, (Some queue1.2, None)).
Proof. vm_compute. reflexivity. Qed.

(** C3, the counterexample: after [Init], one append and one pop, [size] is
    0 and [first] is nil, and [last] still points to the popped node. *)
Lemma last_pointer_not_reset :
  ∃ s, exec_ops [OpInit; OpAddRequestPointer GET; OpGetRequestPointer]
         (∅, new_InMemoryQueueStorage 0) = Ok s
       ∧ size s.2 = 0 ∧ first s.2 = None ∧ last s.2 = Some 2%positive
       ∧ ¬ spec_invariant s.2.
Proof.
  eexists. split; [vm_compute; reflexivity|]. simpl.
  split; [done|]. split; [done|]. split; [done|].
  unfold spec_invariant. simpl. intros [H _]. by destruct H.
Qed.

Lemma store_invariant_preserved_witness :
  match exec_ops (OpInit :: [OpAddRequestPointer GET; OpGetRequestPointer; OpQueueSize])
          (∅, new_InMemoryQueueStorage 0) with
  | Ok s' =>
      store_invariant s'
      ∧ (last s'.2 = None
         ↔ linked (OpInit :: [OpAddRequestPointer GET; OpGetRequestPointer; OpQueueSize])
             (∅, new_InMemoryQueueStorage 0) = false)
  | Panic _ => OpGetRequest ∈ [OpAddRequestPointer GET; OpGetRequestPointer; OpQueueSize]
  end.
Proof.
  apply (store_invariant_preserved 0 ∅).
  vm_compute. discriminate.
Defined.

(** C4, at the failing input: the bytes-returning pop of an initialised
    empty store panics on the nil request. *)
Lemma GetRequest_empty_panics_witness :
  InMemoryQueueStorage_GetRequest (store 100000) = Panic NilDereference.
Proof.
  apply GetRequest_empty_panics; simpl; [discriminate | reflexivity].
Defined.

Lemma AddRequestPointer_full_unchanged_witness :
  InMemoryQueueStorage_AddRequestPointer PUT (store_full GET)
  = Ok (store_full GET, Some ErrQueueFull).
Proof.
  apply (proj1 AddRequestPointer_full_unchanged); simpl; [discriminate | lia | lia].
Defined.

Lemma fifo_three_witness :
  ∃ s1,
    add_all [GET; PUT; POST] (store 0) = Ok (s1, [None; None; None])
    ∧ ∃ s2, pop_n 3 s1 = Ok (s2, [(GET, None); (PUT, None); (POST, None)]).
Proof.
  eexists. split; [vm_compute; reflexivity|].
  eapply (fifo_three (store 0));
    [simpl; discriminate | reflexivity | reflexivity | vm_compute; reflexivity].
Defined.

Lemma pointer_pop_never_errs_witness :
  InMemoryQueueStorage_GetRequestPointer (store 0) = Ok (store 0, (None, None)).
Proof.
  apply (proj1 (proj2 (proj2 (proj2 (pointer_pop_never_errs (store 0))))));
    simpl; [discriminate | reflexivity].
Defined.

(** A coordinator on which [Run] is active: the wake channel is at 2. *)
Local Abbreviation queue_running :=
  ((<[2%positive := CChan]> (<[1%positive := CMutex]> ∅) : gmap positive cell),
   {| Threads := 1;
      storage := StInMemory {| MaxSize := 0; lock := Some 1%positive; size := 0;
                               first := None; last := None |};
      wake := Some 2%positive |}).


Lemma Run_twice_panics_witness :
  ∃ t3, run c0 [EvRun; EvTop; EvReturn] (start queue1) = Stepped t3
        ∧ step c0 EvRun (final t3)
          = Crashed (PanicMessage "cannot call duplicate Queue.Run").
Proof.
  eexists. split; [vm_compute; reflexivity|].
  eapply (proj2 (proj2 (proj2 (proj2 (proj2 (Run_twice_panics c0)))))
            [] [EvTop; EvReturn] (start queue1) (start queue1)).
  - reflexivity.
  - vm_compute. reflexivity.
  - vm_compute. reflexivity.
Defined.

(** C2, the counterexample: a producer stores a request after the loop's
    last size query; [Run] returns nil and [Size()] is 1. *)
Lemma Size_after_Run_not_zero :
  ∃ t w', run c0 late_schedule (start queue1) = Stepped t
          ∧ sys_run (final t) = RunReturned None
          ∧ Queue_Size (sys_world (final t)) = Ok (w', (1, None)).
Proof.
  eexists _, _. split; [vm_compute; reflexivity|].
  split; [reflexivity|]. vm_compute. reflexivity.
Qed.

Lemma Run_nil_only_when_drained_witness :
  ∃ t, run c0 full_schedule (start queue1) = Stepped t
       ∧ sys_run (final t) = RunReturned None
       ∧ ∃ evs1 evs2 t1 s2,
           full_schedule = evs1 ++ EvTop :: evs2
           ∧ run c0 evs1 (start queue1) = Stepped t1
           ∧ step c0 EvTop (final t1) = Stepped s2
           ∧ run c0 evs2 {| final := s2; executed := executed t1; stored := stored t1 |}
             = Stepped t
           ∧ sys_active (final t1) = 0
           ∧ (∃ h' st',
                Storage_QueueSize (sys_world (final t1)).1 (storage (sys_world (final t1)).2)
                = Ok (h', st', (0, None)))
           ∧ (∀ st, storage (sys_world (final t1)).2 = StInMemory st →
                Queue_Size (sys_world s2) = Ok (sys_world s2, (0, None))
                ∧ (Forall (λ ev, is_store ev = false) evs2 →
                   Queue_Size (sys_world (final t)) = Ok (sys_world (final t), (0, None)))).
Proof.
  eexists. split; [vm_compute; reflexivity|]. split; [reflexivity|].
  eapply (proj2 (Run_nil_only_when_drained c0) queue1 full_schedule);
    [vm_compute; reflexivity | reflexivity].
Defined.

(** C1, the counterexample: the request that a producer stored after the
    loop's last size query is in the backend when [Run] returns nil, and no
    worker has executed it. *)
Lemma stored_late_never_executed :
  ∃ t, run c0 late_schedule (start queue1) = Stepped t
       ∧ sys_run (final t) = RunReturned None
       ∧ stored t = [GET] ∧ executed t = [].
Proof.
  eexists. split; [vm_compute; reflexivity|]. by repeat split.
Qed.

(** A request whose [Marshal] returns an error is popped by the loop and
    dropped: it was stored, [Run] returns nil, and nothing was executed. *)
Example load_error_drops_request :
  ∃ t, run c0 [EvStore (Some (demo_request "")); EvRun; EvTop; EvLoad; EvTop; EvReturn]
         (start queue1) = Stepped t
       ∧ sys_run (final t) = RunReturned None
       ∧ stored t = [Some (demo_request "")] ∧ executed t = []
       ∧ ∃ w', Queue_Size (sys_world (final t)) = Ok (w', (0, None)).
Proof.
  eexists. split; [vm_compute; reflexivity|]. repeat split.
  eexists. vm_compute. reflexivity.
Qed.

(** [Run] after one store, up to the select of the loop. *)
Local Abbreviation half_schedule :=
  [EvStore GET; EvRun; EvTop; EvLoad].

(** A request without a URL is accepted by the in-memory backend, and the
    loop panics in [Marshal] when it loads it. *)
Example request_without_URL_crashes_loop :
  run c0 [EvStore (Some (bare_request "GET")); EvRun; EvTop; EvLoad] (start queue1)
  = Crashed NilDereference.
Proof. vm_compute. reflexivity. Qed.

Lemma executed_once_each_witness :
  (∃ t, run c0 full_schedule (start queue1) = Stepped t
        ∧ sys_run (final t) = RunReturned None
        ∧ ∃ evs1 evs2 t1 s2 late st',
            full_schedule = evs1 ++ EvTop :: evs2
            ∧ run c0 evs1 (start queue1) = Stepped t1
            ∧ sys_pc (final t1) = LTop
            ∧ step c0 EvTop (final t1) = Stepped s2
            ∧ sys_errc s2 = Some None
            ∧ run c0 evs2 {| final := s2; executed := executed t1; stored := stored t1 |}
              = Stepped t
            ∧ Some <$> executed t ≡ₚ omap (loaded c0) ([] ++ stored t1)
            ∧ stored t = stored t1 ++ late
            ∧ storage (sys_world (final t)).2 = StInMemory st'
            ∧ repr ((sys_world (final t)).1, st') late)
  ∧ (∃ t, run c0 half_schedule (start queue1) = Stepped t
          ∧ (length half_schedule + weight (final t)
             ≤ weight (system_of queue1)
               + 8 * length (List.filter is_producer half_schedule))%nat
          ∧ ((∀ e, sys_run (final t) ≠ RunReturned e) →
             ∃ ev s', is_producer ev = false ∧ step c0 ev (final t) = Stepped s')
          ∧ ∃ evs' t',
              Forall (λ ev, is_producer ev = false) evs'
              ∧ (length evs' ≤ weight (final t))%nat
              ∧ run c0 (half_schedule ++ evs') (start queue1) = Stepped t'
              ∧ sys_run (final t') = RunReturned None
              ∧ stored t' = stored t
              ∧ (sys_pc (final t) ≠ LBroken →
                 Some <$> executed t' ≡ₚ omap (loaded c0) ([] ++ stored t)
                 ∧ ∃ st', storage (sys_world (final t')).2 = StInMemory st'
                          ∧ repr ((sys_world (final t')).1, st') [])).
Proof.
  destruct (executed_once_each c0 queue1
              {| MaxSize := 100000; lock := Some 1%positive; size := 0;
                 first := None; last := None |} [] eq_refl
              ltac:(apply repr_empty; simpl; [discriminate | reflexivity | reflexivity])
              ltac:(vm_compute; discriminate)) as [Hsafe Hlive].
  split.
  - eexists. split; [vm_compute; reflexivity|]. split; [reflexivity|].
    eapply (Hsafe full_schedule).
    + vm_compute. discriminate.
    + vm_compute. reflexivity.
    + reflexivity.
  - eexists. split; [vm_compute; reflexivity|].
    eapply (Hlive eq_refl ltac:(simpl; lia) half_schedule).
    + vm_compute. discriminate.
    + vm_compute. reflexivity.
    + constructor; [|constructor]. split; [|vm_compute; discriminate].
      eexists. split; [reflexivity|]. simpl. discriminate.
Defined.

(** ** The further properties at concrete collaborators *)

Lemma store_full_repr : repr (store_full GET) [GET].
Proof.
  split; [simpl; discriminate|]. split; [reflexivity|].
  split; [vm_compute; discriminate|].
  apply (chain_snoc _ _ [] GET 2%positive); reflexivity.
Qed.

Lemma store_refines_fifo_list_witness :
  ∃ s', store_ops [QAdd GET; QAdd PUT; QSize; QPop; QPop; QSize] (store 1)
        = Ok (s', (fifo_list_ops (MaxSize (store 1).2)
                     [QAdd GET; QAdd PUT; QSize; QPop; QPop; QSize] []).2)
        ∧ repr s' (fifo_list_ops (MaxSize (store 1).2)
                     [QAdd GET; QAdd PUT; QSize; QPop; QPop; QSize] []).1.
Proof.
  apply (store_refines_fifo_list [QAdd GET; QAdd PUT; QSize; QPop; QPop; QSize]
           (store 1) []).
  - apply repr_empty; simpl; [discriminate | reflexivity | reflexivity].
  - vm_compute. discriminate.
Defined.

Lemma bounded_store_within_capacity_witness :
  match exec_ops (OpInit :: [OpAddRequestPointer GET; OpAddRequestPointer PUT;
                             OpAddRequestPointer POST; OpQueueSize])
          (∅, new_InMemoryQueueStorage 2) with
  | Ok s' => 0 ≤ size s'.2 ≤ 2 ∧ MaxSize s'.2 = 2 ∧ ∃ l, repr s' l
  | Panic _ => OpGetRequest ∈ [OpAddRequestPointer GET; OpAddRequestPointer PUT;
                               OpAddRequestPointer POST; OpQueueSize]
  end.
Proof.
  apply (bounded_store_within_capacity 2 ∅); [lia | vm_compute; discriminate].
Defined.

Lemma AddRequest_bytes_appends_witness :
  match json_Unmarshal (Colly := demo_colly_json) [Byte.x7b] with
  | inr err => InMemoryQueueStorage_AddRequest (C := demo_colly_json) [Byte.x7b] (store 0)
               = Ok (store 0, Some err)
  | inl sreq =>
      match url_Parse (Colly := demo_colly_json) (sURL sreq) with
      | inr err => InMemoryQueueStorage_AddRequest (C := demo_colly_json) [Byte.x7b] (store 0)
                   = Ok (store 0, Some err)
      | inl u =>
          (full (store 0).2 →
           InMemoryQueueStorage_AddRequest (C := demo_colly_json) [Byte.x7b] (store 0)
           = Ok (store 0, Some (ErrQueueFull (Colly := demo_colly_json))))
          ∧ (¬ full (store 0).2 →
             ∃ s', InMemoryQueueStorage_AddRequest (C := demo_colly_json) [Byte.x7b] (store 0)
                   = Ok (s', None)
                   ∧ repr s' ([] ++ [Some (request_of sreq u)]))
      end
  end.
Proof.
  apply (AddRequest_bytes_appends (C := demo_colly_json) [Byte.x7b] (store 0) []).
  - apply repr_empty; simpl; [discriminate | reflexivity | reflexivity].
  - vm_compute. reflexivity.
Defined.

Lemma AddRequestPointer_GetRequest_roundtrip_witness :
  ∃ s1,
    InMemoryQueueStorage_AddRequestPointer GET (store 0) = Ok (s1, None)
    ∧ repr s1 [GET]
    ∧ ∃ s2,
        InMemoryQueueStorage_GetRequest s1 = Ok (s2, Marshal (demo_request "GET"))
        ∧ repr s2 []
        ∧ InMemoryQueueStorage_QueueSize s2 = Ok (s2, (0, None)).
Proof.
  apply (AddRequestPointer_GetRequest_roundtrip GET (store 0)).
  - apply repr_empty; simpl; [discriminate | reflexivity | reflexivity].
  - unfold full. simpl. lia.
Defined.

(** A coordinator whose store holds one request. *)
Local Abbreviation queue_holding :=
  ((store_full GET).1,
   {| Threads := 1; storage := StInMemory (store_full GET).2; wake := None |}).

Lemma Size_IsEmpty_InMemory_witness :
  Queue_Size queue_holding = Ok (queue_holding, (Z.of_nat (length [GET]), None))
  ∧ ∃ b, Queue_IsEmpty queue_holding = Ok (queue_holding, b) ∧ (b = true ↔ [GET] = []).
Proof.
  exact (Size_IsEmpty_InMemory (store_full GET).1
           {| Threads := 1; storage := StInMemory (store_full GET).2; wake := None |}
           (store_full GET).2 [GET] eq_refl store_full_repr).
Defined.

Lemma AddURL_appends_GET_witness :
  match url_Parse "http://x/1" with
  | inr err => Queue_AddURL "http://x/1" queue1 = Ok (queue1, Some err)
  | inl pu =>
      let r := Some {| Method := "GET"; Request_URL := Some pu; Depth := 0;
                       Body := None; Ctx := None; Headers := None |} in
      (full (store 100000).2 →
       Queue_AddURL "http://x/1" queue1 = Ok (queue1, Some ErrQueueFull))
      ∧ (¬ full (store 100000).2 →
         ∃ h' st' s2,
           Queue_AddURL "http://x/1" queue1
           = Ok ((h', set_storage (StInMemory st') queue1.2), None)
           ∧ repr (h', st') ([] ++ [r])
           ∧ pop_n (length ([] ++ [r])) (h', st')
             = Ok (s2, (λ x, (x, None)) <$> ([] ++ [r])))
  end.
Proof.
  exact (AddURL_appends_GET "http://x/1" queue1.1 queue1.2 (store 100000).2 []
           eq_refl
           ltac:(apply repr_empty; simpl; [discriminate | reflexivity | reflexivity])
           ltac:(vm_compute; reflexivity)).
Defined.

Lemma nil_request_crashes_loop_witness :
  ∃ t, run c0 [EvStore None; EvRun; EvTop] (start queue1) = Stepped t
       ∧ step c0 EvLoad (final t) = Crashed NilDereference.
Proof.
  eexists. split; [vm_compute; reflexivity|].
  eapply (proj2 (nil_request_crashes_loop c0) _
            {| MaxSize := 100000; lock := Some 1%positive; size := 1;
               first := Some 2%positive; last := Some 2%positive |} []).
  - reflexivity.
  - split; [simpl; discriminate|]. split; [reflexivity|].
    split; [vm_compute; discriminate|].
    apply (chain_snoc _ _ [] None 2%positive); reflexivity.
  - reflexivity.
Defined.

Lemma loadRequest_consumes_head_witness :
  ∃ st',
    repr ((store_full GET).1, st') []
    ∧ Queue_loadRequest c0 queue_holding
      = Ok (((store_full GET).1, set_storage (StInMemory st') queue_holding.2),
            match Marshal (demo_request "GET") with
            | (_, Some e) => (None, Some e)
            | (d, None) => UnmarshalRequest c0 d
            end).
Proof.
  exact (loadRequest_consumes_head c0 GET [] queue_holding.1
           queue_holding.2 (store_full GET).2 eq_refl store_full_repr).
Defined.

Lemma New_keeps_backlog_witness :
  ∃ h' st',
    New 3 (Some (StInMemory (store_full GET).2)) (store_full GET).1
    = Ok (h', (Some {| Threads := 3; storage := StInMemory st'; wake := None |}, None))
    ∧ repr (h', st') [GET]
    ∧ MaxSize st' = MaxSize (store_full GET).2.
Proof.
  apply (New_keeps_backlog 3 (store_full GET).1 (store_full GET).2 [GET]).
  - reflexivity.
  - vm_compute. discriminate.
  - apply store_full_repr.
Defined.

(** A coordinator with no worker thread. *)
Local Abbreviation queue0 :=
  ((<[1%positive := CMutex]> ∅ : gmap positive cell),
   {| Threads := 0;
      storage := StInMemory {| MaxSize := 100000; lock := Some 1%positive; size := 0;
                               first := None; last := None |};
      wake := None |}).

(** A backend whose size query fails. *)
Local Abbreviation failing_backend :=
  {| impl_state := unit;
     impl_Init := λ st, Ok (st, None);
     impl_AddRequest := λ _ st, Ok (st, None);
     impl_GetRequest := λ st, Ok (st, ([], None));
     impl_QueueSize := λ st, Ok (st, (0, Some ("backend down" : @error demo_types))) |}.

Local Abbreviation queue_failing :=
  ((∅ : gmap positive cell),
   {| Threads := 1; storage := StOther failing_backend tt; wake := None |}).

Lemma active_counts_busy_workers_witness :
  ∃ t, run c0 [EvStore GET; EvRun; EvTop; EvLoad; EvOffer 0] (start queue1) = Stepped t
       ∧ sys_active (final t)
         = Z.of_nat (length (List.filter busy (sys_workers (final t))))
       ∧ 0 ≤ sys_active (final t) ≤ Z.max 0 (Threads queue1.2)
       ∧ (length (sys_workers (final t)) ≤ Z.to_nat (Threads queue1.2))%nat.
Proof.
  eexists. split; [vm_compute; reflexivity|].
  eapply (active_counts_busy_workers c0 queue1 [EvStore GET; EvRun; EvTop; EvLoad; EvOffer 0]);
    [vm_compute; discriminate | vm_compute; reflexivity].
Defined.

Lemma no_threads_no_progress_witness :
  ∃ t, run c0 [EvStore GET; EvRun; EvTop; EvLoad] (start queue0) = Stepped t
       ∧ executed t = []
       ∧ ∀ req evs' t',
           sys_pc (final t) = LSelect true req → run c0 evs' t = Stepped t' →
           sys_pc (final t') = LSelect true req ∧ executed t' = [].
Proof.
  eexists. split; [vm_compute; reflexivity|].
  eapply (no_threads_no_progress c0 queue0 [EvStore GET; EvRun; EvTop; EvLoad]);
    [vm_compute; discriminate | vm_compute; reflexivity].
Defined.

Lemma Run_error_from_QueueSize_witness :
  ∃ t, run c0 [EvRun; EvTop; EvReturn] (start queue_failing) = Stepped t
       ∧ sys_run (final t) = RunReturned (Some "backend down")
       ∧ (∃ evs1 evs2 t1 h' st' n,
            [EvRun; EvTop; EvReturn] = evs1 ++ EvTop :: evs2
            ∧ run c0 evs1 (start queue_failing) = Stepped t1
            ∧ sys_pc (final t1) = LTop
            ∧ Storage_QueueSize (sys_world (final t1)).1 (storage (sys_world (final t1)).2)
              = Ok (h', st', (n, Some "backend down")))
       ∧ ¬ is_InMemory (storage queue_failing.2).
Proof.
  eexists. split; [vm_compute; reflexivity|]. split; [reflexivity|].
  eapply (Run_error_from_QueueSize c0 queue_failing [EvRun; EvTop; EvReturn]);
    [vm_compute; reflexivity | reflexivity].
Defined.

Lemma dispatch_in_store_order_witness :
  ∃ t, run c0 full_schedule (start queue1) = Stepped t
       ∧ ∃ st' l,
           storage (sys_world (final t)).2 = StInMemory st'
           ∧ repr ((sys_world (final t)).1, st') l
           ∧ omap (loaded c0) ([] ++ stored t)
             = dispatched c0 full_schedule (system_of queue1)
               ++ pending (sys_pc (final t)) ++ omap (loaded c0) l.
Proof.
  eexists. split; [vm_compute; reflexivity|].
  eapply (dispatch_in_store_order c0 queue1 (store 100000).2 [] full_schedule).
  - reflexivity.
  - apply repr_empty; simpl; [discriminate | reflexivity | reflexivity].
  - vm_compute. discriminate.
  - vm_compute. reflexivity.
Defined.

Lemma single_worker_executes_in_order_witness :
  ∃ t, run c0 full_schedule (start queue1) = Stepped t
       ∧ ∃ rest, omap (loaded c0) ([] ++ stored t) = (Some <$> executed t) ++ rest.
Proof.
  eexists. split; [vm_compute; reflexivity|].
  eapply (single_worker_executes_in_order c0 queue1 (store 100000).2 [] full_schedule).
  - reflexivity.
  - apply repr_empty; simpl; [discriminate | reflexivity | reflexivity].
  - vm_compute. discriminate.
  - vm_compute. discriminate.
  - vm_compute. reflexivity.
Defined.

Lemma never_executed_twice_witness :
  ∃ t, run c0 full_schedule (start queue1) = Stepped t
       ∧ ∃ rest, omap (loaded c0) ([] ++ stored t) ≡ₚ (Some <$> executed t) ++ rest.
Proof.
  eexists. split; [vm_compute; reflexivity|].
  eapply (never_executed_twice c0 queue1 (store 100000).2 [] full_schedule).
  - reflexivity.
  - apply repr_empty; simpl; [discriminate | reflexivity | reflexivity].
  - vm_compute. discriminate.
  - vm_compute. discriminate.
  - vm_compute. reflexivity.
Defined.

Lemma Run_drains_backlog_witness :
  ∃ t, run c0 (EvRun :: drain_schedule c0 false [GET]) (start queue_holding) = Stepped t
     ∧ sys_run (final t) = RunReturned None
     ∧ executed t = omap (loaded_request c0) [GET]
     ∧ stored t = []
     ∧ ∃ st', storage (sys_world (final t)).2 = StInMemory st'
            ∧ repr ((sys_world (final t)).1, st') [].
Proof.
  apply (Run_drains_backlog c0 queue_holding (store_full GET).2 [GET]).
  - reflexivity.
  - exact store_full_repr.
  - reflexivity.
  - simpl. lia.
  - constructor; [|constructor]. split; [|vm_compute; discriminate].
    eexists. split; [reflexivity|]. simpl. discriminate.
Defined.
